(** * Verification of the [vault] helper library (Go)

    A shallow embedding of the repository's Go code:
    - the payload helpers of [Data] (GetBool, SetUint64, GetBytes, ...),
    - the error records (KeyError, FieldError, ListError),
    - the two credential providers ([Token] and [AppRole]),
    - the session facade ([Client]: New, IsSealed, Read, Write, Delete, List).

    Go's standard library ([strconv], [encoding/base64], [time], [errors]) and
    the HashiCorp client ([hvault]) are the environment of that code.  The pure
    library functions the code calls are modelled here by their documented
    behaviour; the remote service, the clock and the file system are an
    explicit environment that answers every interaction. *)

From Stdlib Require Import ZArith Lia Bool Ascii String List.
From Stdlib.Strings Require Import Byte.
From stdpp Require Import base option list strings gmap.
Import ListNotations.

Local Open Scope string_scope.
Local Open Scope Z_scope.
Local Open Scope list_scope.

(* ===================================================================== *)
(** * Results of Go calls *)
(* ===================================================================== *)

(** A Go call either returns or panics (a failed unchecked type assertion, a
    nil dereference, a write to a nil map).  Nothing in the repository calls
    [recover], so a panic ends the operation.  [Pending] is the outcome of a
    run that was given too few polls for an unbounded wait to end. *)
Inductive Res (A : Type) : Type :=
| Ok (a : A)
| Panic (why : string)
| Pending.
Arguments Ok {A} a.
Arguments Panic {A} why.
Arguments Pending {A}.

(* ===================================================================== *)
(** * Machine integers *)
(* ===================================================================== *)

Module Int.

Definition maxUint64 : Z := 2 ^ 64 - 1.
Definition maxInt64 : Z := 2 ^ 63 - 1.
Definition minInt64 : Z := - 2 ^ 63.

(** Arithmetic on [uint64] keeps the low 64 bits. *)
Definition wrap_uint64 (z : Z) : Z := z mod 2 ^ 64.

(** Arithmetic on [int64] (and on [time.Duration]) wraps in two's complement. *)
Definition wrap_int64 (z : Z) : Z := (z + 2 ^ 63) mod 2 ^ 64 - 2 ^ 63.

Definition is_uint64 (z : Z) : Prop := 0 <= z <= maxUint64.
Definition is_int64 (z : Z) : Prop := minInt64 <= z <= maxInt64.

End Int.

(* ===================================================================== *)
(** * [strconv] *)
(* ===================================================================== *)

Module strconv.

(** [*strconv.NumError] carries one of two causes. *)
Inductive NumError : Type := ErrSyntax | ErrRange.

(** [strconv.FormatBool]. *)
Definition FormatBool (b : bool) : string :=
  if b then "true" else "false".

(** [strconv.ParseBool]: the accepted spellings, anything else is a syntax
    error (with value [false]). *)
Definition ParseBool (str : string) : bool * option NumError :=
  if String.eqb str "1" || String.eqb str "t" || String.eqb str "T"
     || String.eqb str "TRUE" || String.eqb str "true" || String.eqb str "True"
  then (true, None)
  else if String.eqb str "0" || String.eqb str "f" || String.eqb str "F"
     || String.eqb str "FALSE" || String.eqb str "false" || String.eqb str "False"
  then (false, None)
  else (false, Some ErrSyntax).

(** The decimal digit for [0 <= d < 10]. *)
Definition digit_char (d : Z) : ascii := ascii_of_N (Z.to_N (48 + d)).

(** The value of a decimal digit character.  In base 10 [ParseUint] rejects
    every other byte with a syntax error (letters denote digits [>= 10]). *)
Definition digit_value (c : ascii) : option Z :=
  let n := Z.of_N (N_of_ascii c) in
  if (48 <=? n) && (n <=? 57) then Some (n - 48) else None.

(** [strconv.FormatUint(u, 10)]: the digits of [u], most significant first,
    produced from the least significant end as [formatBits] does.  A
    [uint64] has at most 20 digits, which is the fuel [FormatUint] gives. *)
Fixpoint formatBits (fuel : nat) (u : Z) (acc : string) : string :=
  match fuel with
  | O => acc
  | S fuel' =>
      let acc' := String (digit_char (u mod 10)) acc in
      if u <? 10 then acc' else formatBits fuel' (u / 10) acc'
  end.

Definition FormatUint (u : Z) : string := formatBits 20 u "".

(** [strconv.FormatInt(i, 10)]: a minus sign and the magnitude. *)
Definition FormatInt (i : Z) : string :=
  if i <? 0 then String "-" (FormatUint (- i)) else FormatUint i.

(** The smallest number such that [cutoff * 10 > maxUint64]. *)
Definition cutoff10 : Z := Int.maxUint64 / 10 + 1.

(** The digit loop of [strconv.ParseUint(s, 10, 64)], with both overflow
    checks of the source: [n >= cutoff] before the multiplication and
    [n1 < n || n1 > maxVal] after the (wrapping) addition. *)
Fixpoint parseUint_loop (cs : list ascii) (n : Z) : Z * option NumError :=
  match cs with
  | [] => (n, None)
  | c :: cs' =>
      match digit_value c with
      | None => (0, Some ErrSyntax)
      | Some d =>
          if cutoff10 <=? n then (Int.maxUint64, Some ErrRange)
          else
            let n10 := n * 10 in
            let n1 := Int.wrap_uint64 (n10 + d) in
            if (n1 <? n10) || (Int.maxUint64 <? n1)
            then (Int.maxUint64, Some ErrRange)
            else parseUint_loop cs' n1
      end
  end.

Definition ParseUint (s : string) : Z * option NumError :=
  match s with
  | EmptyString => (0, Some ErrSyntax)
  | _ => parseUint_loop (list_ascii_of_string s) 0
  end.

(** [strconv.ParseInt(s, 10, 64)], which [json.Number.Int64] calls. *)
Definition ParseInt (s : string) : Z * option NumError :=
  match s with
  | EmptyString => (0, Some ErrSyntax)
  | String c rest =>
      let neg := Ascii.eqb c "-" in
      let digits := if Ascii.eqb c "+" || neg then rest else s in
      match ParseUint digits with
      | (_, Some ErrSyntax) => (0, Some ErrSyntax)
      | (un, _) =>
          let cutoff := 2 ^ 63 in
          if negb neg && (cutoff <=? un) then (cutoff - 1, Some ErrRange)
          else if neg && (cutoff <? un) then (- cutoff, Some ErrRange)
          else (if neg then - un else un, None)
      end
  end.

End strconv.

(* ===================================================================== *)
(** * [encoding/base64], the padded URL encoding *)
(* ===================================================================== *)

Module base64.

(** [base64.CorruptInputError]: the offset of the offending input byte. *)
Inductive CorruptInputError : Type := CorruptInput (offset : Z).

Definition encodeURL : string :=
  "ABCDEFGHIJKLMNOPQRSTUVWXYZabcdefghijklmnopqrstuvwxyz0123456789-_".

Definition padChar : ascii := "=".

(** [enc.encode[i]]. *)
Definition encode (i : Z) : ascii :=
  nth (Z.to_nat i) (list_ascii_of_string encodeURL) "A"%char.

Fixpoint index_of (c : ascii) (l : list ascii) (i : Z) : Z :=
  match l with
  | [] => 255
  | x :: l' => if Ascii.eqb x c then i else index_of c l' (i + 1)
  end.

(** [enc.decodeMap[c]]: the position of [c] in the alphabet, [0xff] for a
    byte outside it. *)
Definition decodeMap (c : ascii) : Z :=
  index_of c (list_ascii_of_string encodeURL) 0.

Definition byte_to_Z (b : byte) : Z := Z.of_N (Byte.to_N b).

(** The conversion [byte(v)]: the low eight bits. *)
Definition byte_of_Z (v : Z) : byte :=
  match Byte.of_N (Z.to_N (v mod 256)) with
  | Some b => b
  | None => x00
  end.

(** [Encoding.Encode]: three source bytes give four characters; a final
    block of one or two bytes is padded. *)
Fixpoint Encode (src : list byte) : list ascii :=
  match src with
  | [] => []
  | a :: b :: c :: rest =>
      let val := Z.lor (Z.shiftl (byte_to_Z a) 16)
                   (Z.lor (Z.shiftl (byte_to_Z b) 8) (byte_to_Z c)) in
      encode (Z.land (Z.shiftr val 18) 63)
        :: encode (Z.land (Z.shiftr val 12) 63)
        :: encode (Z.land (Z.shiftr val 6) 63)
        :: encode (Z.land val 63)
        :: Encode rest
  | [a; b] =>
      let val := Z.lor (Z.shiftl (byte_to_Z a) 16) (Z.shiftl (byte_to_Z b) 8) in
      [encode (Z.land (Z.shiftr val 18) 63);
       encode (Z.land (Z.shiftr val 12) 63);
       encode (Z.land (Z.shiftr val 6) 63);
       padChar]
  | [a] =>
      let val := Z.shiftl (byte_to_Z a) 16 in
      [encode (Z.land (Z.shiftr val 18) 63);
       encode (Z.land (Z.shiftr val 12) 63);
       padChar; padChar]
  end.

Definition EncodeToString (src : list byte) : string :=
  string_of_list_ascii (Encode src).

Definition is_newline (c : ascii) : bool :=
  Ascii.eqb c "010"%char || Ascii.eqb c "013"%char.

(** The loops [for si < len(src) && (src[si] == '\n' || src[si] == '\r')]:
    what is left of the input, and the offset reached. *)
Fixpoint skip_newlines (src : list ascii) (si : Z) : list ascii * Z :=
  match src with
  | [] => ([], si)
  | c :: rest => if is_newline c then skip_newlines rest (si + 1) else (src, si)
  end.

(** The end of [decodeQuantum]: [dlen] collected sextets (the others zero)
    are four times six bits, of which [dlen - 1] bytes are kept. *)
Definition quantum_bytes (q : list Z) : list byte :=
  let val := Z.lor (Z.shiftl (nth 0 q 0) 18)
               (Z.lor (Z.shiftl (nth 1 q 0) 12)
                  (Z.lor (Z.shiftl (nth 2 q 0) 6) (nth 3 q 0))) in
  take (length q - 1)
    [byte_of_Z (Z.shiftr val 16); byte_of_Z (Z.shiftr val 8); byte_of_Z val].

(** After the padding of the last quantum only newlines may follow;
    anything else is trailing garbage, reported together with the bytes
    decoded so far. *)
Definition after_padding (rest : list ascii) (si : Z) (out : list byte)
  : list byte * option CorruptInputError :=
  match skip_newlines rest si with
  | ([], _) => (out, None)
  | (_ :: _, si') => (out, Some (CorruptInput si'))
  end.

(** [Encoding.Decode] as a loop over the input: [si] is the offset of the
    next input byte, [q] holds the sextets of the quantum being read
    ([j = length q]), [out] the bytes written so far.  Carriage returns and
    line feeds are skipped wherever they occur. *)
Fixpoint decode_loop (src : list ascii) (si : Z) (q : list Z) (out : list byte)
  : list byte * option CorruptInputError :=
  match src with
  | [] =>
      match q with
      | [] => (out, None)
      | _ :: _ => (out, Some (CorruptInput (si - Z.of_nat (length q))))
      end
  | c :: rest =>
      let v := decodeMap c in
      if negb (v =? 255) then
        if (length q =? 3)%nat
        then decode_loop rest (si + 1) [] (out ++ quantum_bytes (q ++ [v]))
        else decode_loop rest (si + 1) (q ++ [v]) out
      else if is_newline c then decode_loop rest (si + 1) q out
      else if negb (Ascii.eqb c padChar) then (out, Some (CorruptInput si))
      else
        match q with
        | [] | [_] => (out, Some (CorruptInput si))
        | [_; _] =>
            match skip_newlines rest (si + 1) with
            | ([], si') => (out, Some (CorruptInput si'))
            | (c2 :: rest2, si') =>
                if Ascii.eqb c2 padChar
                then after_padding rest2 (si' + 1) (out ++ quantum_bytes q)
                else (out, Some (CorruptInput (si' - 1)))
            end
        | _ => after_padding rest (si + 1) (out ++ quantum_bytes q)
        end
  end.

(** [Encoding.DecodeString]: the decoded prefix and the error, if any. *)
Definition DecodeString (s : string) : list byte * option CorruptInputError :=
  decode_loop (list_ascii_of_string s) 0 [] [].

End base64.

(* ===================================================================== *)
(** * [time] *)
(* ===================================================================== *)

Module time.

(** An instant, in nanoseconds since January 1, year 1, 00:00:00 UTC: the
    zero [time.Time] is [0].  The code only handles wall-clock instants in
    UTC ([.UTC()] strips the monotonic reading); instants are taken inside
    the range Go represents without saturation. *)
Definition Time : Type := Z.

(** [time.Duration]: an [int64] count of nanoseconds. *)
Definition Duration : Type := Z.

Definition Second : Duration := 1000000000.

(** [time.Duration(n) * time.Second], an [int64] multiplication. *)
Definition seconds (n : Z) : Duration := Int.wrap_int64 (n * Second).

Definition Add (t : Time) (d : Duration) : Time := t + d.
Definition Before (t u : Time) : bool := t <? u.
Definition IsZero (t : Time) : bool := t =? 0.

Definition nsPerDay : Z := 86400 * Second.

(** Days from 0001-01-01 to the given date of the proleptic Gregorian
    calendar; [d] may lie outside the month, as in [time.Date]. *)
Definition days_from_civil (y m d : Z) : Z :=
  let y' := if m <=? 2 then y - 1 else y in
  let era := y' / 400 in
  let yoe := y' - era * 400 in
  let mp := if 2 <? m then m - 3 else m + 9 in
  let doy := (153 * mp + 2) / 5 + d - 1 in
  let doe := yoe * 365 + yoe / 4 - yoe / 100 + doy in
  era * 146097 + doe - 306.

(** The date (year, month, day) of a day number, inverse of
    [days_from_civil] on valid dates. *)
Definition civil_from_days (z : Z) : Z * Z * Z :=
  let z' := z + 306 in
  let era := z' / 146097 in
  let doe := z' - era * 146097 in
  let yoe := (doe - doe / 1460 + doe / 36524 - doe / 146096) / 365 in
  let doy := doe - (365 * yoe + yoe / 4 - yoe / 100) in
  let mp := (5 * doy + 2) / 153 in
  let d := doy - (153 * mp + 2) / 5 + 1 in
  let m := if mp <? 10 then mp + 3 else mp - 9 in
  ((if m <=? 2 then yoe + era * 400 + 1 else yoe + era * 400), m, d).

(** [t.AddDate(years, months, days)] in UTC: the date is shifted field by
    field and normalised by [time.Date]; the time of day is kept. *)
Definition AddDate (t : Time) (years months days : Z) : Time :=
  let day := t / nsPerDay in
  let '(y, m, d) := civil_from_days day in
  let m0 := m - 1 + months in
  let y' := y + years + m0 / 12 in
  let m' := m0 mod 12 + 1 in
  (days_from_civil y' m' 1 + (d - 1) + days) * nsPerDay + t mod nsPerDay.

(** The layout [Token.GetToken] parses the expiry with. *)
Definition expire_layout : string := "2006-01-02T15:04:05.000000000Z".

End time.

(* ===================================================================== *)
(** * Error values *)
(* ===================================================================== *)

(** The error values that reach the repository's code.  [errorString] is what
    [errors.New] and [fmt.Errorf] without [%w] build (and stands for every
    error of the environment that has neither an [Is] nor an [Unwrap]
    method); [wrapError prefix e] is [fmt.Errorf(prefix + "%w", e)];
    [KeyError], [FieldError] and [ListError] are the repository's own
    records. *)
Inductive error : Type :=
| errorString (s : string)
| wrapError (prefix : string) (e : error)
| KeyError (key : string)
| FieldError (field : string)
| ListError (rootPath path : string)
| NumError (func num : string) (cause : strconv.NumError)
| CorruptInputError (offset : Z).

Module errors.
Section Rendering.

(** [strconv.Quote], behind the verb [%q]; taken as given. *)
Variable Quote : string -> string.

(** [ErrKeyNotFound(key).Error()]. *)
Definition ErrKeyNotFound (key : string) : string :=
  "vault: key " +:+ key +:+ " does not exist".

(** [ErrFieldNotFound(key).Error()]. *)
Definition ErrFieldNotFound (key : string) : string :=
  "vault: field " +:+ key +:+ " does not exist".

(** [ErrListPathNotFound(path).Error()]. *)
Definition ErrListPathNotFound (path : string) : string :=
  "list: no keys found for given path " +:+ Quote path.

(** The method [Error()] of each error value.  A [ListError] renders only
    its [path], as the source does. *)
Fixpoint Error (e : error) : string :=
  match e with
  | errorString s => s
  | wrapError prefix e' => prefix +:+ Error e'
  | KeyError key => ErrKeyNotFound key
  | FieldError field => ErrFieldNotFound field
  | ListError _ path => ErrListPathNotFound path
  | NumError func num cause =>
      "strconv." +:+ func +:+ ": parsing " +:+ Quote num +:+ ": "
        +:+ match cause with
            | strconv.ErrSyntax => "invalid syntax"
            | strconv.ErrRange => "value out of range"
            end
  | CorruptInputError offset =>
      "illegal base64 data at input byte " +:+ strconv.FormatInt offset
  end.

(** [errors.Is(err, target)] for a [target] the caller has just constructed
    ([NewKeyError(path)] and the like): such a pointer is identical to no
    error of the chain, so for pointers only the [Is] methods decide.  The
    three records of the repository compare rendered messages;
    [fmt.Errorf]'s wrapper unwraps; a [CorruptInputError] is an integer and
    compares by value; the other values end the walk. *)
Fixpoint Is (err target : error) : bool :=
  match err with
  | wrapError _ e' => Is e' target
  | KeyError _ | FieldError _ | ListError _ _ =>
      String.eqb (Error err) (Error target)
  | CorruptInputError offset =>
      match target with
      | CorruptInputError offset' => offset =? offset'
      | _ => false
      end
  | errorString _ | NumError _ _ _ => false
  end.

End Rendering.
End errors.

(** [NewKeyError], [NewFieldError], [NewListError]. *)
Definition NewKeyError (key : string) : error := KeyError key.
Definition NewFieldError (field : string) : error := FieldError field.
Definition NewListError (rootPath path : string) : error := ListError rootPath path.

(* ===================================================================== *)
(** * [Data]: the payload record *)
(* ===================================================================== *)

(** A value of type [interface{}] as the code inspects it. *)
#[warnings="-register-all"]
Inductive value : Type :=
| VNil
| VString (s : string)
| VNumber (n : string)      (* json.Number: the literal as text *)
| VList (l : list value)    (* []interface{} *)
| VOther.                   (* any other dynamic type *)

(** [type Data map[string]interface{}]: a map may be nil. *)
Inductive Data : Type :=
| NilData
| MkData (m : gmap string value).

(** [NewData()]. *)
Definition NewData : Data := MkData ∅.

(** [d[field]]: the zero value (a nil interface) for an absent key and for
    every key of a nil map. *)
Definition field_value (d : Data) (field : string) : value :=
  match d with
  | NilData => VNil
  | MkData m => default VNil (m !! field)
  end.

(** [d[field] = v]: a write to a nil map panics. *)
Definition assign_field (d : Data) (field : string) (v : value) : Res Data :=
  match d with
  | NilData => Panic "assignment to entry in nil map"
  | MkData m => Ok (MkData (<[field := v]> m))
  end.

(** [Exist]. *)
Definition Exist (d : Data) (field : string) : bool :=
  match d with
  | NilData => false
  | MkData m => bool_decide (is_Some (m !! field))
  end.

(** [GetString]. *)
Definition GetString (d : Data) (field : string) : string :=
  match field_value d field with
  | VString value => value
  | _ => ""
  end.

(** [GetBool]: the error of [ParseBool] is dropped. *)
Definition GetBool (d : Data) (field : string) : bool :=
  match field_value d field with
  | VString v => fst (strconv.ParseBool v)
  | _ => false
  end.

(** [GetUint64]: the error of [ParseUint] is dropped, its value kept. *)
Definition GetUint64 (d : Data) (field : string) : Z :=
  match field_value d field with
  | VString v => fst (strconv.ParseUint v)
  | _ => 0
  end.

(** [GetBytes]. *)
Definition GetBytes (d : Data) (field : string) : list byte * option error :=
  match field_value d field with
  | VString value =>
      match value with
      | EmptyString => ([], Some (errorString ("getbytes:" +:+ field +:+ " is empty")))
      | _ =>
          match base64.DecodeString value with
          | (bytes, None) => (bytes, None)
          | (bytes, Some (base64.CorruptInput offset)) =>
              (bytes, Some (CorruptInputError offset))
          end
      end
  | _ => ([], Some (errorString ("getbytes: no such field " +:+ field)))
  end.

(** [SetString], [SetBool], [SetUint64], [SetBytes]. *)
Definition SetString (d : Data) (field value : string) : Res Data :=
  assign_field d field (VString value).

Definition SetBool (d : Data) (field : string) (value : bool) : Res Data :=
  assign_field d field (VString (strconv.FormatBool value)).

Definition SetUint64 (d : Data) (field : string) (value : Z) : Res Data :=
  assign_field d field (VString (strconv.FormatUint value)).

Definition SetBytes (d : Data) (field : string) (value : list byte) : Res Data :=
  assign_field d field (VString (base64.EncodeToString value)).

(** [json.Number.Int64()]. *)
Definition Int64 (n : string) : Z * option error :=
  match strconv.ParseInt n with
  | (i, None) => (i, None)
  | (i, Some cause) => (i, Some (NumError "ParseInt" n cause))
  end.

(* ===================================================================== *)
(** * The HashiCorp client and the world outside *)
(* ===================================================================== *)

Module hvault.

(** [hvault.SecretAuth]: the two fields the repository reads. *)
Record SecretAuth : Type := {
  ClientToken : string;
  LeaseDuration : Z;          (* int *)
}.

(** The calls on [c.Logical()]. *)
Inductive Request : Type :=
| Read (path : string)
| Write (path : string) (data : Data)
| Delete (path : string)
| List (path : string).

(** [hvault.SealStatusResponse]. *)
Record SealStatusResponse : Type := { Sealed : bool }.

(** [hvault.Secret]: [Auth] is a pointer and may be nil. *)
Record Secret : Type := {
  Data : Data;
  Auth : option SecretAuth;
}.

Definition EnvVaultAddress : string := "VAULT_ADDR".
Definition EnvVaultToken : string := "VAULT_TOKEN".

End hvault.

(** What the code does to the world, in the order it does it. *)
Inductive Event : Type :=
| EvNow (t : time.Time)                           (* time.Now() *)
| EvNewClient                                     (* hvault.NewClient *)
| EvSealStatus                                    (* client.Sys().SealStatus() *)
| EvLogical (token : string) (req : hvault.Request) (* a call of c.Logical(), under the client's token *)
| EvReadFile (name : string)                      (* ioutil.ReadFile *)
| EvSleep (d : time.Duration)                     (* time.Sleep *)
| EvLog (msg : string)                            (* jww.INFO *)
| EvGetToken.                                     (* a call of Auth.GetToken *)

(** The environment answers each interaction from the history so far: the
    clock, the process environment, the remote service and the file system. *)
Record Env : Type := {
  env_Now : list Event -> time.Time;
  env_Getenv : string -> string;
  env_NewClient : list Event -> option error;
  env_SealStatus : list Event -> option hvault.SealStatusResponse * option error;
  env_Logical : list Event -> string -> hvault.Request -> option hvault.Secret * option error;
  env_ReadFile : list Event -> string -> string * option error;
}.

(** The state outside the repository's structs: the token the one shared
    [*hvault.Client] currently carries, and the history. *)
Record World : Type := {
  client_token : string;
  trace : list Event;
}.

(** A computation reads the environment and updates the world. *)
Definition M (A : Type) : Type := Env -> World -> Res A * World.

#[global] Instance M_ret : MRet M := fun A a _ w => (Ok a, w).

#[global] Instance M_bind : MBind M := fun A B f m e w =>
  match m e w with
  | (Ok a, w') => f a e w'
  | (Panic why, w') => (Panic why, w')
  | (Pending, w') => (Pending, w')
  end.

Definition panic {A : Type} (why : string) : M A := fun _ w => (Panic why, w).
Definition pending {A : Type} : M A := fun _ w => (Pending, w).

Definition emit (ev : Event) (w : World) : World :=
  {| client_token := client_token w; trace := trace w ++ [ev] |}.

Definition Now : M time.Time := fun e w =>
  let t := env_Now e (trace w) in (Ok t, emit (EvNow t) w).

Definition Getenv (key : string) : M string := fun e w => (Ok (env_Getenv e key), w).

(** [hvault.NewClient(config)]: a new client carries the token of the
    process environment. *)
Definition NewClient : M (option error) := fun e w =>
  match env_NewClient e (trace w) with
  | Some err => (Ok (Some err), emit EvNewClient w)
  | None =>
      (Ok None, {| client_token := env_Getenv e hvault.EnvVaultToken;
                   trace := trace w ++ [EvNewClient] |})
  end.

Definition SealStatus : M (option hvault.SealStatusResponse * option error) := fun e w =>
  (Ok (env_SealStatus e (trace w)), emit EvSealStatus w).

(** [c.SetToken(v)]. *)
Definition c_SetToken (v : string) : M unit := fun _ w =>
  (Ok tt, {| client_token := v; trace := trace w |}).

Definition Logical (req : hvault.Request) : M (option hvault.Secret * option error) :=
  fun e w =>
    (Ok (env_Logical e (trace w) (client_token w) req),
     emit (EvLogical (client_token w) req) w).

Definition ReadFile (name : string) : M (string * option error) := fun e w =>
  (Ok (env_ReadFile e (trace w) name), emit (EvReadFile name) w).

Definition Sleep (d : time.Duration) : M unit := fun _ w => (Ok tt, emit (EvSleep d) w).
Definition Log (msg : string) : M unit := fun _ w => (Ok tt, emit (EvLog msg) w).
Definition called_GetToken : M unit := fun _ w => (Ok tt, emit EvGetToken w).

(** A pure step that may panic. *)
Definition lift {A : Type} (r : Res A) : M A := fun _ w => (r, w).

(** Dereferencing a pointer. *)
Definition deref {A : Type} (p : option A) : M A :=
  match p with
  | Some a => mret a
  | None => panic "invalid memory address or nil pointer dereference"
  end.

(** The unchecked type assertions [x.(json.Number)], [x.(string)] and
    [x.([]interface{})]. *)
Definition assert_Number (x : value) : M string :=
  match x with
  | VNumber n => mret n
  | _ => panic "interface conversion: interface {} is not json.Number"
  end.

Definition assert_string (x : value) : M string :=
  match x with
  | VString s => mret s
  | _ => panic "interface conversion: interface {} is not string"
  end.

Definition assert_list (x : value) : M (list value) :=
  match x with
  | VList l => mret l
  | _ => panic "interface conversion: interface {} is not []interface {}"
  end.

(** The interface [Auth]: one method, which may update the receiver. *)
Class Auth (A : Type) : Type :=
  Auth_GetToken : A -> M ((string * option error) * A).

Definition len0 (s : string) : bool := String.eqb s "".

(* ===================================================================== *)
(** * The Standing-Token provider ([Token]) *)
(* ===================================================================== *)

Module token.
Section WithParse.

(** [time.Parse(layout, value)], taken as given; [None] is a parse error,
    for which Go returns the zero [Time]. *)
Variable time_Parse : string -> string -> option time.Time.

(** The struct [Token]; its mutex is held from the entry of [GetToken] to
    its return, so a call runs alone on the struct. *)
Record Token : Type := {
  token : string;
  token_file : string;
  expires : time.Time;
}.

Definition NewToken (token : string) : Token :=
  {| token := token; token_file := ""; expires := 0 |}.

Definition SetToken (t : Token) (token : string) : Token :=
  {| token := token; token_file := token_file t; expires := expires t |}.

Definition SetTokenFile (t : Token) (token_file : string) : Token :=
  {| token := token t; token_file := token_file; expires := expires t |}.

Definition set_expires (t : Token) (e : time.Time) : Token :=
  {| token := token t; token_file := token_file t; expires := e |}.

(** The branch [if t.expires.IsZero()]: self-introspection. *)
Definition lookup_self (t : Token) : M ((string * option error) * Token) :=
  c_SetToken (token t);;
  '(secret, errZero) ← Logical (hvault.Read "/auth/token/lookup-self");
  match errZero with
  | Some e => mret (("", Some (wrapError "gettoken: " e)), t)
  | None =>
      s ← deref secret;
      n ← assert_Number (field_value (hvault.Data s) "creation_ttl");
      let '(ttl, errZero) := Int64 n in
      match errZero with
      | Some e => mret (("", Some (wrapError "gettoken: " e)), t)
      | None =>
          let ttl := if 20 <? ttl then ttl - 10 else ttl in
          match field_value (hvault.Data s) "expire_time" with
          | VNil =>
              now ← Now;
              mret ((token t, None), set_expires t (time.AddDate now 1000 0 0))
          | x =>
              str ← assert_string x;
              let tm := default 0 (time_Parse time.expire_layout str) in
              mret ((token t, None), set_expires t (time.Add tm (time.seconds ttl)))
          end
      end
  end.

(** [Token.GetToken]. *)
Definition GetToken (t : Token) : M ((string * option error) * Token) :=
  if negb (len0 (token_file t)) then
    '(bytes, err) ← ReadFile (token_file t);
    match err with
    | Some e => mret (("", Some (wrapError "gettoken: " e)), t)
    | None => mret ((bytes, None), t)
    end
  else
    now ← Now;
    if time.Before now (expires t) then mret ((token t, None), t)
    else if time.IsZero (expires t) then lookup_self t
    else
      c_SetToken (token t);;
      '(_, err) ← Logical (hvault.Write "/auth/token/renew-self" NilData);
      match err with
      | Some e => mret (("", Some (wrapError "gettoken: " e)), t)
      | None => mret ((token t, None), t)
      end.

End WithParse.
End token.

(* ===================================================================== *)
(** * The Secret-Exchange provider ([AppRole]) *)
(* ===================================================================== *)

Module approle.

Definition AppRolePath : string := "approle".

(** The struct [AppRole]; [auth] is a pointer and starts nil.  The mutex is
    held from the entry of [GetToken] to its return. *)
Record AppRole : Type := {
  appRoleName : string;
  role_id : string;
  secret_id : string;
  unwrap_token : string;
  path : string;
  auth : option hvault.SecretAuth;
  expires : time.Time;
}.

Definition NewAppRole (path appRoleName role_id : string) : AppRole :=
  {| appRoleName := appRoleName; role_id := role_id; secret_id := "";
     unwrap_token := ""; path := "auth/" +:+ path; auth := None; expires := 0 |}.

Definition SetSecretID (ar : AppRole) (secret_id : string) : AppRole :=
  {| appRoleName := appRoleName ar; role_id := role_id ar; secret_id := secret_id;
     unwrap_token := unwrap_token ar; path := path ar; auth := auth ar;
     expires := expires ar |}.

Definition SetUnwrapToken (ar : AppRole) (unwrap_token : string) : AppRole :=
  {| appRoleName := appRoleName ar; role_id := role_id ar; secret_id := secret_id ar;
     unwrap_token := unwrap_token; path := path ar; auth := auth ar;
     expires := expires ar |}.

Definition set_auth (ar : AppRole) (a : option hvault.SecretAuth) : AppRole :=
  {| appRoleName := appRoleName ar; role_id := role_id ar; secret_id := secret_id ar;
     unwrap_token := unwrap_token ar; path := path ar; auth := a;
     expires := expires ar |}.

Definition set_expires (ar : AppRole) (e : time.Time) : AppRole :=
  {| appRoleName := appRoleName ar; role_id := role_id ar; secret_id := secret_id ar;
     unwrap_token := unwrap_token ar; path := path ar; auth := auth ar;
     expires := e |}.

(** The lease the struct keeps after the safety margin. *)
Definition margin (lease : Z) : Z := if 20 <? lease then lease - 10 else lease.

(** [setexpiry]: dereferences [ar.auth], shortens the lease it holds, and
    sets the expiry from the clock. *)
Definition setexpiry (ar : AppRole) : M AppRole :=
  a ← deref (auth ar);
  let lease := margin (hvault.LeaseDuration a) in
  let a' := {| hvault.ClientToken := hvault.ClientToken a;
               hvault.LeaseDuration := lease |} in
  now ← Now;
  mret (set_expires (set_auth ar (Some a')) (time.Add now (time.seconds lease))).

(** [unwrap]. *)
Definition unwrap (ar : AppRole) : M (option error * AppRole) :=
  c_SetToken (unwrap_token ar);;
  '(secret, err) ← Logical (hvault.Write "sys/wrapping/unwrap" NilData);
  match err with
  | Some e => mret (Some (wrapError "unwrap: " e), ar)
  | None =>
      let ar1 := set_auth ar (Some {| hvault.ClientToken := "";
                                      hvault.LeaseDuration := 0 |}) in
      s ← deref secret;
      n ← assert_Number (field_value (hvault.Data s) "secret_id_ttl");
      let '(ttl, err) := Int64 n in
      match err with
      | Some e => mret (Some (wrapError "unwrap: " e), ar1)
      | None =>
          sid ← assert_string (field_value (hvault.Data s) "secret_id");
          let ar2 := SetSecretID ar1 sid in
          let ar3 := set_auth ar2 (Some {| hvault.ClientToken := "";
                                           hvault.LeaseDuration := ttl |}) in
          ar4 ← setexpiry ar3;
          mret (None, ar4)
      end
  end.

(** [new]. *)
Definition new (ar : AppRole) : M (option error * AppRole) :=
  if len0 (role_id ar) && len0 (secret_id ar) then
    mret (Some (errorString "new: missing 'role_id' and 'secret_id' to get new token"), ar)
  else
    d ← lift (SetString NewData "role_id" (role_id ar));
    d ← lift (SetString d "secret_id" (secret_id ar));
    '(secret, err) ← Logical (hvault.Write (path ar +:+ "/login") d);
    match err with
    | Some e => mret (Some (wrapError "new: " e), ar)
    | None =>
        s ← deref secret;
        ar' ← setexpiry (set_auth ar (hvault.Auth s));
        mret (None, ar')
    end.

(** [renew]; its caller has checked that [ar.auth] is not nil. *)
Definition renew (ar : AppRole) : M (option error * AppRole) :=
  a ← deref (auth ar);
  if len0 (hvault.ClientToken a) then
    mret (Some (errorString "renew: missing 'token' for renewal"), ar)
  else
    c_SetToken (hvault.ClientToken a);;
    '(secret, err) ← Logical (hvault.Write "auth/token/renew-self" NilData);
    match err with
    | Some e => mret (Some (wrapError "renew: " e), ar)
    | None =>
        s ← deref secret;
        ar' ← setexpiry (set_auth ar (hvault.Auth s));
        mret (None, ar')
    end.

(** The second half of [GetToken]: unwrap if an unwrap token is set, then
    log in with the secret. *)
Definition mint (ar : AppRole) : M ((string * option error) * AppRole) :=
  r ← (if negb (len0 (unwrap_token ar)) then
         '(err, ar1) ← unwrap ar;
         match err with
         | Some e => mret (inl (("", Some (wrapError "gettoken: " e)), ar1))
         | None => mret (inr (SetUnwrapToken ar1 ""))
         end
       else mret (inr ar));
  match r with
  | inl returned => mret returned
  | inr ar2 =>
      if len0 (secret_id ar2) then
        mret (("", Some (errorString
                 "gettoken: missing 'secret_id' to get a valid token from Vault")), ar2)
      else
        '(err, ar3) ← new ar2;
        match err with
        | Some e => mret (("", Some (wrapError "gettoken: " e)), ar3)
        | None =>
            a ← deref (auth ar3);
            mret ((hvault.ClientToken a, None), ar3)
        end
  end.

(** [AppRole.GetToken]. *)
Definition GetToken (ar : AppRole) : M ((string * option error) * AppRole) :=
  match auth ar with
  | Some a =>
      valid ← (if negb (len0 (hvault.ClientToken a))
               then now ← Now; mret (time.Before now (expires ar))
               else mret false);
      if valid : bool then mret ((hvault.ClientToken a, None), ar)
      else
        '(err, ar1) ← renew ar;
        match err with
        | None =>
            a1 ← deref (auth ar1);
            mret ((hvault.ClientToken a1, None), ar1)
        | Some _ => mint ar1
        end
  | None => mint ar
  end.

End approle.

#[global] Instance Token_Auth (time_Parse : string -> string -> option time.Time)
  : Auth token.Token := token.GetToken time_Parse.
#[global] Instance AppRole_Auth : Auth approle.AppRole := approle.GetToken.

(* ===================================================================== *)
(** * The session facade ([Client]) *)
(* ===================================================================== *)

Module client.
Section WithAuth.

Context {A : Type} `{Auth A}.

(** The struct [Client].  Its field [client] points to the one
    [*hvault.Client], whose state is part of the [World]. *)
Record Client : Type := {
  store : string;
  attempts : Z;
  retry : Z;
  auth : A;
}.

Definition set_auth (v : Client) (a : A) : Client :=
  {| store := store v; attempts := attempts v; retry := retry v; auth := a |}.

(** [ok]: checks the store and fills in the defaults. *)
Definition ok (v : Client) : option error * Client :=
  if len0 (store v) then (Some (errorString "missing vault path"), v)
  else
    let v1 := if attempts v =? 0
              then {| store := store v; attempts := 12; retry := retry v; auth := auth v |}
              else v in
    let v2 := if retry v1 =? 0
              then {| store := store v1; attempts := attempts v1; retry := 5; auth := auth v1 |}
              else v1 in
    (None, v2).

(** The line ["sleeping %d seconds to check vault status, attempt %d of %d"]. *)
Definition sleeping_msg (retry i attempts : Z) : string :=
  "sleeping " +:+ strconv.FormatInt retry
    +:+ " seconds to check vault status, attempt "
    +:+ strconv.FormatInt i +:+ " of " +:+ strconv.FormatInt attempts.

(** The first loop of [New], [for i := 1; i <= v.attempts; i++]: [n] counts
    the iterations still allowed.  The result is an early return with an
    error, or the seal status the loop ends with. *)
Fixpoint poll_status (n : nat) (i : Z) (v : Client)
    (sealStatus : option hvault.SealStatusResponse)
  : M (error + option hvault.SealStatusResponse) :=
  match n with
  | O => mret (inr sealStatus)
  | S n' =>
      err ← NewClient;
      match err with
      | Some e => mret (inl (wrapError "new: " e))
      | None =>
          '(sealStatus, err) ← SealStatus;
          match err with
          | Some e => mret (inl (wrapError "new: seal status (1): " e))
          | None =>
              match sealStatus with
              | Some _ => mret (inr sealStatus)
              | None =>
                  Log (sleeping_msg (retry v) i (attempts v));;
                  Sleep (time.seconds (retry v));;
                  poll_status n' (i + 1) v sealStatus
              end
          end
      end
  end.

(** The second loop of [New], [for sealStatus.Sealed]: it has no bound, so
    a run is given a number of polls after which it is [Pending]. *)
Fixpoint wait_unsealed (polls : nat) (v : Client)
    (sealStatus : option hvault.SealStatusResponse) : M (option error) :=
  s ← deref sealStatus;
  if hvault.Sealed s then
    match polls with
    | O => pending
    | S polls' =>
        Log "vault is sealed, waiting for it to be unsealed";;
        '(sealStatus, err) ← SealStatus;
        match err with
        | Some e => mret (Some (wrapError "new: seal status (2): " e))
        | None =>
            Sleep (time.seconds (retry v));;
            wait_unsealed polls' v sealStatus
        end
    end
  else mret None.

(** [New(auth, store, output)]; the log sink [output] is not modelled.
    [polls] bounds the wait for an unsealed service (see [wait_unsealed]).
    The struct holds [auth] from the start here; the source assigns the field
    last and reads it nowhere before. *)
Definition New (polls : nat) (auth : A) (store : string)
  : M (option Client * option error) :=
  let v := {| store := store; attempts := 12; retry := 5; auth := auth |} in
  match ok v with
  | (Some e, _) => mret (None, Some (wrapError "new: " e))
  | (None, v) =>
      addr ← Getenv hvault.EnvVaultAddress;
      if len0 addr then
        mret (None, Some (errorString
                ("new: missing environment variable " +:+ hvault.EnvVaultAddress)))
      else
        r ← poll_status (Z.to_nat (attempts v)) 1 v
              (Some {| hvault.Sealed := false |});
        match r with
        | inl e => mret (None, Some e)
        | inr None =>
            mret (None, Some (errorString "new: unable to obtain seal status of Vault"))
        | inr (Some s) =>
            err ← wait_unsealed polls v (Some s);
            match err with
            | Some e => mret (None, Some e)
            | None => mret (Some (set_auth v auth), None)
            end
        end
  end.

(** [IsSealed]. *)
Definition IsSealed (v : Client) : M (bool * option error) :=
  '(sealStatus, err) ← SealStatus;
  match err with
  | Some e => mret (true, Some (wrapError "issealed: seal status: " e))
  | None => s ← deref sealStatus; mret (hvault.Sealed s, None)
  end.

(** What a failed operation leaves of the provider: [GetToken] may have
    updated it even when it returns an error.  The operations return the
    client next to their Go results. *)
Definition returning {R : Type} (v : Client) (r : R * option error)
  : M ((R * option error) * Client) := mret (r, v).

(** [Write]. *)
Definition Write (v : Client) (path : string) (d : Data)
  : M ((Data * option error) * Client) :=
  '(sealed, err) ← IsSealed v;
  match err with
  | Some e => returning v (NilData, Some e)
  | None =>
      if sealed : bool then
        returning v (NilData, Some (errorString "write: vault is currently sealed"))
      else
        called_GetToken;;
        '((token, err), a) ← Auth_GetToken (auth v);
        let v := set_auth v a in
        match err with
        | Some e => returning v (NilData, Some (wrapError "write: " e))
        | None =>
            c_SetToken token;;
            '(secret, err) ← Logical (hvault.Write (store v +:+ "/" +:+ path) d);
            match err with
            | Some e => returning v (NilData, Some (wrapError "write: " e))
            | None =>
                match secret with
                | Some s =>
                    match hvault.Data s with
                    | NilData => returning v (NilData, None)
                    | data => returning v (data, None)
                    end
                | None => returning v (NilData, None)
                end
            end
        end
  end.

(** [Read]. *)
Definition Read (v : Client) (path : string)
  : M ((Data * option error) * Client) :=
  '(sealed, err) ← IsSealed v;
  match err with
  | Some e => returning v (NilData, Some e)
  | None =>
      if sealed : bool then
        returning v (NilData, Some (errorString "read: vault is currently sealed"))
      else
        called_GetToken;;
        '((token, err), a) ← Auth_GetToken (auth v);
        let v := set_auth v a in
        match err with
        | Some e => returning v (NilData, Some (wrapError "read: " e))
        | None =>
            c_SetToken token;;
            '(secret, err) ← Logical (hvault.Read (store v +:+ "/" +:+ path));
            match err with
            | Some e => returning v (NilData, Some (wrapError "read: " e))
            | None =>
                match secret with
                | None => returning v (NilData, Some (wrapError "read: " (NewKeyError path)))
                | Some s => returning v (hvault.Data s, None)
                end
            end
        end
  end.

(** [Delete]. *)
Definition Delete (v : Client) (path : string)
  : M ((Data * option error) * Client) :=
  '(sealed, err) ← IsSealed v;
  match err with
  | Some e => returning v (NilData, Some e)
  | None =>
      if sealed : bool then
        returning v (NilData, Some (errorString "delete: vault is currently sealed"))
      else
        called_GetToken;;
        '((token, err), a) ← Auth_GetToken (auth v);
        let v := set_auth v a in
        match err with
        | Some e => returning v (NilData, Some (wrapError "delete: " e))
        | None =>
            c_SetToken token;;
            '(secret, err) ← Logical (hvault.Delete (store v +:+ "/" +:+ path));
            match err with
            | Some e => returning v (NilData, Some (wrapError "delete: " e))
            | None =>
                match secret with
                | None => returning v (NilData, None)
                | Some s => returning v (hvault.Data s, None)
                end
            end
        end
  end.

(** The loop of [List] over the asserted slice: [k.(string)] on each
    element, appended to [keys]. *)
Fixpoint collect_keys (l : list value) (keys : list string) : M (list string) :=
  match l with
  | [] => mret keys
  | k :: l' => s ← assert_string k; collect_keys l' (keys ++ [s])
  end.

(** [List]. *)
Definition List (v : Client) (path : string)
  : M ((list string * option error) * Client) :=
  '(sealed, err) ← IsSealed v;
  match err with
  | Some e => returning v ([], Some e)
  | None =>
      if sealed : bool then
        returning v ([], Some (errorString "delete: vault is currently sealed"))
      else
        called_GetToken;;
        '((token, err), a) ← Auth_GetToken (auth v);
        let v := set_auth v a in
        match err with
        | Some e => returning v ([], Some (wrapError "delete: " e))
        | None =>
            c_SetToken token;;
            '(secret, err) ← Logical (hvault.List (store v +:+ "/" +:+ path));
            match err with
            | Some e => returning v ([], Some e)
            | None =>
                match secret with
                | None => returning v ([], Some (NewListError (store v) path))
                | Some s =>
                    l ← assert_list (field_value (hvault.Data s) "keys");
                    keys ← collect_keys l [];
                    returning v (keys, None)
                end
            end
        end
  end.

(** [ReadKey]. *)
Definition ReadKey (v : Client) (path field : string)
  : M ((string * option error) * Client) :=
  '((d, err), v) ← Read v path;
  match err with
  | Some e => returning v ("", Some (wrapError "get: " e))
  | None =>
      let value := GetString d field in
      if len0 value
      then returning v ("", Some (wrapError "get: " (NewFieldError field)))
      else returning v (value, None)
  end.

(** [WriteKey]: read, set one field, write back. *)
Definition WriteKey (v : Client) (path field value : string)
  : M ((Data * option error) * Client) :=
  '((d, err), v) ← Read v path;
  match err with
  | Some e => returning v (NilData, Some (wrapError "writekey: " e))
  | None =>
      d' ← lift (SetString d field value);
      Write v path d'
  end.

End WithAuth.

Arguments Client A : clear implicits.

End client.

(* ===================================================================== *)
(** * Vocabulary of the statements *)
(* ===================================================================== *)

(** ** Worlds and histories *)

Definition with_trace (w : World) (evs : list Event) : World :=
  {| client_token := client_token w; trace := trace w ++ evs |}.

Definition set_token (tok : string) (w : World) : World :=
  {| client_token := tok; trace := trace w |}.

(** A computation whose events all satisfy [P] and whose result, when it
    returns, satisfies [Q]. *)
Definition hoare {A : Type} (P : Event -> Prop) (Q : A -> Prop) (m : M A) : Prop :=
  forall e w, exists evs,
    trace (m e w).2 = trace w ++ evs /\ Forall P evs /\
    match (m e w).1 with Ok a => Q a | _ => True end.

Definition is_SealStatus (ev : Event) : bool :=
  match ev with EvSealStatus => true | _ => false end.

(** The number of seal-status queries in a history. *)
Definition seal_queries (h : list Event) : nat := length (List.filter is_SealStatus h).

Definition is_rpc (ev : Event) : bool :=
  match ev with EvLogical _ _ => true | _ => false end.

(** The number of calls on [c.Logical()] in a history. *)
Definition rpc_count (h : list Event) : nat := length (List.filter is_rpc h).

(** ** Payload encoding *)

(** [digs] spells [u] in decimal, as the loop of [ParseUint] reads it: from
    any value [n] the digits lead to [n * 10^k + u]. *)
Definition spells (digs : list ascii) (u : Z) : Prop :=
  exists k : nat, forall n rest,
    0 <= n -> n * 10 ^ Z.of_nat k + u <= Int.maxUint64 ->
    strconv.parseUint_loop (digs ++ rest) n
    = strconv.parseUint_loop rest (n * 10 ^ Z.of_nat k + u).

Definition in_alphabet (c : ascii) : bool := negb (base64.decodeMap c =? 255).

(** The input without its carriage returns and line feeds. *)
Definition strip (l : list ascii) : list ascii :=
  List.filter (fun c => negb (base64.is_newline c)) l.

Definition is_nil {A : Type} (l : list A) : bool :=
  match l with [] => true | _ => false end.

(** Padded base64 text (RFC 4648, section 5): groups of four characters of
    the URL alphabet, the last of which may end in one or two ['=']. *)
Fixpoint wf_quanta (l : list ascii) : bool :=
  match l with
  | [] => true
  | a :: b :: c :: d :: rest =>
      in_alphabet a && in_alphabet b &&
      (if in_alphabet c then
         if in_alphabet d then wf_quanta rest
         else Ascii.eqb d base64.padChar && is_nil rest
       else Ascii.eqb c base64.padChar && Ascii.eqb d base64.padChar && is_nil rest)
  | _ => false
  end.

(** Valid base64 as Go's lenient decoder takes it: line breaks are ignored
    and the unused bits of a padded group are not checked. *)
Definition is_base64url (s : string) : bool :=
  wf_quanta (strip (list_ascii_of_string s)).

(** The same text read one character at a time, [j] characters into the
    current group. *)
Fixpoint wf_from (j : nat) (l : list ascii) : bool :=
  match l with
  | [] => (j =? 0)%nat
  | c :: rest =>
      if in_alphabet c then wf_from (if (j =? 3)%nat then 0 else S j) rest
      else if Ascii.eqb c base64.padChar then
        match j with
        | 2%nat => match rest with [c2] => Ascii.eqb c2 base64.padChar | _ => false end
        | 3%nat => is_nil rest
        | _ => false
        end
      else false
  end.

Definition is_VString (x : value) : bool :=
  match x with VString _ => true | _ => false end.

Definition is_VList (x : value) : bool :=
  match x with VList _ => true | _ => false end.

(** ** The readiness gate *)

(** The events of one attempt of [New] that finds no status. *)
Definition poll_round (retry attempts i : Z) : list Event :=
  [EvNewClient; EvSealStatus; EvLog (client.sleeping_msg retry i attempts);
   EvSleep (time.seconds retry)].

(** [k] such attempts, numbered from [i]. *)
Fixpoint poll_rounds (retry attempts i : Z) (k : nat) : list Event :=
  match k with
  | O => []
  | S k' => poll_round retry attempts i ++ poll_rounds retry attempts (i + 1) k'
  end.

Definition sealed_reply : option hvault.SealStatusResponse * option error :=
  (Some {| hvault.Sealed := true |}, None).

Definition unsealed_reply : option hvault.SealStatusResponse * option error :=
  (Some {| hvault.Sealed := false |}, None).

(** ** The credential providers *)

Definition unwrap_request : hvault.Request := hvault.Write "sys/wrapping/unwrap" NilData.
Definition renew_request : hvault.Request := hvault.Write "auth/token/renew-self" NilData.
Definition token_renew_request : hvault.Request :=
  hvault.Write "/auth/token/renew-self" NilData.
Definition lookup_request : hvault.Request := hvault.Read "/auth/token/lookup-self".

(** The body [new] posts: [role_id] and [secret_id]. *)
Definition login_data (role_id secret_id : string) : Data :=
  MkData (<["secret_id" := VString secret_id]> (<["role_id" := VString role_id]> ∅)).

Definition login_request (ar : approle.AppRole) : hvault.Request :=
  hvault.Write (approle.path ar +:+ "/login")
    (login_data (approle.role_id ar) (approle.secret_id ar)).

(** The struct after [setexpiry] has read the clock at [now], when [ar.auth]
    held [a]. *)
Definition expiry_set (ar : approle.AppRole) (a : hvault.SecretAuth) (now : time.Time)
  : approle.AppRole :=
  let lease := approle.margin (hvault.LeaseDuration a) in
  approle.set_expires
    (approle.set_auth ar (Some {| hvault.ClientToken := hvault.ClientToken a;
                                  hvault.LeaseDuration := lease |}))
    (time.Add now (time.seconds lease)).

(** [new(hvault.SecretAuth)]. *)
Definition empty_auth : hvault.SecretAuth :=
  {| hvault.ClientToken := ""; hvault.LeaseDuration := 0 |}.

(** The struct after a successful [unwrap]. *)
Definition unwrapped (ar : approle.AppRole) (sid : string) (ttl : Z) (now : time.Time)
  : approle.AppRole :=
  expiry_set (approle.SetSecretID (approle.set_auth ar (Some empty_auth)) sid)
    {| hvault.ClientToken := ""; hvault.LeaseDuration := ttl |} now.

(** The lease after the safety margin, as P5 words it. *)
Definition lease_with_margin (L : Z) : Z := if 20 <? L then L - 10 else L.

(** The leases whose count of nanoseconds fits a [time.Duration]. *)
Definition fits_Duration (L : Z) : Prop := -9223372036 <= L <= 9223372036.

Definition is_unwrap_request (ev : Event) : bool :=
  match ev with
  | EvLogical _ (hvault.Write p _) => String.eqb p "sys/wrapping/unwrap"
  | _ => false
  end.

Definition no_unwrap (ev : Event) : Prop := is_unwrap_request ev = false.

Fixpoint last_char (s : string) : option ascii :=
  match s with
  | EmptyString => None
  | String c EmptyString => Some c
  | String _ s' => last_char s'
  end.

(** Every request that carries a body (the login of [new] is the only one)
    carries a non-empty [secret_id]. *)
Definition posts_secret (ev : Event) : Prop :=
  match ev with
  | EvLogical _ (hvault.Write _ d) => d = NilData \/ GetString d "secret_id" <> ""
  | _ => True
  end.

Definition missing_secret_id : error :=
  errorString "gettoken: missing 'secret_id' to get a valid token from Vault".

(** [n] callers that have called [GetToken] on one provider.  The mutex is
    taken on entry and released on return, so the calls run one after the
    other, in the order in which the callers acquire it. *)
Fixpoint serialized {A : Type} `{Auth A} (n : nat) (a : A)
  : M (list (string * option error) * A) :=
  match n with
  | O => mret ([], a)
  | S n' =>
      '(r, a') ← Auth_GetToken a;
      '(rs, a'') ← serialized n' a';
      mret (r :: rs, a'')
  end.

(** ** Concrete worlds, used where a statement is run *)

Definition start : World := {| client_token := ""; trace := [] |}.

Definition auth_reply (tok : string) (lease : Z) : option hvault.Secret * option error :=
  (Some {| hvault.Data := NilData;
           hvault.Auth := Some {| hvault.ClientToken := tok;
                                  hvault.LeaseDuration := lease |} |},
   None).

(** A remote that grants every request a token ["t1"] with a lease of one
    hour, at a clock that stands at [200]. *)
Definition granting : Env :=
  {| env_Now := fun _ => 200;
     env_Getenv := fun key =>
       if String.eqb key hvault.EnvVaultAddress then "https://vault:8200" else "";
     env_NewClient := fun _ => None;
     env_SealStatus := fun _ => unsealed_reply;
     env_Logical := fun _ _ _ => auth_reply "t1" 3600;
     env_ReadFile := fun _ _ => ("", None) |}.

Definition with_SealStatus
    (f : list Event -> option hvault.SealStatusResponse * option error) (e : Env) : Env :=
  {| env_Now := env_Now e; env_Getenv := env_Getenv e; env_NewClient := env_NewClient e;
     env_SealStatus := f; env_Logical := env_Logical e; env_ReadFile := env_ReadFile e |}.

Definition with_Logical
    (f : list Event -> string -> hvault.Request -> option hvault.Secret * option error)
    (e : Env) : Env :=
  {| env_Now := env_Now e; env_Getenv := env_Getenv e; env_NewClient := env_NewClient e;
     env_SealStatus := env_SealStatus e; env_Logical := f; env_ReadFile := env_ReadFile e |}.

Definition with_Now (f : list Event -> time.Time) (e : Env) : Env :=
  {| env_Now := f; env_Getenv := env_Getenv e; env_NewClient := env_NewClient e;
     env_SealStatus := env_SealStatus e; env_Logical := env_Logical e;
     env_ReadFile := env_ReadFile e |}.

(** The service is sealed. *)
Definition sealed_service : Env := with_SealStatus (fun _ => sealed_reply) granting.

(** The service never reports a status. *)
Definition silent_service : Env := with_SealStatus (fun _ => (None, None)) granting.

(** The service reports its status, unsealed, at the third query. *)
Definition slow_service : Env :=
  with_SealStatus
    (fun h => if (seal_queries h <? 2)%nat then (None, None) else unsealed_reply) granting.

(** An [AppRole] with a secret and no role identifier. *)
Definition no_role_id : approle.AppRole :=
  approle.SetSecretID (approle.NewAppRole approle.AppRolePath "app" "") "s3cr3t".

(** An [AppRole] with a role identifier and a secret. *)
Definition configured : approle.AppRole :=
  approle.SetSecretID (approle.NewAppRole approle.AppRolePath "app" "role") "s3cr3t".

(** An [AppRole] whose token ["t0"] expired at [100]. *)
Definition expired_role : approle.AppRole :=
  approle.set_expires
    (approle.set_auth configured
       (Some {| hvault.ClientToken := "t0"; hvault.LeaseDuration := 50 |})) 100.

(** An [AppRole] that is to unwrap its secret. *)
Definition wrapped : approle.AppRole := approle.SetUnwrapToken configured "wrap".

Definition unwrap_data : Data :=
  MkData (<["secret_id" := VString "sid"]> (<["secret_id_ttl" := VNumber "600"]> ∅)).

(** A remote that unwraps to [unwrap_data] and grants every login. *)
Definition unwrapping : Env :=
  with_Logical
    (fun _ _ req =>
       match req with
       | hvault.Write _ NilData =>
           (Some {| hvault.Data := unwrap_data; hvault.Auth := None |}, None)
       | _ => auth_reply "t1" 3600
       end) granting.

(** A remote that grants tokens and holds no secret at any path. *)
Definition empty_store : Env :=
  with_Logical
    (fun _ _ req =>
       match req with
       | hvault.Read _ => (None, None)
       | _ => auth_reply "t1" 3600
       end) granting.

(** A remote that grants tokens and lists an envelope without ["keys"]. *)
Definition odd_listing : Env :=
  with_Logical
    (fun _ _ req =>
       match req with
       | hvault.List _ => (Some {| hvault.Data := NewData; hvault.Auth := None |}, None)
       | _ => auth_reply "t1" 3600
       end) granting.

Definition kv : client.Client approle.AppRole :=
  {| client.store := "kv"; client.attempts := 12; client.retry := 5;
     client.auth := configured |}.

(** A [Token] whose expiry, [100], is known and has passed. *)
Definition stale : token.Token :=
  {| token.token := "t0"; token.token_file := ""; token.expires := 100 |}.

Definition root_lookup : Data := MkData (<["creation_ttl" := VNumber "100"]> ∅).

(** A remote that answers the self-introspection of a token without
    [expire_time]; the clock stands at noon of 2026-01-01. *)
Definition introspecting : Env :=
  with_Now (fun _ => 63902865600 * time.Second)
    (with_Logical
       (fun _ _ _ => (Some {| hvault.Data := root_lookup; hvault.Auth := None |}, None))
       granting).
(** ** More of the payload record *)

(** What a caller can store in a field: one case for each setter. *)
Inductive payload : Type :=
| PString (s : string)
| PBool (b : bool)
| PUint64 (n : Z)
| PBytes (s : list byte).

(** The setter of each kind of payload. *)
Definition Set_payload (d : Data) (field : string) (p : payload) : Res Data :=
  match p with
  | PString s => SetString d field s
  | PBool b => SetBool d field b
  | PUint64 n => SetUint64 d field n
  | PBytes s => SetBytes d field s
  end.

(** The text a field holds after the setter has run. *)
Definition payload_text (p : payload) : string :=
  match p with
  | PString s => s
  | PBool b => strconv.FormatBool b
  | PUint64 n => strconv.FormatUint n
  | PBytes s => base64.EncodeToString s
  end.

(** Every reader answers the same on [g] in [d'] as in [d]. *)
Definition same_reads (d d' : Data) (g : string) : Prop :=
  Exist d' g = Exist d g /\ GetString d' g = GetString d g
  /\ GetBool d' g = GetBool d g /\ GetUint64 d' g = GetUint64 d g
  /\ GetBytes d' g = GetBytes d g.

(** The number a run of decimal digits denotes, read after the value [n];
    [None] when a character is not a decimal digit. *)
Fixpoint decimal (cs : list ascii) (n : Z) : option Z :=
  match cs with
  | [] => Some n
  | c :: cs' =>
      match strconv.digit_value c with
      | Some d => decimal cs' (n * 10 + d)
      | None => None
      end
  end.

(** The texts that read as [true]. *)
Definition true_spellings : list string := ["1"; "t"; "T"; "TRUE"; "true"; "True"].

Definition is_VNumber (x : value) : bool :=
  match x with VNumber _ => true | _ => false end.

Definition is_VNil (x : value) : bool :=
  match x with VNil => true | _ => false end.

(** ** The messages of the panics *)

Definition nil_deref : string := "invalid memory address or nil pointer dereference".
Definition nil_map : string := "assignment to entry in nil map".
Definition not_Number : string := "interface conversion: interface {} is not json.Number".
Definition not_string : string := "interface conversion: interface {} is not string".

(** ** The wait for an unsealed service *)

Definition sealed_line : Event := EvLog "vault is sealed, waiting for it to be unsealed".

(** The events of one turn of the second loop of [New]. *)
Definition wait_round (retry : Z) : list Event :=
  [sealed_line; EvSealStatus; EvSleep (time.seconds retry)].

(** [k] such turns. *)
Fixpoint wait_rounds (retry : Z) (k : nat) : list Event :=
  match k with
  | O => []
  | S k' => wait_round retry ++ wait_rounds retry k'
  end.

(** The world of [New] after the events [evs]: each attempt builds a new
    client, which carries the token of the process environment. *)
Definition connected (e : Env) (w : World) (evs : list Event) : World :=
  set_token (env_Getenv e hvault.EnvVaultToken) (with_trace w evs).

Definition sealed_status : hvault.SealStatusResponse := {| hvault.Sealed := true |}.

(** ** More concrete worlds *)

Definition with_NewClient (f : list Event -> option error) (e : Env) : Env :=
  {| env_Now := env_Now e; env_Getenv := env_Getenv e; env_NewClient := f;
     env_SealStatus := env_SealStatus e; env_Logical := env_Logical e;
     env_ReadFile := env_ReadFile e |}.

Definition with_ReadFile (f : list Event -> string -> string * option error) (e : Env)
  : Env :=
  {| env_Now := env_Now e; env_Getenv := env_Getenv e; env_NewClient := env_NewClient e;
     env_SealStatus := env_SealStatus e; env_Logical := env_Logical e;
     env_ReadFile := f |}.

(** The process environment holds no variable. *)
Definition no_address : Env :=
  {| env_Now := env_Now granting; env_Getenv := fun _ => "";
     env_NewClient := env_NewClient granting; env_SealStatus := env_SealStatus granting;
     env_Logical := env_Logical granting; env_ReadFile := env_ReadFile granting |}.

(** The seal-status query fails. *)
Definition unreachable : Env :=
  with_SealStatus (fun _ => (None, Some (errorString "connection refused"))) granting.

(** No client can be built. *)
Definition misconfigured : Env :=
  with_NewClient (fun _ => Some (errorString "invalid address")) granting.

(** The service is sealed at the first two queries and unsealed from the
    third on. *)
Definition unsealing : Env :=
  with_SealStatus
    (fun h => if (seal_queries h <? 2)%nat then sealed_reply else unsealed_reply) granting.

(** A client whose provider has no secret. *)
Definition kv_no_secret : client.Client approle.AppRole :=
  {| client.store := "kv"; client.attempts := 12; client.retry := 5;
     client.auth := approle.NewAppRole approle.AppRolePath "app" "role" |}.

Definition credentials : Data :=
  MkData (<["password" := VString "hunter2"]> (<["note" := VString ""]> ∅)).

(** A remote that grants tokens and holds [credentials] at every path. *)
Definition holding : Env :=
  with_Logical
    (fun _ _ req =>
       match req with
       | hvault.Read _ => (Some {| hvault.Data := credentials; hvault.Auth := None |}, None)
       | _ => auth_reply "t1" 3600
       end) granting.

(** A remote that grants tokens and has nothing to list. *)
Definition no_listing : Env :=
  with_Logical
    (fun _ _ req =>
       match req with
       | hvault.List _ => (None, None)
       | _ => auth_reply "t1" 3600
       end) granting.

(** A remote that refuses every request without a body (renew-self, unwrap)
    and grants every login. *)
Definition refusing_renewal : Env :=
  with_Logical
    (fun _ _ req =>
       match req with
       | hvault.Write _ NilData => (None, Some (errorString "permission denied"))
       | _ => auth_reply "t1" 3600
       end) granting.

(** A remote that answers every request with neither a secret nor an
    error. *)
Definition mute : Env := with_Logical (fun _ _ _ => (None, None)) granting.

(** A token file that holds the token and a line feed. *)
Definition token_on_disk : Env :=
  with_ReadFile (fun _ _ => ("s.Zm9v" +:+ String "010" "", None)) granting.

Definition leased_lookup : Data :=
  MkData (<["expire_time" := VString "2026-01-01T12:00:00.000000000Z"]>
            (<["creation_ttl" := VNumber "3600"]> ∅)).

(** A remote that answers the self-introspection of a token with a lifetime
    of one hour and an [expire_time]. *)
Definition introspecting_leased : Env :=
  with_Logical
    (fun _ _ _ => (Some {| hvault.Data := leased_lookup; hvault.Auth := None |}, None))
    granting.

(** A [Token] whose expiry, [1000], is known and lies ahead of the clock of
    [granting]. *)
Definition fresh : token.Token :=
  {| token.token := "t0"; token.token_file := ""; token.expires := 1000 |}.


(* ===================================================================== *)
(** * Decimal text: [ParseUint] reads what [FormatUint] writes *)
(* ===================================================================== *)

Lemma digit_value_char d :
  0 <= d < 10 -> strconv.digit_value (strconv.digit_char d) = Some d.
Proof.
  intros Hd.
  assert (d = 0 \/ d = 1 \/ d = 2 \/ d = 3 \/ d = 4 \/ d = 5 \/ d = 6 \/ d = 7
          \/ d = 8 \/ d = 9) as Hcases by lia.
  repeat (destruct Hcases as [-> | Hcases]; [reflexivity |]).
  subst d. reflexivity.
Qed.

(** One digit read by the loop, when the number it extends still fits. *)
Lemma parseUint_digit d rest n :
  0 <= d < 10 -> 0 <= n -> n * 10 + d <= Int.maxUint64 ->
  strconv.parseUint_loop (strconv.digit_char d :: rest) n
  = strconv.parseUint_loop rest (n * 10 + d).
Proof.
  intros Hd Hn Hmax. cbn [strconv.parseUint_loop].
  rewrite digit_value_char by assumption.
  unfold strconv.cutoff10, Int.wrap_uint64, Int.maxUint64 in *.
  change (2 ^ 64 - 1) with 18446744073709551615 in *.
  change (18446744073709551615 / 10 + 1) with 1844674407370955162.
  destruct (Z.leb_spec 1844674407370955162 n); [lia |].
  cbv zeta.
  rewrite (Z.mod_small (n * 10 + d))
    by (change (2 ^ 64) with 18446744073709551616; lia).
  destruct (Z.ltb_spec (n * 10 + d) (n * 10)); [lia |].
  destruct (Z.ltb_spec 18446744073709551615 (n * 10 + d)); [lia |].
  reflexivity.
Qed.

Lemma formatBits_S fuel u acc :
  strconv.formatBits (S fuel) u acc
  = if u <? 10 then String (strconv.digit_char (u mod 10)) acc
    else strconv.formatBits fuel (u / 10) (String (strconv.digit_char (u mod 10)) acc).
Proof. reflexivity. Qed.

Lemma spells_digit u : 0 <= u < 10 -> spells [strconv.digit_char (u mod 10)] u.
Proof.
  intros Hu. exists 1%nat. intros n rest Hn Hmax.
  change (10 ^ Z.of_nat 1) with 10 in *. cbn [app].
  rewrite Z.mod_small by lia. apply parseUint_digit; lia.
Qed.

(** With enough fuel [formatBits] puts before [acc] a non-empty run of
    digits that spells [u]. *)
Lemma formatBits_spells fuel : forall u acc,
  0 <= u < 10 ^ Z.of_nat (S fuel) ->
  exists digs, digs <> [] /\
    list_ascii_of_string (strconv.formatBits (S fuel) u acc)
    = digs ++ list_ascii_of_string acc /\ spells digs u.
Proof.
  induction fuel as [| fuel IH]; intros u acc Hu.
  - change (10 ^ Z.of_nat 1) with 10 in Hu.
    exists [strconv.digit_char (u mod 10)].
    split; [discriminate |]. split; [| apply spells_digit, Hu].
    cbn [strconv.formatBits]. destruct (u <? 10); reflexivity.
  - rewrite formatBits_S. destruct (Z.ltb_spec u 10) as [Hlt | Hge].
    + exists [strconv.digit_char (u mod 10)].
      split; [discriminate |]. split; [reflexivity | apply spells_digit; lia].
    + assert (Hdiv : 0 <= u / 10 < 10 ^ Z.of_nat (S fuel)).
      { rewrite (Nat2Z.inj_succ (S fuel)), Z.pow_succ_r in Hu by lia.
        split; [apply Z.div_pos; lia | apply Z.div_lt_upper_bound; lia]. }
      destruct (IH (u / 10) (String (strconv.digit_char (u mod 10)) acc) Hdiv)
        as (digs & Hne & Heq & k & Hk).
      exists (digs ++ [strconv.digit_char (u mod 10)]).
      split; [destruct digs; discriminate |]. split.
      * rewrite Heq. cbn [list_ascii_of_string]. rewrite <- app_assoc. reflexivity.
      * exists (S k). intros n rest Hn Hmax.
        rewrite Nat2Z.inj_succ, Z.pow_succ_r in * by lia.
        pose proof (Z.mod_pos_bound u 10 ltac:(lia)) as Hm.
        pose proof (Z.div_mod u 10 ltac:(lia)) as Hdm.
        assert (0 <= 10 ^ Z.of_nat k) by (apply Z.pow_nonneg; lia).
        rewrite <- app_assoc. rewrite Hk by nia.
        cbn [app]. rewrite parseUint_digit by nia.
        f_equal. nia.
Qed.

Lemma ParseUint_FormatUint n :
  0 <= n <= Int.maxUint64 -> strconv.ParseUint (strconv.FormatUint n) = (n, None).
Proof.
  intros Hn. unfold strconv.FormatUint.
  destruct (formatBits_spells 19 n "") as (digs & Hne & Heq & k & Hk).
  { unfold Int.maxUint64 in Hn. change (2 ^ 64 - 1) with 18446744073709551615 in Hn.
    change (10 ^ Z.of_nat 20) with 100000000000000000000. lia. }
  unfold strconv.ParseUint.
  destruct (strconv.formatBits 20 n "") as [| c s] eqn:E.
  - destruct digs; [congruence | discriminate].
  - rewrite Heq. specialize (Hk 0 [] ltac:(lia) ltac:(lia)).
    cbn [list_ascii_of_string]. rewrite Hk. reflexivity.
Qed.

(* ===================================================================== *)
(** * Base64: [DecodeString] reads what [EncodeToString] writes *)
(* ===================================================================== *)

Lemma land_shiftl_low a b n :
  0 <= n -> 0 <= b < 2 ^ n -> Z.land (Z.shiftl a n) b = 0.
Proof.
  intros Hn Hb. apply Z.bits_inj'. intros m Hm.
  rewrite Z.land_spec, Z.bits_0.
  destruct (Z.lt_ge_cases m n) as [Hlt | Hge].
  - rewrite Z.shiftl_spec_low by lia. reflexivity.
  - rewrite andb_false_iff. right.
    destruct (Z.eq_dec b 0) as [-> | Hb0]; [apply Z.bits_0 |].
    apply Z.bits_above_log2; [lia |].
    apply Z.lt_le_trans with n; [| lia].
    apply Z.log2_lt_pow2; lia.
Qed.

(** Bits that do not overlap add up. *)
Lemma lor_shiftl_add a b n :
  0 <= n -> 0 <= b < 2 ^ n -> Z.lor (Z.shiftl a n) b = a * 2 ^ n + b.
Proof.
  intros Hn Hb.
  rewrite <- (Z.shiftl_mul_pow2 a n) by lia.
  rewrite <- Z.add_lor_land, land_shiftl_low by lia. lia.
Qed.

Lemma land_63 x : Z.land x 63 = x mod 64.
Proof. change 63 with (Z.ones 6). rewrite Z.land_ones by lia. reflexivity. Qed.

Lemma land63_range x : 0 <= Z.land x 63 < 64.
Proof. rewrite land_63. apply Z.mod_pos_bound. lia. Qed.

Lemma sextet_div v k : 0 <= k -> Z.land (Z.shiftr v k) 63 = (v / 2 ^ k) mod 64.
Proof. intros Hk. rewrite land_63, Z.shiftr_div_pow2 by lia. reflexivity. Qed.

Lemma byte_to_Z_range b : 0 <= base64.byte_to_Z b < 256.
Proof. unfold base64.byte_to_Z. pose proof (Byte.to_N_bounded b). lia. Qed.

Lemma byte_of_to_Z v b : v mod 256 = base64.byte_to_Z b -> base64.byte_of_Z v = b.
Proof.
  intros E. unfold base64.byte_of_Z. rewrite E. unfold base64.byte_to_Z.
  rewrite N2Z.id, Byte.of_to_N. reflexivity.
Qed.

Lemma pack_sextets s0 s1 s2 s3 :
  0 <= s0 < 64 -> 0 <= s1 < 64 -> 0 <= s2 < 64 -> 0 <= s3 < 64 ->
  Z.lor (Z.shiftl s0 18) (Z.lor (Z.shiftl s1 12) (Z.lor (Z.shiftl s2 6) s3))
  = s0 * 262144 + s1 * 4096 + s2 * 64 + s3.
Proof.
  intros H0 H1 H2 H3.
  rewrite (lor_shiftl_add s2 s3 6) by lia.
  rewrite (lor_shiftl_add s1 _ 12) by lia.
  rewrite (lor_shiftl_add s0 _ 18) by lia.
  lia.
Qed.

Lemma pack_bytes a b c :
  0 <= a < 256 -> 0 <= b < 256 -> 0 <= c < 256 ->
  Z.lor (Z.shiftl a 16) (Z.lor (Z.shiftl b 8) c) = a * 65536 + b * 256 + c.
Proof.
  intros Ha Hb Hc.
  rewrite (lor_shiftl_add b c 8) by lia.
  rewrite (lor_shiftl_add a _ 16) by lia.
  lia.
Qed.

(** The arithmetic the three quantum lemmas end with. *)
Ltac divmod_256 Hval :=
  apply byte_of_to_Z; rewrite Hval;
  change (2 ^ 16) with 65536; change (2 ^ 8) with 256;
  Z.div_mod_to_equations; lia.

(** A full quantum: four sextets of three bytes give the bytes back. *)
Lemma quantum_bytes_4 a b c :
  let val := Z.lor (Z.shiftl (base64.byte_to_Z a) 16)
               (Z.lor (Z.shiftl (base64.byte_to_Z b) 8) (base64.byte_to_Z c)) in
  base64.quantum_bytes
    [Z.land (Z.shiftr val 18) 63; Z.land (Z.shiftr val 12) 63;
     Z.land (Z.shiftr val 6) 63; Z.land val 63] = [a; b; c].
Proof.
  intros val.
  pose proof (byte_to_Z_range a) as Ha.
  pose proof (byte_to_Z_range b) as Hb.
  pose proof (byte_to_Z_range c) as Hc.
  assert (Hval : val = base64.byte_to_Z a * 65536 + base64.byte_to_Z b * 256
                       + base64.byte_to_Z c) by (apply pack_bytes; assumption).
  unfold base64.quantum_bytes. cbn [nth length Nat.sub take].
  rewrite pack_sextets by apply land63_range.
  rewrite !sextet_div, land_63 by lia.
  set (A := base64.byte_to_Z a) in *. set (B := base64.byte_to_Z b) in *.
  set (C := base64.byte_to_Z c) in *.
  assert (E : val / 2 ^ 18 mod 64 * 262144 + val / 2 ^ 12 mod 64 * 4096
              + val / 2 ^ 6 mod 64 * 64 + val mod 64 = val).
  { rewrite Hval. change (2 ^ 18) with 262144. change (2 ^ 12) with 4096.
    change (2 ^ 6) with 64. Z.div_mod_to_equations. lia. }
  rewrite E. rewrite !Z.shiftr_div_pow2 by lia.
  f_equal; [| f_equal; [| f_equal]]; divmod_256 Hval.
Qed.

(** A final quantum of two bytes. *)
Lemma quantum_bytes_3 a b :
  let val := Z.lor (Z.shiftl (base64.byte_to_Z a) 16) (Z.shiftl (base64.byte_to_Z b) 8) in
  base64.quantum_bytes
    [Z.land (Z.shiftr val 18) 63; Z.land (Z.shiftr val 12) 63;
     Z.land (Z.shiftr val 6) 63] = [a; b].
Proof.
  intros val.
  pose proof (byte_to_Z_range a) as Ha.
  pose proof (byte_to_Z_range b) as Hb.
  assert (Hval : val = base64.byte_to_Z a * 65536 + base64.byte_to_Z b * 256).
  { unfold val. rewrite <- (Z.lor_0_r (Z.shiftl (base64.byte_to_Z b) 8)).
    rewrite pack_bytes by lia. lia. }
  unfold base64.quantum_bytes. cbn [nth length Nat.sub take].
  rewrite pack_sextets by (try apply land63_range; lia).
  rewrite !sextet_div by lia.
  set (A := base64.byte_to_Z a) in *. set (B := base64.byte_to_Z b) in *.
  assert (E : val / 2 ^ 18 mod 64 * 262144 + val / 2 ^ 12 mod 64 * 4096
              + val / 2 ^ 6 mod 64 * 64 + 0 = val).
  { rewrite Hval. change (2 ^ 18) with 262144. change (2 ^ 12) with 4096.
    change (2 ^ 6) with 64. Z.div_mod_to_equations. lia. }
  rewrite E. rewrite !Z.shiftr_div_pow2 by lia.
  f_equal; [| f_equal]; divmod_256 Hval.
Qed.

(** A final quantum of one byte. *)
Lemma quantum_bytes_2 a :
  let val := Z.shiftl (base64.byte_to_Z a) 16 in
  base64.quantum_bytes
    [Z.land (Z.shiftr val 18) 63; Z.land (Z.shiftr val 12) 63] = [a].
Proof.
  intros val.
  pose proof (byte_to_Z_range a) as Ha.
  assert (Hval : val = base64.byte_to_Z a * 65536).
  { unfold val. rewrite Z.shiftl_mul_pow2 by lia. reflexivity. }
  unfold base64.quantum_bytes. cbn [nth length Nat.sub take].
  rewrite pack_sextets by (try apply land63_range; lia).
  rewrite !sextet_div by lia.
  set (A := base64.byte_to_Z a) in *.
  assert (E : val / 2 ^ 18 mod 64 * 262144 + val / 2 ^ 12 mod 64 * 4096
              + 0 * 64 + 0 = val).
  { rewrite Hval. change (2 ^ 18) with 262144. change (2 ^ 12) with 4096.
    Z.div_mod_to_equations. lia. }
  rewrite E. rewrite !Z.shiftr_div_pow2 by lia.
  f_equal. divmod_256 Hval.
Qed.

(** The decoding table inverts the alphabet. *)
Lemma decodeMap_encode i : 0 <= i < 64 -> base64.decodeMap (base64.encode i) = i.
Proof.
  intros Hi.
  assert (H : forallb (fun n => base64.decodeMap (base64.encode (Z.of_nat n)) =? Z.of_nat n)
                (seq 0 64) = true) by (vm_compute; reflexivity).
  rewrite forallb_forall in H.
  specialize (H (Z.to_nat i)). rewrite Z2Nat.id in H by lia.
  apply Z.eqb_eq, H, in_seq. lia.
Qed.

Lemma decodeMap_pad : base64.decodeMap base64.padChar = 255.
Proof. reflexivity. Qed.

(** The loop on a character of the alphabet. *)
Lemma decode_sextet c rest si q out v :
  base64.decodeMap c = v -> 0 <= v < 64 ->
  base64.decode_loop (c :: rest) si q out =
    if (length q =? 3)%nat
    then base64.decode_loop rest (si + 1) [] (out ++ base64.quantum_bytes (q ++ [v]))
    else base64.decode_loop rest (si + 1) (q ++ [v]) out.
Proof.
  intros E Hv. cbn [base64.decode_loop]. rewrite E.
  replace (v =? 255) with false by (symmetry; apply Z.eqb_neq; lia).
  reflexivity.
Qed.

Lemma decode_encoded x rest si q out :
  base64.decode_loop (base64.encode (Z.land x 63) :: rest) si q out =
    if (length q =? 3)%nat
    then base64.decode_loop rest (si + 1) []
           (out ++ base64.quantum_bytes (q ++ [Z.land x 63]))
    else base64.decode_loop rest (si + 1) (q ++ [Z.land x 63]) out.
Proof.
  apply decode_sextet; [apply decodeMap_encode |]; apply land63_range.
Qed.

Ltac decode_quantum :=
  cbn [base64.Encode];
  repeat (rewrite decode_encoded; cbn [length Nat.eqb app]).

Lemma decode_encode_loop s : forall si out,
  base64.decode_loop (base64.Encode s) si [] out = (out ++ s, None).
Proof.
  induction s as [s IH] using (induction_ltof1 _ (@length byte)). unfold ltof in IH.
  intros si out.
  destruct s as [| a [| b [| c rest]]].
  - cbn. rewrite app_nil_r. reflexivity.
  - decode_quantum.
    cbn [base64.decode_loop]. rewrite decodeMap_pad.
    cbn -[base64.quantum_bytes Z.shiftl Z.shiftr Z.land].
    rewrite quantum_bytes_2. reflexivity.
  - decode_quantum.
    cbn [base64.decode_loop]. rewrite decodeMap_pad.
    cbn -[base64.quantum_bytes Z.shiftl Z.shiftr Z.land Z.lor].
    rewrite quantum_bytes_3. reflexivity.
  - decode_quantum.
    rewrite quantum_bytes_4.
    rewrite IH by (cbn; lia).
    rewrite <- app_assoc. reflexivity.
Qed.

Lemma DecodeString_EncodeToString s :
  base64.DecodeString (base64.EncodeToString s) = (s, None).
Proof.
  unfold base64.DecodeString, base64.EncodeToString.
  rewrite list_ascii_of_string_of_list_ascii. apply decode_encode_loop.
Qed.

Lemma EncodeToString_nonempty s : s <> [] -> base64.EncodeToString s <> "".
Proof.
  intros Hs. unfold base64.EncodeToString.
  destruct s as [| a [| b [| c rest]]]; [congruence | discriminate ..].
Qed.

(** ** Which text the decoder accepts *)

Lemma newline_not_in_alphabet c : base64.is_newline c = true -> in_alphabet c = false.
Proof.
  unfold base64.is_newline. rewrite orb_true_iff, !Ascii.eqb_eq.
  intros [-> | ->]; reflexivity.
Qed.

Lemma skip_newlines_strip l : forall si,
  strip l = strip (fst (base64.skip_newlines l si)) /\
  match fst (base64.skip_newlines l si) with
  | [] => True
  | c :: _ => base64.is_newline c = false
  end.
Proof.
  induction l as [| c l IH]; intros si; cbn [base64.skip_newlines].
  - split; [reflexivity | exact I].
  - destruct (base64.is_newline c) eqn:E.
    + destruct (IH (si + 1)) as [IH1 IH2]. split; [| exact IH2].
      cbn [strip List.filter]. rewrite E. exact IH1.
    + split; [reflexivity | exact E].
Qed.

Lemma after_padding_ok rest si out :
  snd (base64.after_padding rest si out) = None <-> strip rest = [].
Proof.
  unfold base64.after_padding.
  destruct (skip_newlines_strip rest si) as [H1 H2].
  destruct (base64.skip_newlines rest si) as [[| c l] si']; cbn [fst snd] in *.
  - rewrite H1. split; reflexivity.
  - rewrite H1. cbn [strip List.filter]. rewrite H2. cbn. split; discriminate.
Qed.

Lemma is_nil_true {A : Type} (l : list A) : is_nil l = true <-> l = [].
Proof. destruct l; cbn; split; congruence. Qed.

(** The loop ends without error exactly on the text [wf_from] accepts. *)
Lemma decode_loop_wf src : forall si q out,
  (length q <= 3)%nat ->
  snd (base64.decode_loop src si q out) = None <-> wf_from (length q) (strip src) = true.
Proof.
  induction src as [| c rest IH]; intros si q out Hq.
  - cbn. destruct q; cbn; split; congruence.
  - cbn [base64.decode_loop]. cbv zeta.
    destruct (negb (base64.decodeMap c =? 255)) eqn:Ealpha.
    + assert (En : base64.is_newline c = false).
      { destruct (base64.is_newline c) eqn:En; [| reflexivity].
        apply newline_not_in_alphabet in En. unfold in_alphabet in En. congruence. }
      cbn [strip List.filter]. rewrite En. cbn [negb wf_from].
      unfold in_alphabet at 1. rewrite Ealpha.
      destruct (length q =? 3)%nat eqn:E3.
      * apply (IH (si + 1) [] _). cbn. lia.
      * assert (length q <> 3)%nat by (apply Nat.eqb_neq; exact E3).
        rewrite (IH (si + 1) (q ++ [base64.decodeMap c]) out)
          by (rewrite length_app; cbn; lia).
        rewrite length_app. cbn [length].
        replace (length q + 1)%nat with (S (length q)) by lia.
        reflexivity.
    + destruct (base64.is_newline c) eqn:En.
      * cbn [strip List.filter]. rewrite En. cbn [negb]. apply IH. exact Hq.
      * cbn [strip List.filter]. rewrite En. cbn [negb wf_from].
        unfold in_alphabet at 1. rewrite Ealpha.
        destruct (Ascii.eqb c base64.padChar) eqn:Epad; cbn [negb].
        2: { cbn. split; discriminate. }
        destruct q as [| s0 [| s1 [| s2 [| s3 q']]]]; cbn [length] in *; try lia.
        -- cbn. split; discriminate.
        -- cbn. split; discriminate.
        -- destruct (skip_newlines_strip rest (si + 1)) as [H1 H2].
           fold (strip rest). rewrite H1.
           destruct (base64.skip_newlines rest (si + 1)) as [[| c2 rest2] si'];
             cbn [fst snd] in *.
           ++ cbn. split; discriminate.
           ++ cbn [strip List.filter]. rewrite H2. cbn [negb].
              destruct (Ascii.eqb c2 base64.padChar) eqn:E2.
              ** rewrite after_padding_ok. fold (strip rest2).
                 destruct (strip rest2); split; congruence.
              ** cbn [snd]. fold (strip rest2).
                 destruct (strip rest2) as [| ? [| ? ?]]; split; congruence.
        -- rewrite after_padding_ok. fold (strip rest). rewrite is_nil_true. reflexivity.
Qed.

Ltac not_in_alphabet a :=
  destruct (in_alphabet a); [| destruct (Ascii.eqb a base64.padChar); reflexivity].

(** Character by character or group by group, the same text is accepted. *)
Lemma wf_from_quanta l : wf_from 0 l = wf_quanta l.
Proof.
  induction l as [l IH] using (induction_ltof1 _ (@length ascii)). unfold ltof in IH.
  destruct l as [| a [| b [| c [| d rest]]]]; cbn [wf_from wf_quanta Nat.eqb].
  - reflexivity.
  - not_in_alphabet a. reflexivity.
  - not_in_alphabet a. not_in_alphabet b. reflexivity.
  - not_in_alphabet a. not_in_alphabet b. not_in_alphabet c. reflexivity.
  - not_in_alphabet a. not_in_alphabet b. cbn [andb].
    destruct (in_alphabet c).
    + destruct (in_alphabet d); [apply IH; cbn; lia |].
      destruct (Ascii.eqb d base64.padChar); reflexivity.
    + destruct (Ascii.eqb c base64.padChar); [| reflexivity]. cbn [andb].
      destruct rest; [| destruct (Ascii.eqb d base64.padChar); reflexivity].
      cbn. rewrite andb_true_r. reflexivity.
Qed.

Lemma DecodeString_ok_iff s :
  snd (base64.DecodeString s) = None <-> is_base64url s = true.
Proof.
  unfold base64.DecodeString, is_base64url.
  rewrite <- wf_from_quanta. apply (decode_loop_wf _ 0 [] []). cbn. lia.
Qed.

(* ===================================================================== *)
(** * The payload record *)
(* ===================================================================== *)

Lemma field_value_assign m field v :
  field_value (MkData (<[field := v]> m)) field = v.
Proof. unfold field_value. rewrite lookup_insert_eq. reflexivity. Qed.

(** A setter on a nil map panics; on an allocated map it returns. *)
Lemma assign_field_nil field v : exists why, assign_field NilData field v = Panic why.
Proof. eexists. reflexivity. Qed.

Lemma GetBool_SetBool m field b :
  exists d, SetBool (MkData m) field b = Ok d /\ GetBool d field = b.
Proof.
  eexists. split; [reflexivity |].
  unfold GetBool. rewrite field_value_assign. destruct b; reflexivity.
Qed.

Lemma GetUint64_SetUint64 m field n :
  0 <= n <= Int.maxUint64 ->
  exists d, SetUint64 (MkData m) field n = Ok d /\ GetUint64 d field = n.
Proof.
  intros Hn. eexists. split; [reflexivity |].
  unfold GetUint64. rewrite field_value_assign, ParseUint_FormatUint by exact Hn.
  reflexivity.
Qed.

Lemma GetBytes_SetBytes m field s :
  s <> [] ->
  exists d, SetBytes (MkData m) field s = Ok d /\ GetBytes d field = (s, None).
Proof.
  intros Hs. eexists. split; [reflexivity |].
  unfold GetBytes. rewrite field_value_assign.
  pose proof (EncodeToString_nonempty s Hs) as Hne.
  destruct (base64.EncodeToString s) eqn:E; [congruence |].
  rewrite <- E, DecodeString_EncodeToString. reflexivity.
Qed.

Lemma GetBytes_invalid d field v :
  field_value d field = VString v -> is_base64url v = false ->
  exists bytes offset, GetBytes d field = (bytes, Some (CorruptInputError offset)).
Proof.
  intros Hv Hbad. unfold GetBytes. rewrite Hv.
  destruct v as [| c v']; [discriminate Hbad |].
  destruct (base64.DecodeString (String c v')) as [bytes [[offset] |]] eqn:E.
  - eauto.
  - exfalso. assert (Hok : is_base64url (String c v') = true).
    { apply DecodeString_ok_iff. rewrite E. reflexivity. }
    congruence.
Qed.

(** C7 (as amended).  On an allocated record: [GetBool] after [SetBool]
    returns the boolean; [GetUint64] after [SetUint64] returns every unsigned
    64-bit integer; [GetBytes] after [SetBytes] returns every non-empty byte
    sequence; and [GetBytes] returns a [CorruptInputError], not a default
    value, whenever the stored string is not valid base64. *)
Theorem payload_round_trip :
  (forall m field b,
     exists d, SetBool (MkData m) field b = Ok d /\ GetBool d field = b)
  /\ (forall m field n,
        0 <= n <= Int.maxUint64 ->
        exists d, SetUint64 (MkData m) field n = Ok d /\ GetUint64 d field = n)
  /\ (forall m field s,
        s <> [] ->
        exists d, SetBytes (MkData m) field s = Ok d /\ GetBytes d field = (s, None))
  /\ (forall d field v,
        field_value d field = VString v -> is_base64url v = false ->
        exists bytes offset, GetBytes d field = (bytes, Some (CorruptInputError offset))).
Proof.
  split; [exact GetBool_SetBool |].
  split; [exact GetUint64_SetUint64 |].
  split; [exact GetBytes_SetBytes | exact GetBytes_invalid].
Qed.

(** The theorem at [1234], at the bytes [1; 2] and at the text ["a?"]. *)
Lemma payload_round_trip_witness :
  (exists d, SetUint64 NewData "duration" 1234 = Ok d /\ GetUint64 d "duration" = 1234)
  /\ (exists d, SetBytes NewData "bytes" [x01; x02] = Ok d
                /\ GetBytes d "bytes" = ([x01; x02], None))
  /\ (exists bytes offset,
        GetBytes (MkData (<["bytes" := VString "a?"]> ∅)) "bytes"
        = (bytes, Some (CorruptInputError offset))).
Proof.
  destruct payload_round_trip as (_ & HU & HB & HE).
  split; [apply HU; unfold Int.maxUint64; lia |].
  split; [apply HB; discriminate |].
  apply (HE _ _ "a?"); [apply field_value_assign | reflexivity].
Defined.

(** C7, counterexample.  The empty byte sequence does not come back:
    [SetBytes] stores the empty string and [GetBytes] refuses it. *)
Lemma empty_bytes_do_not_round_trip :
  exists d,
    SetBytes NewData "bytes" [] = Ok d
    /\ GetBytes d "bytes" = ([], Some (errorString "getbytes:bytes is empty")).
Proof.
  eexists. split; [reflexivity |].
  unfold GetBytes. rewrite field_value_assign. reflexivity.
Qed.

(* ===================================================================== *)
(** * Reasoning about runs *)
(* ===================================================================== *)

Lemma with_trace_nil w : with_trace w [] = w.
Proof. destruct w. unfold with_trace. cbn. rewrite app_nil_r. reflexivity. Qed.

Lemma with_trace_app w evs1 evs2 :
  with_trace (with_trace w evs1) evs2 = with_trace w (evs1 ++ evs2).
Proof. unfold with_trace. cbn. rewrite app_assoc. reflexivity. Qed.

Lemma seal_queries_app h1 h2 :
  seal_queries (h1 ++ h2) = (seal_queries h1 + seal_queries h2)%nat.
Proof. unfold seal_queries. rewrite List.filter_app, length_app. reflexivity. Qed.

Lemma rpc_count_app h1 h2 : rpc_count (h1 ++ h2) = (rpc_count h1 + rpc_count h2)%nat.
Proof. unfold rpc_count. rewrite List.filter_app, length_app. reflexivity. Qed.

Section Hoare.
Context {A B : Type} (P : Event -> Prop).

Lemma hoare_ret (Q : A -> Prop) a : Q a -> hoare P Q (mret a).
Proof. intros HQ e w. exists []. cbn. rewrite app_nil_r. auto. Qed.

Lemma hoare_bind (Q : A -> Prop) (R : B -> Prop) (m : M A) (f : A -> M B) :
  hoare P Q m -> (forall a, Q a -> hoare P R (f a)) -> hoare P R (m ≫= f).
Proof.
  intros Hm Hf e w. destruct (Hm e w) as (evs & Ht & Hevs & HQ).
  unfold mbind, M_bind. destruct (m e w) as [[a | why |] w1]; cbn [fst snd] in *.
  - destruct (Hf a HQ e w1) as (evs' & Ht' & Hevs' & HR).
    exists (evs ++ evs'). rewrite Ht', Ht, app_assoc. split; [reflexivity |].
    split; [apply Forall_app; auto | exact HR].
  - exists evs. auto.
  - exists evs. auto.
Qed.

Lemma hoare_weaken (Q Q' : A -> Prop) (m : M A) :
  hoare P Q m -> (forall a, Q a -> Q' a) -> hoare P Q' m.
Proof.
  intros Hm HQ e w. destruct (Hm e w) as (evs & Ht & Hevs & Hr).
  exists evs. split; [exact Ht |]. split; [exact Hevs |].
  destruct (m e w).1; auto.
Qed.

Lemma hoare_pure (Q : A -> Prop) (m : M A) :
  (forall e w, (m e w).2 = w) -> (forall e w a, (m e w).1 = Ok a -> Q a) ->
  hoare P Q m.
Proof.
  intros Hw HQ e w. exists []. rewrite Hw, app_nil_r. split; [reflexivity |].
  split; [constructor |]. destruct (m e w).1 eqn:E; eauto.
Qed.

Lemma hoare_event (Q : A -> Prop) (m : M A) :
  (forall e w, exists ev a, m e w = (Ok a, emit ev w) /\ P ev /\ Q a) -> hoare P Q m.
Proof.
  intros Hm e w. destruct (Hm e w) as (ev & a & -> & HP & HQ).
  exists [ev]. cbn. auto.
Qed.

End Hoare.

Lemma hoare_panic {A : Type} P (Q : A -> Prop) why : hoare P Q (panic why).
Proof. apply hoare_pure; [reflexivity | discriminate]. Qed.

Lemma hoare_lift {A : Type} P (Q : A -> Prop) (r : Res A) :
  (forall a, r = Ok a -> Q a) -> hoare P Q (lift r).
Proof. intros H. apply hoare_pure; [reflexivity | intros; cbn in *; auto]. Qed.

Lemma hoare_deref {A : Type} P (p : option A) :
  hoare P (fun a => p = Some a) (deref p).
Proof. destruct p; [apply hoare_ret; reflexivity | apply hoare_panic]. Qed.

Lemma hoare_assert_Number P x : hoare P (fun n => x = VNumber n) (assert_Number x).
Proof. destruct x; try apply hoare_panic. apply hoare_ret. reflexivity. Qed.

Lemma hoare_assert_string P x : hoare P (fun s => x = VString s) (assert_string x).
Proof. destruct x; try apply hoare_panic. apply hoare_ret. reflexivity. Qed.

Lemma hoare_SetToken P v : hoare P (fun _ => True) (c_SetToken v).
Proof. intros e w. exists []. cbn. rewrite app_nil_r. auto. Qed.

Lemma hoare_Now P : (forall t, P (EvNow t)) -> hoare P (fun _ => True) Now.
Proof.
  intros HP. apply hoare_event. intros e w. eexists _, _. split; [reflexivity | auto].
Qed.

Lemma hoare_Logical P req :
  (forall tok, P (EvLogical tok req)) -> hoare P (fun _ => True) (Logical req).
Proof.
  intros HP. apply hoare_event. intros e w. eexists _, _. split; [reflexivity | auto].
Qed.

(** One step of a run: the first bind of the goal. *)
Ltac step := unfold mbind at 1, M_bind at 1.

(* ===================================================================== *)
(** * The session facade *)
(* ===================================================================== *)

Section Facade.
Context {A : Type} `{Auth A}.

Lemma IsSealed_reply (v : client.Client A) e w s :
  env_SealStatus e (trace w) = (Some s, None) ->
  client.IsSealed v e w = (Ok (hvault.Sealed s, None), emit EvSealStatus w).
Proof.
  intros E. unfold client.IsSealed, SealStatus. step. rewrite E. reflexivity.
Qed.

(** The preamble of the four operations, when the service is unsealed and
    the provider returns a token: the run reaches the data request. *)
Ltac preamble Eseal Etok :=
  step; rewrite (IsSealed_reply _ _ _ _ Eseal); cbn [hvault.Sealed];
  step; cbn [called_GetToken]; step; rewrite Etok;
  step; cbn [c_SetToken]; step; unfold Logical;
  cbn [client_token trace client.store client.set_auth].

(** C5.  Whenever the seal-status check reports sealed, each of [Read],
    [Write], [Delete] and [List] returns its sealed error at once: the
    seal-status query is the only event of the run, so the provider's
    [GetToken] is not called and no data request is sent; the client and its
    provider are unchanged. *)
Theorem sealed_short_circuit (v : client.Client A) (path : string) (d : Data) e w :
  env_SealStatus e (trace w) = sealed_reply ->
  client.Read v path e w
    = (Ok ((NilData, Some (errorString "read: vault is currently sealed")), v),
       emit EvSealStatus w)
  /\ client.Write v path d e w
    = (Ok ((NilData, Some (errorString "write: vault is currently sealed")), v),
       emit EvSealStatus w)
  /\ client.Delete v path e w
    = (Ok ((NilData, Some (errorString "delete: vault is currently sealed")), v),
       emit EvSealStatus w)
  /\ client.List v path e w
    = (Ok (([], Some (errorString "delete: vault is currently sealed")), v),
       emit EvSealStatus w).
Proof.
  intros E.
  repeat split.
  all: unfold client.Read, client.Write, client.Delete, client.List.
  all: step; rewrite (IsSealed_reply v e w _ E); reflexivity.
Qed.

Section Errors.
Variable Quote : string -> string.

Lemma Is_NewKeyError prefix path :
  errors.Is Quote (wrapError prefix (NewKeyError path)) (NewKeyError path) = true.
Proof. cbn. apply String.eqb_refl. Qed.


End Errors.

Lemma collect_keys_strings ks : forall keys e w,
  client.collect_keys (map VString ks) keys e w = (Ok (keys ++ ks), w).
Proof.
  induction ks as [| k ks IH]; intros keys e w; cbn [map client.collect_keys].
  - rewrite app_nil_r. reflexivity.
  - unfold mbind, M_bind. cbn [assert_string mret M_ret].
    fold (@mbind M _). rewrite IH, <- app_assoc. reflexivity.
Qed.

Lemma collect_keys_panics l : forall keys e w,
  forallb is_VString l = false ->
  exists why, client.collect_keys l keys e w = (Panic why, w).
Proof.
  induction l as [| k l IH]; intros keys e w Hl; [discriminate |].
  cbn [client.collect_keys]. unfold mbind, M_bind.
  destruct k; cbn [assert_string panic mret M_ret];
    [eauto | apply (IH _ e w Hl) | eauto ..].
Qed.

(** C10.  With the service unsealed and a token at hand, when the remote
    returns an envelope, [List] panics if the envelope's data has no ["keys"]
    field, if that field is not a list, or if the list holds an element that
    is not a string; no error is returned.  (On a list of strings it returns
    them.) *)
Theorem List_unchecked_assertions (v : client.Client A) (path tok : string) (a' : A)
    (s : hvault.Secret) e w w1 :
  env_SealStatus e (trace w) = unsealed_reply ->
  Auth_GetToken (client.auth v) e (emit EvGetToken (emit EvSealStatus w))
    = (Ok ((tok, None), a'), w1) ->
  let req := hvault.List (client.store v +:+ "/" +:+ path) in
  let w2 := emit (EvLogical tok req) (set_token tok w1) in
  env_Logical e (trace w1) tok req = (Some s, None) ->
  (Exist (hvault.Data s) "keys" = false ->
     exists why, client.List v path e w = (Panic why, w2))
  /\ (is_VList (field_value (hvault.Data s) "keys") = false ->
     exists why, client.List v path e w = (Panic why, w2))
  /\ (forall l, field_value (hvault.Data s) "keys" = VList l ->
                forallb is_VString l = false ->
     exists why, client.List v path e w = (Panic why, w2))
  /\ (forall ks, field_value (hvault.Data s) "keys" = VList (map VString ks) ->
     client.List v path e w = (Ok ((ks, None), client.set_auth v a'), w2)).
Proof.
  intros Eseal Etok req w2 Ereply.
  assert (Hrun : client.List v path e w =
    (l ← assert_list (field_value (hvault.Data s) "keys");
     keys ← client.collect_keys l [];
     client.returning (client.set_auth v a') (keys, None)) e w2).
  { unfold client.List. preamble Eseal Etok. fold req. rewrite Ereply. reflexivity. }
  assert (Hnotlist : is_VList (field_value (hvault.Data s) "keys") = false ->
     exists why, client.List v path e w = (Panic why, w2)).
  { intros Hk. rewrite Hrun. step.
    destruct (field_value (hvault.Data s) "keys"); try discriminate Hk;
      cbn [assert_list panic]; eauto. }
  split; [| split; [exact Hnotlist | split]].
  - intros Hex. apply Hnotlist.
    destruct (hvault.Data s) as [| m]; [reflexivity |].
    unfold Exist in Hex. unfold field_value.
    destruct (m !! "keys") eqn:Em; [| reflexivity].
    exfalso. apply bool_decide_eq_false in Hex. apply Hex. eauto.
  - intros l El Hl. rewrite Hrun, El. step. cbn [assert_list mret M_ret].
    destruct (collect_keys_panics l [] e w2 Hl) as [why Hwhy].
    exists why. unfold mbind, M_bind. rewrite Hwhy. reflexivity.
  - intros ks El. rewrite Hrun, El. step. cbn [assert_list mret M_ret].
    unfold mbind, M_bind. rewrite collect_keys_strings. reflexivity.
Qed.

(** ** Construction *)

(** [k] attempts that find a client and no status: the loop goes on with
    what is left of its budget. *)
Lemma poll_status_nil (v : client.Client A) e k : forall n i ss w,
  (forall h, env_NewClient e h = None) ->
  (forall h, (seal_queries h < seal_queries (trace w) + k)%nat ->
             env_SealStatus e h = (None, None)) ->
  client.poll_status (k + n) i v ss e w
  = client.poll_status n (i + Z.of_nat k) v (if k is O then ss else None) e
      (if k is O then w
       else set_token (env_Getenv e hvault.EnvVaultToken)
              (with_trace w (poll_rounds (client.retry v) (client.attempts v) i k))).
Proof.
  induction k as [| k IH]; intros n i ss w Hnew Hnil.
  - cbn [Nat.add]. rewrite Z.add_0_r. reflexivity.
  - cbn [Nat.add client.poll_status].
    step. unfold NewClient at 1. rewrite Hnew.
    step. unfold SealStatus at 1.
    rewrite Hnil by (cbn [emit trace]; rewrite seal_queries_app; cbn; lia).
    step. unfold Log at 1. step. unfold Sleep at 1.
    rewrite IH; [ | exact Hnew | ].
    + cbn [poll_rounds]. unfold emit, with_trace, set_token. cbn [client_token trace].
      replace (i + 1 + Z.of_nat k) with (i + Z.of_nat (S k)) by lia.
      rewrite <- !app_assoc. cbn [app].
      destruct k; [rewrite app_nil_r |]; reflexivity.
    + intros h Hh. apply Hnil. revert Hh. cbn [emit trace].
      rewrite !seal_queries_app. cbn. lia.
Qed.

(** An attempt that finds a status ends the loop. *)
Lemma poll_status_found (v : client.Client A) e n i ss w s :
  env_NewClient e (trace w) = None ->
  env_SealStatus e (trace w ++ [EvNewClient]) = (Some s, None) ->
  client.poll_status (S n) i v ss e w
  = (Ok (inr (Some s)),
     set_token (env_Getenv e hvault.EnvVaultToken)
       (with_trace w [EvNewClient; EvSealStatus])).
Proof.
  intros Hnew Hs. cbn [client.poll_status].
  step. unfold NewClient at 1. rewrite Hnew.
  step. unfold SealStatus at 1. cbn [emit trace].
  rewrite Hs. unfold with_trace, emit, set_token. cbn. rewrite <- app_assoc. reflexivity.
Qed.

Lemma seal_queries_poll_rounds retry attempts k : forall i,
  seal_queries (poll_rounds retry attempts i k) = k.
Proof.
  induction k as [| k IH]; intros i; [reflexivity |].
  cbn [poll_rounds]. rewrite seal_queries_app, IH. reflexivity.
Qed.


End Facade.

(** The theorem on a sealed service. *)
Lemma sealed_short_circuit_witness :
  env_SealStatus sealed_service (trace start) = sealed_reply
  /\ client.Read kv "test" sealed_service start
     = (Ok ((NilData, Some (errorString "read: vault is currently sealed")), kv),
        emit EvSealStatus start)
  /\ client.List kv "test" sealed_service start
     = (Ok (([], Some (errorString "delete: vault is currently sealed")), kv),
        emit EvSealStatus start).
Proof.
  split; [reflexivity |].
  destruct (sealed_short_circuit kv "test" NewData sealed_service start eq_refl)
    as (HR & _ & _ & HL).
  split; [exact HR | exact HL].
Defined.


(** The theorem on an envelope without ["keys"]. *)
Lemma List_unchecked_assertions_witness :
  exists why w', client.List kv "dir" odd_listing start = (Panic why, w').
Proof.
  destruct (proj1 (List_unchecked_assertions kv "dir" _ _ _ odd_listing start _
                     eq_refl eq_refl eq_refl) eq_refl) as [why Hwhy].
  exists why. eexists. exact Hwhy.
Defined.


(* ===================================================================== *)
(** * The Secret-Exchange provider *)
(* ===================================================================== *)

(** ** Runs of the helper methods *)

Lemma len0_false s : s <> "" -> len0 s = false.
Proof. intros Hs. apply String.eqb_neq. exact Hs. Qed.

Lemma setexpiry_run ar a e w :
  approle.auth ar = Some a ->
  approle.setexpiry ar e w
  = (Ok (expiry_set ar a (env_Now e (trace w))), emit (EvNow (env_Now e (trace w))) w).
Proof. intros Ea. unfold approle.setexpiry. rewrite Ea. reflexivity. Qed.

Lemma seconds_small n : fits_Duration n -> time.seconds n = n * time.Second.
Proof.
  unfold fits_Duration. intros Hn. unfold time.seconds, Int.wrap_int64, time.Second.
  change (2 ^ 63) with 9223372036854775808. change (2 ^ 64) with 18446744073709551616.
  rewrite Z.mod_small by lia. lia.
Qed.

(** Beyond that range the multiplication wraps: such a lease gives a
    negative duration. *)
Remark seconds_overflow : time.seconds 9223372037 < 0.
Proof. reflexivity. Qed.

Lemma renew_run ar a e w :
  approle.auth ar = Some a -> hvault.ClientToken a <> "" ->
  let tok := hvault.ClientToken a in
  let w1 := emit (EvLogical tok renew_request) (set_token tok w) in
  approle.renew ar e w =
    match env_Logical e (trace w) tok renew_request with
    | (_, Some err) => (Ok (Some (wrapError "renew: " err), ar), w1)
    | (None, None) => (Panic "invalid memory address or nil pointer dereference", w1)
    | (Some s, None) =>
        match hvault.Auth s with
        | None => (Panic "invalid memory address or nil pointer dereference", w1)
        | Some a1 =>
            (Ok (None, expiry_set (approle.set_auth ar (Some a1)) a1 (env_Now e (trace w1))),
             emit (EvNow (env_Now e (trace w1))) w1)
        end
    end.
Proof.
  intros Ea Htok tok w1. unfold approle.renew. rewrite Ea.
  step. cbn [deref mret M_ret]. rewrite (len0_false _ Htok).
  step. cbn [c_SetToken]. step. unfold Logical at 1. cbn [client_token trace].
  fold tok. fold renew_request. fold (set_token tok w). fold w1.
  destruct (env_Logical e (trace w) tok renew_request) as [[s |] [err |]]; try reflexivity.
  step. cbn [deref mret M_ret]. step.
  destruct (hvault.Auth s) as [a1 |] eqn:Ea1.
  - rewrite (setexpiry_run _ a1) by reflexivity. reflexivity.
  - unfold approle.setexpiry. cbn. reflexivity.
Qed.

Lemma new_run ar e w :
  approle.secret_id ar <> "" ->
  let tok := client_token w in
  let w1 := emit (EvLogical tok (login_request ar)) w in
  approle.new ar e w =
    match env_Logical e (trace w) tok (login_request ar) with
    | (_, Some err) => (Ok (Some (wrapError "new: " err), ar), w1)
    | (None, None) => (Panic "invalid memory address or nil pointer dereference", w1)
    | (Some s, None) =>
        match hvault.Auth s with
        | None => (Panic "invalid memory address or nil pointer dereference", w1)
        | Some a1 =>
            (Ok (None, expiry_set (approle.set_auth ar (Some a1)) a1 (env_Now e (trace w1))),
             emit (EvNow (env_Now e (trace w1))) w1)
        end
    end.
Proof.
  intros Hsid tok w1. unfold approle.new.
  rewrite (len0_false _ Hsid), andb_false_r.
  step. cbn [lift SetString assign_field NewData].
  step. cbn [lift SetString assign_field NewData].
  step. unfold Logical at 1.
  fold (login_data (approle.role_id ar) (approle.secret_id ar)). fold (login_request ar).
  fold tok. fold w1.
  destruct (env_Logical e (trace w) tok (login_request ar)) as [[s |] [err |]];
    try reflexivity.
  step. cbn [deref mret M_ret]. step.
  destruct (hvault.Auth s) as [a1 |] eqn:Ea1.
  - rewrite (setexpiry_run _ a1) by reflexivity. reflexivity.
  - unfold approle.setexpiry. cbn. reflexivity.
Qed.

Ltac unwrap_rpc E :=
  unfold approle.unwrap; step; cbn [c_SetToken]; step; unfold Logical at 1;
  cbn [client_token trace]; fold unwrap_request; rewrite E.

Lemma unwrap_run_err ar e w x err :
  let ut := approle.unwrap_token ar in
  env_Logical e (trace w) ut unwrap_request = (x, Some err) ->
  approle.unwrap ar e w
  = (Ok (Some (wrapError "unwrap: " err), ar),
     emit (EvLogical ut unwrap_request) (set_token ut w)).
Proof. intros ut E. subst ut. unwrap_rpc E. reflexivity. Qed.

Lemma unwrap_run_ttl_err ar e w s n i err :
  let ut := approle.unwrap_token ar in
  env_Logical e (trace w) ut unwrap_request = (Some s, None) ->
  field_value (hvault.Data s) "secret_id_ttl" = VNumber n ->
  Int64 n = (i, Some err) ->
  approle.unwrap ar e w
  = (Ok (Some (wrapError "unwrap: " err), approle.set_auth ar (Some empty_auth)),
     emit (EvLogical ut unwrap_request) (set_token ut w)).
Proof.
  intros ut E En Ei. subst ut. unwrap_rpc E.
  step. cbn [deref mret M_ret]. step. rewrite En. cbn [assert_Number mret M_ret].
  rewrite Ei. reflexivity.
Qed.

Lemma unwrap_run_ok ar e w s n ttl sid :
  let ut := approle.unwrap_token ar in
  let w1 := emit (EvLogical ut unwrap_request) (set_token ut w) in
  env_Logical e (trace w) ut unwrap_request = (Some s, None) ->
  field_value (hvault.Data s) "secret_id_ttl" = VNumber n ->
  Int64 n = (ttl, None) ->
  field_value (hvault.Data s) "secret_id" = VString sid ->
  approle.unwrap ar e w
  = (Ok (None, unwrapped ar sid ttl (env_Now e (trace w1))),
     emit (EvNow (env_Now e (trace w1))) w1).
Proof.
  intros ut w1 E En Ei Es. subst ut w1. unwrap_rpc E.
  step. cbn [deref mret M_ret]. step. rewrite En. cbn [assert_Number mret M_ret].
  rewrite Ei. step. rewrite Es. cbn [assert_string mret M_ret]. step.
  erewrite setexpiry_run by reflexivity. reflexivity.
Qed.

(** [mint] with a secret and no unwrap token: the login decides. *)
Lemma mint_login ar e w :
  approle.unwrap_token ar = "" -> approle.secret_id ar <> "" ->
  approle.mint ar e w =
    match approle.new ar e w with
    | (Ok (Some err, ar3), w') => (Ok (("", Some (wrapError "gettoken: " err)), ar3), w')
    | (Ok (None, ar3), w') =>
        match approle.auth ar3 with
        | Some a => (Ok ((hvault.ClientToken a, None), ar3), w')
        | None => (Panic "invalid memory address or nil pointer dereference", w')
        end
    | (Panic why, w') => (Panic why, w')
    | (Pending, w') => (Pending, w')
    end.
Proof.
  intros Hu Hs. unfold approle.mint. rewrite Hu. cbn [len0 String.eqb negb].
  step. cbn [mret M_ret]. rewrite (len0_false _ Hs). step.
  destruct (approle.new ar e w) as [[[[err |] ar3] | why |] w']; try reflexivity.
  unfold mbind, M_bind. destruct (approle.auth ar3); reflexivity.
Qed.

(** [mint] with neither: the explicit error, and no event. *)
Lemma mint_no_secret ar e w :
  approle.unwrap_token ar = "" -> approle.secret_id ar = "" ->
  approle.mint ar e w = (Ok (("", Some missing_secret_id), ar), w).
Proof.
  intros Hu Hs. unfold approle.mint. rewrite Hu. cbn [len0 String.eqb negb].
  step. cbn [mret M_ret]. rewrite Hs. reflexivity.
Qed.

(** [mint] with an unwrap token: the exchange comes first; when it succeeds
    the token is cleared before anything else is done. *)
Lemma mint_unwrap ar e w :
  approle.unwrap_token ar <> "" ->
  approle.mint ar e w =
    match approle.unwrap ar e w with
    | (Ok (Some err, ar1), w') => (Ok (("", Some (wrapError "gettoken: " err)), ar1), w')
    | (Ok (None, ar1), w') => approle.mint (approle.SetUnwrapToken ar1 "") e w'
    | (Panic why, w') => (Panic why, w')
    | (Pending, w') => (Pending, w')
    end.
Proof.
  intros Hu. unfold approle.mint at 1. rewrite (len0_false _ Hu).
  cbn [negb]. step. step.
  destruct (approle.unwrap ar e w) as [[[[err |] ar1] | why |] w']; reflexivity.
Qed.

Lemma AppRole_cached ar a e w :
  approle.auth ar = Some a -> hvault.ClientToken a <> "" ->
  env_Now e (trace w) < approle.expires ar ->
  approle.GetToken ar e w
  = (Ok ((hvault.ClientToken a, None), ar), emit (EvNow (env_Now e (trace w))) w).
Proof.
  intros Ea Htok Hnow. unfold approle.GetToken. rewrite Ea, (len0_false _ Htok).
  cbn [negb]. step. step. cbn [Now mret M_ret]. unfold time.Before.
  destruct (Z.ltb_spec (env_Now e (trace w)) (approle.expires ar)); [reflexivity | lia].
Qed.

Lemma AppRole_renews ar a e w s a1 :
  approle.auth ar = Some a -> hvault.ClientToken a <> "" ->
  approle.expires ar <= env_Now e (trace w) ->
  let tok := hvault.ClientToken a in
  let w0 := emit (EvNow (env_Now e (trace w))) w in
  let w1 := emit (EvLogical tok renew_request) (set_token tok w0) in
  env_Logical e (trace w0) tok renew_request = (Some s, None) ->
  hvault.Auth s = Some a1 ->
  approle.GetToken ar e w
  = (Ok ((hvault.ClientToken a1, None),
         expiry_set (approle.set_auth ar (Some a1)) a1 (env_Now e (trace w1))),
     emit (EvNow (env_Now e (trace w1))) w1).
Proof.
  intros Ea Htok Hnow tok w0 w1 Hreply Ha1. unfold approle.GetToken.
  rewrite Ea, (len0_false _ Htok).
  cbn [negb]. step. step. cbn [Now mret M_ret]. unfold time.Before.
  destruct (Z.ltb_spec (env_Now e (trace w)) (approle.expires ar)); [lia |].
  step. fold w0.
  rewrite (renew_run ar a) by assumption. fold tok. rewrite Hreply, Ha1. reflexivity.
Qed.

(** ** The expiry *)

Lemma expires_expiry_set ar a now :
  fits_Duration (lease_with_margin (hvault.LeaseDuration a)) ->
  approle.expires (expiry_set ar a now)
  = now + lease_with_margin (hvault.LeaseDuration a) * time.Second.
Proof.
  intros Hfit. cbn. unfold time.Add.
  change (approle.margin (hvault.LeaseDuration a))
    with (lease_with_margin (hvault.LeaseDuration a)).
  rewrite seconds_small by exact Hfit. reflexivity.
Qed.

(* ===================================================================== *)
(** * The Standing-Token provider *)
(* ===================================================================== *)

Section TokenRuns.
Variable time_Parse : string -> string -> option time.Time.

(** Before the expiry: the cached token, and only the clock is read. *)
Lemma Token_cached t e w :
  token.token_file t = "" ->
  env_Now e (trace w) < token.expires t ->
  token.GetToken time_Parse t e w
  = (Ok ((token.token t, None), t), emit (EvNow (env_Now e (trace w))) w).
Proof.
  intros Hf Hnow. unfold token.GetToken. rewrite Hf. cbn [len0 String.eqb negb].
  step. cbn [Now]. unfold time.Before.
  destruct (Z.ltb_spec (env_Now e (trace w)) (token.expires t)); [reflexivity | lia].
Qed.

(** At or after a known expiry: a renew-self request under the same token.
    Whatever the reply, the struct is returned as it was. *)
Lemma Token_renew t e w :
  token.token_file t = "" ->
  token.expires t <= env_Now e (trace w) ->
  token.expires t <> 0 ->
  let now := env_Now e (trace w) in
  let w1 := set_token (token.token t) (emit (EvNow now) w) in
  let w2 := emit (EvLogical (token.token t) token_renew_request) w1 in
  token.GetToken time_Parse t e w =
    match env_Logical e (trace w1) (token.token t) token_renew_request with
    | (_, Some err) => (Ok (("", Some (wrapError "gettoken: " err)), t), w2)
    | (_, None) => (Ok ((token.token t, None), t), w2)
    end.
Proof.
  intros Hf Hnow Hz now w1 w2. unfold token.GetToken. rewrite Hf.
  cbn [len0 String.eqb negb].
  step. cbn [Now]. unfold time.Before, time.IsZero. fold now.
  destruct (Z.ltb_spec now (token.expires t)); [unfold now in *; lia |].
  destruct (Z.eqb_spec (token.expires t) 0); [contradiction |].
  step. cbn [c_SetToken]. step. unfold Logical at 1. cbn [client_token trace].
  fold token_renew_request.
  change (trace (emit (EvNow now) w)) with (trace w1).
  destruct (env_Logical e (trace w1) (token.token t) token_renew_request) as [x [err |]];
    reflexivity.
Qed.

(** The first call, on a token whose introspection carries no
    [expire_time]. *)
Lemma Token_lookup_no_expiry t e w s n ttl :
  token.token_file t = "" ->
  token.expires t = 0 ->
  0 <= env_Now e (trace w) ->
  let now := env_Now e (trace w) in
  let w1 := set_token (token.token t) (emit (EvNow now) w) in
  let w2 := emit (EvLogical (token.token t) lookup_request) w1 in
  env_Logical e (trace w1) (token.token t) lookup_request = (Some s, None) ->
  field_value (hvault.Data s) "creation_ttl" = VNumber n ->
  Int64 n = (ttl, None) ->
  field_value (hvault.Data s) "expire_time" = VNil ->
  token.GetToken time_Parse t e w
  = (Ok ((token.token t, None),
         token.set_expires t (time.AddDate (env_Now e (trace w2)) 1000 0 0)),
     emit (EvNow (env_Now e (trace w2))) w2).
Proof.
  intros Hf Hz Hnow now w1 w2 Hreply Hn Hi Hx.
  unfold token.GetToken. rewrite Hf. cbn [len0 String.eqb negb].
  step. cbn [Now]. unfold time.Before, time.IsZero. fold now. rewrite Hz.
  destruct (Z.ltb_spec now 0); [unfold now in *; lia |].
  cbn [Z.eqb]. unfold token.lookup_self.
  step. cbn [c_SetToken]. step. unfold Logical at 1. cbn [client_token trace].
  fold lookup_request.
  change (trace (emit (EvNow now) w)) with (trace w1). rewrite Hreply.
  step. cbn [deref mret M_ret]. step. rewrite Hn. cbn [assert_Number mret M_ret].
  rewrite Hi, Hx. reflexivity.
Qed.

(** C3 (code defect).  For a [Token] without a token file whose expiry is
    known and has passed: [GetToken] sends the renew-self request under the
    same token and, when the remote grants it, returns the token with the
    struct as it was; the response is not read and the expiry is not
    recomputed. *)
Theorem Token_renewal_keeps_expiry t e w x :
  token.token_file t = "" ->
  token.expires t <> 0 ->
  token.expires t <= env_Now e (trace w) ->
  let w1 := set_token (token.token t) (emit (EvNow (env_Now e (trace w))) w) in
  env_Logical e (trace w1) (token.token t) token_renew_request = (x, None) ->
  token.GetToken time_Parse t e w
  = (Ok ((token.token t, None), t),
     emit (EvLogical (token.token t) token_renew_request) w1).
Proof.
  intros Hf Hz Hnow w1 Hreply. rewrite Token_renew by assumption.
  fold w1. rewrite Hreply. reflexivity.
Qed.

(** C1 (code defect).  For a [Token] without a token file whose expiry is
    known and has passed, and a remote that grants every request: of [n]
    callers, which the mutex lets run one after the other, each sends a
    renew-self request, [n] in all, since no call moves the expiry. *)
Theorem Token_every_caller_renews e t : forall n w,
  token.token_file t = "" -> token.expires t <> 0 ->
  (forall h, token.expires t <= env_Now e h) ->
  (forall h tok req, snd (env_Logical e h tok req) = None) ->
  exists w',
    serialized (H := Token_Auth time_Parse) n t e w
    = (Ok (repeat (token.token t, None) n, t), w')
    /\ rpc_count (trace w') = (rpc_count (trace w) + n)%nat.
Proof.
  induction n as [| n IH]; intros w Hf Hz Hnow Hok.
  - exists w. cbn. split; [reflexivity | lia].
  - cbn [serialized]. step.
    change (Auth_GetToken t) with (token.GetToken time_Parse t).
    rewrite Token_renew by auto. cbv zeta.
    match goal with
    | |- context [env_Logical e ?h ?tok ?r] =>
        pose proof (Hok h tok r) as Hr; destruct (env_Logical e h tok r) as [x err]
    end.
    cbn [snd] in Hr. subst err. cbv beta iota zeta.
    unfold mbind, M_bind.
    match goal with
    | |- context [serialized n t e ?w1] =>
        destruct (IH w1 Hf Hz Hnow Hok) as (w' & Hrun & Hcount)
    end.
    exists w'. rewrite Hrun. cbn [repeat mret M_ret].
    split; [reflexivity |]. rewrite Hcount. cbn [emit trace set_token].
    rewrite !rpc_count_app. cbn. lia.
Qed.

(** The Standing-Token provider without a token file: a call strictly before
    the expiry returns the cached token and sends nothing; a call at or after
    a known expiry sends a renew-self request under the same token; when
    that request fails its error is returned, wrapped, with no other
    request, and when it succeeds the token is returned. *)
Theorem Token_before_and_after_expiry (t : token.Token) e w :
  token.token_file t = "" ->
  let now := env_Now e (trace w) in
  let w1 := set_token (token.token t) (emit (EvNow now) w) in
  let w2 := emit (EvLogical (token.token t) token_renew_request) w1 in
  (now < token.expires t ->
   token.GetToken time_Parse t e w = (Ok ((token.token t, None), t), emit (EvNow now) w))
  /\ (forall x err,
        token.expires t <> 0 -> token.expires t <= now ->
        env_Logical e (trace w1) (token.token t) token_renew_request = (x, Some err) ->
        token.GetToken time_Parse t e w
        = (Ok (("", Some (wrapError "gettoken: " err)), t), w2))
  /\ (forall x,
        token.expires t <> 0 -> token.expires t <= now ->
        env_Logical e (trace w1) (token.token t) token_renew_request = (x, None) ->
        exists t', token.GetToken time_Parse t e w = (Ok ((token.token t, None), t'), w2)).
Proof.
  intros Hf now w1 w2. split; [| split].
  - intros Hnow. apply Token_cached; assumption.
  - intros x err Hz Hnow Hreply. rewrite Token_renew by assumption.
    fold now. fold w1. rewrite Hreply. reflexivity.
  - intros x Hz Hnow Hreply. rewrite Token_renew by assumption.
    fold now. fold w1. rewrite Hreply. eexists. reflexivity.
Qed.

End TokenRuns.

(** The theorem on a token whose expiry [100] has passed when the clock reads
    [200], and a renewal granted with a lease of 3600: the expiry is still
    [100]. *)
Lemma Token_renewal_keeps_expiry_witness :
  env_Logical granting [EvNow 200] "t0" token_renew_request = auth_reply "t1" 3600
  /\ token.GetToken (fun _ _ => None) stale granting start
     = (Ok (("t0", None), stale),
        {| client_token := "t0";
           trace := [EvNow 200; EvLogical "t0" token_renew_request] |})
  /\ token.expires stale = 100.
Proof.
  split; [reflexivity |]. split; [| reflexivity].
  apply (Token_renewal_keeps_expiry (fun _ _ => None) stale granting start _
           eq_refl ltac:(discriminate) ltac:(discriminate) eq_refl).
Defined.

(** The theorem on that token and three callers: three requests. *)
Lemma Token_every_caller_renews_witness :
  exists w',
    serialized (H := Token_Auth (fun _ _ => None)) 3 stale granting start
    = (Ok ([("t0", None); ("t0", None); ("t0", None)], stale), w')
    /\ rpc_count (trace w') = 3%nat.
Proof.
  apply (Token_every_caller_renews (fun _ _ => None) granting stale 3 start eq_refl).
  - discriminate.
  - intros h. discriminate.
  - intros h tok req. reflexivity.
Defined.

(** The theorem on a token that is valid until [1000], at a clock of [200]. *)
Lemma Token_before_and_after_expiry_witness :
  token.GetToken (fun _ _ => None)
    {| token.token := "t0"; token.token_file := ""; token.expires := 1000 |}
    granting start
  = (Ok (("t0", None),
         {| token.token := "t0"; token.token_file := ""; token.expires := 1000 |}),
     emit (EvNow 200) start).
Proof.
  apply (Token_before_and_after_expiry (fun _ _ => None)
           {| token.token := "t0"; token.token_file := ""; token.expires := 1000 |}
           granting start eq_refl).
  reflexivity.
Defined.

(* ===================================================================== *)
(** * The safety margin *)
(* ===================================================================== *)

(** C2 (as amended).  For the Secret-Exchange provider, a lease [L] learned
    from a login, a renew-self or an unwrap response gives the expiry
    [now + (L - 10)] seconds when [L > 20] and [now + L] seconds when
    [L <= 20], where [now] is the clock reading taken after the response,
    provided the lease after the margin fits a [time.Duration].  For the
    Standing-Token provider, the self-introspection of a token that carries
    no [expire_time] sets the expiry a thousand years after the clock
    reading. *)
Theorem expiry_safety_margin :
  (forall ar a e w,
     approle.auth ar = Some a ->
     let L := hvault.LeaseDuration a in
     fits_Duration (lease_with_margin L) ->
     exists ar',
       approle.setexpiry ar e w = (Ok ar', emit (EvNow (env_Now e (trace w))) w)
       /\ approle.expires ar'
          = env_Now e (trace w) + (if 20 <? L then L - 10 else L) * time.Second)
  /\
  (forall ar e w s a1,
     approle.secret_id ar <> "" ->
     env_Logical e (trace w) (client_token w) (login_request ar) = (Some s, None) ->
     hvault.Auth s = Some a1 ->
     let L := hvault.LeaseDuration a1 in
     fits_Duration (lease_with_margin L) ->
     exists ar' w',
       approle.new ar e w = (Ok (None, ar'), w')
       /\ approle.expires ar'
          = env_Now e (trace w ++ [EvLogical (client_token w) (login_request ar)])
            + (if 20 <? L then L - 10 else L) * time.Second)
  /\
  (forall ar a e w s a1,
     approle.auth ar = Some a -> hvault.ClientToken a <> "" ->
     env_Logical e (trace w) (hvault.ClientToken a) renew_request = (Some s, None) ->
     hvault.Auth s = Some a1 ->
     let L := hvault.LeaseDuration a1 in
     fits_Duration (lease_with_margin L) ->
     exists ar' w',
       approle.renew ar e w = (Ok (None, ar'), w')
       /\ approle.expires ar'
          = env_Now e (trace w ++ [EvLogical (hvault.ClientToken a) renew_request])
            + (if 20 <? L then L - 10 else L) * time.Second)
  /\
  (forall ar e w s n L sid,
     env_Logical e (trace w) (approle.unwrap_token ar) unwrap_request = (Some s, None) ->
     field_value (hvault.Data s) "secret_id_ttl" = VNumber n ->
     Int64 n = (L, None) ->
     field_value (hvault.Data s) "secret_id" = VString sid ->
     fits_Duration (lease_with_margin L) ->
     exists ar' w',
       approle.unwrap ar e w = (Ok (None, ar'), w')
       /\ approle.expires ar'
          = env_Now e (trace w ++ [EvLogical (approle.unwrap_token ar) unwrap_request])
            + (if 20 <? L then L - 10 else L) * time.Second)
  /\
  (forall time_Parse t e w s n ttl,
     token.token_file t = "" -> token.expires t = 0 ->
     0 <= env_Now e (trace w) ->
     let w1 := set_token (token.token t) (emit (EvNow (env_Now e (trace w))) w) in
     let w2 := emit (EvLogical (token.token t) lookup_request) w1 in
     env_Logical e (trace w1) (token.token t) lookup_request = (Some s, None) ->
     field_value (hvault.Data s) "creation_ttl" = VNumber n ->
     Int64 n = (ttl, None) ->
     field_value (hvault.Data s) "expire_time" = VNil ->
     exists t' w',
       token.GetToken time_Parse t e w = (Ok ((token.token t, None), t'), w')
       /\ token.expires t' = time.AddDate (env_Now e (trace w2)) 1000 0 0).
Proof.
  split; [| split; [| split; [| split]]].
  - intros ar a e w Ea L Hfit. eexists. split; [apply setexpiry_run, Ea |].
    apply expires_expiry_set, Hfit.
  - intros ar e w s a1 Hs Hreply Ha L Hfit.
    rewrite new_run by exact Hs. rewrite Hreply, Ha.
    eexists _, _. split; [reflexivity |]. apply expires_expiry_set, Hfit.
  - intros ar a e w s a1 Ea Htok Hreply Ha L Hfit.
    rewrite (renew_run ar a) by assumption. rewrite Hreply, Ha.
    eexists _, _. split; [reflexivity |]. apply expires_expiry_set, Hfit.
  - intros ar e w s n L sid Hreply Hn Hi Hsid Hfit.
    rewrite (unwrap_run_ok ar e w s n L sid Hreply Hn Hi Hsid).
    eexists _, _. split; [reflexivity |]. unfold unwrapped.
    rewrite expires_expiry_set by exact Hfit. reflexivity.
  - intros time_Parse t e w s n ttl Hf Hz Hnow w1 w2 Hreply Hn Hi Hx.
    rewrite (Token_lookup_no_expiry time_Parse t e w s n ttl Hf Hz Hnow Hreply Hn Hi Hx).
    eexists _, _. split; reflexivity.
Qed.

(** The theorem on a lease of 50 held by the struct, and on a login that
    grants a lease of 3600; the clock reads [200]. *)
Lemma expiry_safety_margin_witness :
  (exists ar',
     approle.setexpiry expired_role granting start = (Ok ar', emit (EvNow 200) start)
     /\ approle.expires ar' = 200 + 40 * time.Second)
  /\ (exists ar' w',
        approle.new configured granting start = (Ok (None, ar'), w')
        /\ approle.expires ar' = 200 + 3590 * time.Second).
Proof.
  destruct expiry_safety_margin as (Hset & Hnew & _).
  split.
  - apply (Hset expired_role _ granting start eq_refl). unfold fits_Duration. cbn. lia.
  - apply (Hnew configured granting start _ _ ltac:(discriminate) eq_refl eq_refl).
    unfold fits_Duration. cbn. lia.
Defined.

(** C2, counterexample.  A token whose introspection reports a lifetime of
    100 and no [expire_time], at noon of 2026-01-01: the expiry is noon of
    3026-01-01, not 90 seconds later.  (The run does not parse a time, so the
    parser it is given does not matter.) *)
Lemma Token_expiry_without_expire_time :
  let now := 63902865600 * time.Second in
  exists t' w',
    token.GetToken (fun _ _ => None) (token.NewToken "root") introspecting start
    = (Ok (("root", None), t'), w')
    /\ token.expires t' = 95459774400 * time.Second
    /\ token.expires t' <> now + (100 - 10) * time.Second.
Proof.
  eexists _, _. split; [vm_compute; reflexivity |].
  split; [reflexivity | discriminate].
Qed.

(* ===================================================================== *)
(** * Minting and the unwrap exchange *)
(* ===================================================================== *)

Lemma last_char_append p s : s <> "" -> last_char (p +:+ s) = last_char s.
Proof.
  intros Hs. induction p as [| c p IH]; [reflexivity |].
  change (String c p +:+ s) with (String c (p +:+ s)).
  assert (Hne : p +:+ s <> "") by (destruct p; cbn; [assumption | discriminate]).
  transitivity (last_char (p +:+ s)); [| exact IH].
  destruct (p +:+ s); [congruence | reflexivity].
Qed.

(** No login path is the unwrap path. *)
Lemma login_path_not_unwrap p : String.eqb (p +:+ "/login") "sys/wrapping/unwrap" = false.
Proof.
  apply String.eqb_neq. intros E.
  apply (f_equal last_char) in E. rewrite last_char_append in E by discriminate.
  discriminate E.
Qed.

Lemma GetString_login_data r s : GetString (login_data r s) "secret_id" = s.
Proof. unfold GetString, login_data. rewrite field_value_assign. reflexivity. Qed.

(** A proof that a method keeps to [P] follows the method line by line. *)
Tactic Notation "hbind" uconstr(lem) := eapply hoare_bind; [apply lem |].
Ltac hret := apply hoare_ret.

Lemma hoare_setexpiry P ar :
  (forall t, P (EvNow t)) ->
  hoare P (fun ar' => approle.unwrap_token ar' = approle.unwrap_token ar)
    (approle.setexpiry ar).
Proof.
  intros HP. unfold approle.setexpiry.
  hbind hoare_deref. intros a _.
  eapply hoare_bind; [apply hoare_Now, HP |]. intros now _.
  hret. reflexivity.
Qed.

Lemma hoare_setexpiry_any P ar :
  (forall t, P (EvNow t)) -> hoare P (fun _ => True) (approle.setexpiry ar).
Proof. intros HP. eapply hoare_weaken; [apply hoare_setexpiry, HP | auto]. Qed.

(** ** No unwrap request without an unwrap token *)

Lemma no_unwrap_renew ar :
  hoare no_unwrap (fun r => approle.unwrap_token r.2 = approle.unwrap_token ar)
    (approle.renew ar).
Proof.
  unfold approle.renew.
  hbind hoare_deref. intros a _.
  destruct (len0 (hvault.ClientToken a)); [hret; reflexivity |].
  hbind hoare_SetToken. intros _ _.
  eapply hoare_bind; [apply hoare_Logical; reflexivity |]. intros [secret err] _.
  destruct err; [hret; reflexivity |].
  hbind hoare_deref. intros s _.
  eapply hoare_bind; [apply hoare_setexpiry; reflexivity |]. intros ar' Hu.
  hret. exact Hu.
Qed.

Lemma no_unwrap_new ar :
  hoare no_unwrap (fun r => approle.unwrap_token r.2 = approle.unwrap_token ar)
    (approle.new ar).
Proof.
  unfold approle.new.
  destruct (len0 (approle.role_id ar) && len0 (approle.secret_id ar));
    [hret; reflexivity |].
  eapply hoare_bind; [apply hoare_lift; intros; exact I |]. intros d _.
  eapply hoare_bind; [apply hoare_lift; intros; exact I |]. intros d' _.
  eapply hoare_bind.
  { apply hoare_Logical. intros tok. apply login_path_not_unwrap. }
  intros [secret err] _.
  destruct err; [hret; reflexivity |].
  hbind hoare_deref. intros s _.
  eapply hoare_bind; [apply hoare_setexpiry; reflexivity |]. intros ar' Hu.
  hret. exact Hu.
Qed.

Lemma no_unwrap_mint ar :
  approle.unwrap_token ar = "" ->
  hoare no_unwrap (fun r => approle.unwrap_token r.2 = "") (approle.mint ar).
Proof.
  intros Hu. unfold approle.mint. rewrite Hu. cbn [len0 String.eqb negb].
  eapply hoare_bind; [apply (hoare_ret _ (fun r => r = inr ar)); reflexivity |].
  intros r ->.
  destruct (len0 (approle.secret_id ar)); [hret; exact Hu |].
  hbind no_unwrap_new. intros [err ar3] Hu3. cbn [snd] in Hu3.
  destruct err; [hret; cbn; congruence |].
  hbind hoare_deref. intros a _.
  hret. cbn. congruence.
Qed.

Lemma no_unwrap_GetToken ar :
  approle.unwrap_token ar = "" ->
  hoare no_unwrap (fun r => approle.unwrap_token r.2 = "") (approle.GetToken ar).
Proof.
  intros Hu. unfold approle.GetToken.
  destruct (approle.auth ar) as [a |]; [| apply no_unwrap_mint, Hu].
  eapply hoare_bind with (Q := fun _ => True).
  { destruct (negb (len0 (hvault.ClientToken a))); [| hret; exact I].
    eapply hoare_bind; [apply hoare_Now; reflexivity |]. intros now _.
    hret. exact I. }
  intros valid _. destruct valid; [hret; exact Hu |].
  hbind no_unwrap_renew. intros [err ar1] Hu1. cbn [snd] in Hu1.
  destruct err; [apply no_unwrap_mint; congruence |].
  hbind hoare_deref. intros a1 _.
  hret. cbn. congruence.
Qed.

(** ** Every login carries a secret *)

Lemma posts_secret_new ar :
  approle.secret_id ar <> "" -> hoare posts_secret (fun _ => True) (approle.new ar).
Proof.
  intros Hs. unfold approle.new.
  destruct (len0 (approle.role_id ar) && len0 (approle.secret_id ar));
    [hret; exact I |].
  eapply hoare_bind.
  { apply (hoare_lift _
             (fun d => d = MkData (<["role_id" := VString (approle.role_id ar)]> ∅))).
    intros d [= <-]. reflexivity. }
  intros d ->.
  eapply hoare_bind.
  { apply (hoare_lift _
             (fun d => d = login_data (approle.role_id ar) (approle.secret_id ar))).
    intros d [= <-]. reflexivity. }
  intros d ->.
  eapply hoare_bind.
  { apply hoare_Logical. intros tok. right. rewrite GetString_login_data. exact Hs. }
  intros [secret err] _.
  destruct err; [hret; exact I |].
  hbind hoare_deref. intros s _.
  eapply hoare_bind; [apply hoare_setexpiry_any; intros; exact I |]. intros ar' _.
  hret. exact I.
Qed.

Lemma posts_secret_unwrap ar : hoare posts_secret (fun _ => True) (approle.unwrap ar).
Proof.
  unfold approle.unwrap.
  hbind hoare_SetToken. intros _ _.
  eapply hoare_bind; [apply hoare_Logical; intros; left; reflexivity |].
  intros [secret err] _.
  destruct err; [hret; exact I |].
  hbind hoare_deref. intros s _.
  hbind hoare_assert_Number. intros n _.
  destruct (Int64 n) as [ttl [err |]]; [hret; exact I |].
  hbind hoare_assert_string. intros sid _.
  eapply hoare_bind; [apply hoare_setexpiry_any; intros; exact I |]. intros ar' _.
  hret. exact I.
Qed.

Lemma posts_secret_renew ar : hoare posts_secret (fun _ => True) (approle.renew ar).
Proof.
  unfold approle.renew.
  hbind hoare_deref. intros a _.
  destruct (len0 (hvault.ClientToken a)); [hret; exact I |].
  hbind hoare_SetToken. intros _ _.
  eapply hoare_bind; [apply hoare_Logical; intros; left; reflexivity |].
  intros [secret err] _.
  destruct err; [hret; exact I |].
  hbind hoare_deref. intros s _.
  eapply hoare_bind; [apply hoare_setexpiry_any; intros; exact I |]. intros ar' _.
  hret. exact I.
Qed.

Lemma posts_secret_mint ar : hoare posts_secret (fun _ => True) (approle.mint ar).
Proof.
  unfold approle.mint.
  eapply hoare_bind with (Q := fun _ => True).
  { destruct (negb (len0 (approle.unwrap_token ar))); [| hret; exact I].
    hbind posts_secret_unwrap. intros [err ar1] _.
    destruct err; hret; exact I. }
  intros [returned | ar2] _; [hret; exact I |].
  destruct (len0 (approle.secret_id ar2)) eqn:E; [hret; exact I |].
  eapply hoare_bind; [apply posts_secret_new; apply String.eqb_neq; exact E |].
  intros [err ar3] _.
  destruct err; [hret; exact I |].
  hbind hoare_deref. intros a _.
  hret. exact I.
Qed.

Lemma posts_secret_GetToken ar :
  hoare posts_secret (fun _ => True) (approle.GetToken ar).
Proof.
  unfold approle.GetToken.
  destruct (approle.auth ar) as [a |]; [| apply posts_secret_mint].
  eapply hoare_bind with (Q := fun _ => True).
  { destruct (negb (len0 (hvault.ClientToken a))); [| hret; exact I].
    eapply hoare_bind; [apply hoare_Now; intros; exact I |]. intros now _.
    hret. exact I. }
  intros valid _. destruct valid; [hret; exact I |].
  hbind posts_secret_renew. intros [err ar1] _.
  destruct err; [apply posts_secret_mint |].
  hbind hoare_deref. intros a1 _.
  hret. exact I.
Qed.






(* ===================================================================== *)
(** * Callers that meet at an expired token *)
(* ===================================================================== *)

Lemma AppRole_serialized_cached e ar a : forall n w,
  approle.auth ar = Some a -> hvault.ClientToken a <> "" ->
  (forall h, env_Now e h < approle.expires ar) ->
  exists w',
    serialized n ar e w = (Ok (repeat (hvault.ClientToken a, None) n, ar), w')
    /\ rpc_count (trace w') = rpc_count (trace w).
Proof.
  induction n as [| n IH]; intros w Ea Htok Hnow.
  - exists w. split; reflexivity.
  - cbn [serialized]. step.
    change (Auth_GetToken ar) with (approle.GetToken ar).
    rewrite (AppRole_cached ar a) by auto.
    destruct (IH (emit (EvNow (env_Now e (trace w))) w) Ea Htok Hnow)
      as (w' & Hrun & Hcount).
    exists w'. unfold mbind, M_bind. rewrite Hrun. cbn [repeat mret M_ret].
    split; [reflexivity |]. rewrite Hcount. cbn [emit trace].
    rewrite rpc_count_app. cbn. lia.
Qed.

(** The Secret-Exchange provider, with a token that has expired at [t0] and
    a remote that grants the renewal with a non-empty token: of [n + 1]
    callers that arrive while the clock stays within the new lease, the first
    to take the mutex renews, the others find the renewed token; one request
    is sent in all, and every caller returns the same token. *)
Theorem AppRole_single_flight n ar a s a1 t0 e w :
  approle.auth ar = Some a -> hvault.ClientToken a <> "" ->
  hvault.Auth s = Some a1 -> hvault.ClientToken a1 <> "" ->
  (forall h tok, env_Logical e h tok renew_request = (Some s, None)) ->
  approle.expires ar <= t0 ->
  (forall h, t0 <= env_Now e h
             < t0 + time.seconds (approle.margin (hvault.LeaseDuration a1))) ->
  exists ar' w',
    serialized (S n) ar e w
    = (Ok (repeat (hvault.ClientToken a1, None) (S n), ar'), w')
    /\ rpc_count (trace w') = (rpc_count (trace w) + 1)%nat.
Proof.
  intros Ea Htok Ha1 Htok1 Hreply Hexp Hclock.
  cbn [serialized]. step.
  change (Auth_GetToken ar) with (approle.GetToken ar).
  rewrite (AppRole_renews ar a e w s a1) by (auto; specialize (Hclock (trace w)); lia).
  cbv beta iota zeta. unfold mbind, M_bind.
  match goal with
  | |- context [serialized n ?ar1 e ?w1] =>
      destruct (AppRole_serialized_cached e ar1
                  {| hvault.ClientToken := hvault.ClientToken a1;
                     hvault.LeaseDuration := approle.margin (hvault.LeaseDuration a1) |}
                  n w1) as (w' & Hrun & Hcount)
  end.
  - reflexivity.
  - exact Htok1.
  - intros h. cbn [expiry_set approle.expires approle.set_expires]. unfold time.Add.
    match goal with |- _ < env_Now e ?h1 + _ => pose proof (Hclock h1) end.
    specialize (Hclock h). lia.
  - eexists _, w'. rewrite Hrun. cbn [repeat mret M_ret hvault.ClientToken].
    split; [reflexivity |]. rewrite Hcount. cbn [emit trace set_token].
    rewrite !rpc_count_app. cbn. lia.
Qed.

(** The theorem on three callers of an [AppRole] whose token expired at
    [100], at a clock of [200]. *)
Lemma AppRole_single_flight_witness :
  exists ar' w',
    serialized 3 expired_role granting start
    = (Ok ([("t1", None); ("t1", None); ("t1", None)], ar'), w')
    /\ rpc_count (trace w') = 1%nat.
Proof.
  refine (AppRole_single_flight 2 expired_role _
            {| hvault.Data := NilData;
               hvault.Auth := Some {| hvault.ClientToken := "t1";
                                      hvault.LeaseDuration := 3600 |} |}
            _ 200 granting start eq_refl _ eq_refl _ _ _ _).
  - discriminate.
  - discriminate.
  - intros h tok. reflexivity.
  - change (100 <= 200). lia.
  - intros h. change (200 <= 200 < 200 + 3590000000000). lia.
Defined.

(* ===================================================================== *)
(** * The payload record, field by field *)
(* ===================================================================== *)

Lemma Set_payload_assign m field p :
  Set_payload (MkData m) field p
  = Ok (MkData (<[field := VString (payload_text p)]> m)).
Proof. destruct p; reflexivity. Qed.

Lemma same_reads_lookup m m' g : m' !! g = m !! g -> same_reads (MkData m) (MkData m') g.
Proof.
  intros E. unfold same_reads, Exist, GetString, GetBool, GetUint64, GetBytes, field_value.
  rewrite E. repeat split.
Qed.

(** Each of [SetString], [SetBool], [SetUint64] and [SetBytes], on an
    allocated record, stores a string in its field and touches nothing else:
    the field exists afterwards and [GetString] returns the text the setter
    stored, and at every other field [Exist] and the four getters answer as
    before. *)
Theorem setters_touch_one_field m field p :
  exists m',
    Set_payload (MkData m) field p = Ok (MkData m')
    /\ Exist (MkData m') field = true
    /\ GetString (MkData m') field = payload_text p
    /\ (forall g, g <> field -> same_reads (MkData m) (MkData m') g).
Proof.
  eexists. split; [apply Set_payload_assign |]. split; [| split].
  - cbn. rewrite lookup_insert_eq. reflexivity.
  - unfold GetString. rewrite field_value_assign. reflexivity.
  - intros g Hg. apply same_reads_lookup. apply lookup_insert_ne. congruence.
Qed.

(** The theorem on a record that holds ["name"], when ["count"] is set. *)
Lemma setters_touch_one_field_witness :
  exists m',
    SetUint64 (MkData (<["name" := VString "db"]> ∅)) "count" 7 = Ok (MkData m')
    /\ GetString (MkData m') "count" = "7"
    /\ GetString (MkData m') "name" = "db".
Proof.
  destruct (setters_touch_one_field (<["name" := VString "db"]> ∅) "count" (PUint64 7))
    as (m' & Hset & _ & Hget & Hframe).
  exists m'. split; [exact Hset |]. split; [exact Hget |].
  destruct (Hframe "name" ltac:(discriminate)) as (_ & Hname & _).
  rewrite Hname. reflexivity.
Defined.

(** Setters compose as writes to a map: a second write to the same field
    replaces the first, whatever the two kinds of payload, and writes to two
    different fields give the same record in either order. *)
Theorem setters_compose m f g p q :
  (exists d1 d2, Set_payload (MkData m) f p = Ok d1 /\ Set_payload d1 f q = Ok d2
                 /\ Set_payload (MkData m) f q = Ok d2)
  /\ (f <> g ->
      exists d1 d2 d12,
        Set_payload (MkData m) f p = Ok d1 /\ Set_payload (MkData m) g q = Ok d2
        /\ Set_payload d1 g q = Ok d12 /\ Set_payload d2 f p = Ok d12).
Proof.
  split.
  - eexists _, _. split; [apply Set_payload_assign |].
    split; [apply Set_payload_assign |].
    rewrite Set_payload_assign, insert_insert_eq. reflexivity.
  - intros Hfg. eexists _, _, _. split; [apply Set_payload_assign |].
    split; [apply Set_payload_assign |]. split; [apply Set_payload_assign |].
    rewrite Set_payload_assign. do 2 f_equal. apply insert_insert_ne. congruence.
Qed.

(** The theorem on a flag and a counter set in either order. *)
Lemma setters_compose_witness :
  exists d1 d2 d12,
    SetBool NewData "enabled" true = Ok d1 /\ SetUint64 NewData "count" 7 = Ok d2
    /\ SetUint64 d1 "count" 7 = Ok d12 /\ SetBool d2 "enabled" true = Ok d12.
Proof.
  apply (proj2 (setters_compose ∅ "enabled" "count" (PBool true) (PUint64 7))).
  discriminate.
Defined.



Lemma eqb_In s l : existsb (String.eqb s) l = true <-> In s l.
Proof.
  rewrite existsb_exists. split.
  - intros (x & Hx & E). apply String.eqb_eq in E. subst. exact Hx.
  - intros Hin. exists s. split; [exact Hin | apply String.eqb_refl].
Qed.

Lemma ParseBool_true v : fst (strconv.ParseBool v) = true <-> In v true_spellings.
Proof.
  rewrite <- eqb_In. unfold strconv.ParseBool, true_spellings. cbn [existsb].
  rewrite orb_false_r, !orb_assoc.
  match goal with
  | |- context [if ?b then (true, None) else _] => destruct b
  end; [tauto |].
  match goal with
  | |- context [if ?b then _ else _] => destruct b
  end; cbn; split; discriminate.
Qed.

(** [GetBool] returns true exactly when the field holds one of the six texts
    ["1"], ["t"], ["T"], ["TRUE"], ["true"], ["True"]; every other text, and
    every value that is not a string, reads as false, without an error. *)
Theorem GetBool_true_iff d field :
  GetBool d field = true
  <-> exists v, field_value d field = VString v /\ In v true_spellings.
Proof.
  unfold GetBool. destruct (field_value d field) as [| v | | |];
    try (split; [discriminate | intros (v' & E & _); discriminate]).
  rewrite ParseBool_true. split.
  - intros Hin. exists v. auto.
  - intros (v' & [= <-] & Hin). exact Hin.
Qed.

Lemma digit_value_range c d : strconv.digit_value c = Some d -> 0 <= d < 10.
Proof.
  unfold strconv.digit_value. cbv zeta.
  destruct (Z.leb_spec 48 (Z.of_N (N_of_ascii c)));
    destruct (Z.leb_spec (Z.of_N (N_of_ascii c)) 57); cbn; intros [= <-]; lia.
Qed.

Lemma decimal_ge cs : forall n v, 0 <= n -> decimal cs n = Some v -> n <= v.
Proof.
  induction cs as [| c cs IH]; intros n v Hn; cbn.
  - intros [= <-]. lia.
  - destruct (strconv.digit_value c) as [d |] eqn:Ed; [| discriminate].
    apply digit_value_range in Ed. intros Hv. apply IH in Hv; lia.
Qed.

(** The loop of [ParseUint] on a run of digits: the number, or the largest
    [uint64] with a range error as soon as the number passes it. *)
Lemma parseUint_loop_decimal cs : forall n v,
  0 <= n <= Int.maxUint64 -> decimal cs n = Some v ->
  strconv.parseUint_loop cs n
  = if v <=? Int.maxUint64 then (v, None) else (Int.maxUint64, Some strconv.ErrRange).
Proof.
  unfold Int.maxUint64. change (2 ^ 64 - 1) with 18446744073709551615.
  induction cs as [| c cs IH]; intros n v Hn; cbn [decimal strconv.parseUint_loop].
  - intros [= <-]. destruct (Z.leb_spec n 18446744073709551615); [reflexivity | lia].
  - destruct (strconv.digit_value c) as [d |] eqn:Ed; [| discriminate].
    pose proof (digit_value_range _ _ Ed) as Hd. intros Hv.
    assert (Hge : n * 10 + d <= v) by (apply (decimal_ge cs); [lia | exact Hv]).
    unfold strconv.cutoff10, Int.maxUint64, Int.wrap_uint64.
    change (2 ^ 64 - 1) with 18446744073709551615.
    change (18446744073709551615 / 10 + 1) with 1844674407370955162.
    change (2 ^ 64) with 18446744073709551616.
    destruct (Z.leb_spec 1844674407370955162 n).
    { destruct (Z.leb_spec v 18446744073709551615); [lia | reflexivity]. }
    cbv zeta.
    destruct (Z_lt_ge_dec (n * 10 + d) 18446744073709551616) as [Hfit | Hover].
    + rewrite Z.mod_small by lia.
      destruct (Z.ltb_spec (n * 10 + d) (n * 10)); [lia |].
      destruct (Z.ltb_spec 18446744073709551615 (n * 10 + d)); [lia |].
      cbn [orb]. apply IH; [lia | exact Hv].
    + assert ((n * 10 + d) mod 18446744073709551616 = n * 10 + d - 18446744073709551616)
        as -> by (symmetry; apply Z.mod_unique_pos with (q := 1); lia).
      destruct (Z.ltb_spec (n * 10 + d - 18446744073709551616) (n * 10)); [| lia].
      cbn [orb]. destruct (Z.leb_spec v 18446744073709551615); [lia | reflexivity].
Qed.

(** [GetUint64] on a field that holds a string: a non-empty run of decimal
    digits reads as the number it denotes, capped at the largest [uint64]
    (the range error of [ParseUint] is dropped and the value it returns with
    it is kept); the empty string, and a string whose first character is
    not a digit (a sign, a space, a letter), read as zero. *)
Theorem GetUint64_decimal d field s :
  field_value d field = VString s ->
  (forall v, s <> "" -> decimal (list_ascii_of_string s) 0 = Some v ->
             GetUint64 d field = Z.min v Int.maxUint64)
  /\ (s = "" -> GetUint64 d field = 0)
  /\ (forall c rest, s = String c rest -> strconv.digit_value c = None ->
                     GetUint64 d field = 0).
Proof.
  intros Hs. unfold GetUint64. rewrite Hs. split; [| split].
  - intros v Hne Hv. unfold strconv.ParseUint.
    destruct s as [| c rest]; [congruence |].
    rewrite (parseUint_loop_decimal _ 0 v) by (unfold Int.maxUint64; cbn; lia || exact Hv).
    destruct (Z.leb_spec v Int.maxUint64); cbn [fst]; lia.
  - intros ->. reflexivity.
  - intros c rest -> Hc. cbn. rewrite Hc. reflexivity.
Qed.

(** The theorem on the text of [2 ^ 64], one more than the largest
    [uint64], and on a negative number. *)
Lemma GetUint64_decimal_witness :
  GetUint64 (MkData (<["n" := VString "18446744073709551616"]> ∅)) "n"
  = 18446744073709551615
  /\ GetUint64 (MkData (<["n" := VString "-1"]> ∅)) "n" = 0.
Proof.
  split.
  - refine (proj1 (GetUint64_decimal _ "n" "18446744073709551616" _)
              18446744073709551616 _ _).
    + apply field_value_assign.
    + discriminate.
    + reflexivity.
  - refine (proj2 (proj2 (GetUint64_decimal _ "n" "-1" _)) "-"%char "1" eq_refl eq_refl).
    apply field_value_assign.
Defined.

(** [GetBytes] returns bytes and no error exactly when the field holds a
    string that is not empty and is padded base64 text of the URL alphabet
    (line breaks apart). *)
Theorem GetBytes_ok_iff d field :
  snd (GetBytes d field) = None
  <-> exists v, field_value d field = VString v /\ v <> "" /\ is_base64url v = true.
Proof.
  unfold GetBytes. destruct (field_value d field) as [| v | | |];
    try (split; [discriminate | intros (v' & E & _); discriminate]).
  destruct v as [| c rest].
  - split; [discriminate | intros (v' & [= <-] & Hne & _); congruence].
  - pose proof (DecodeString_ok_iff (String c rest)) as Hiff.
    destruct (base64.DecodeString (String c rest)) as [bytes [[offset] |]];
      cbn [snd] in *.
    + split; [discriminate |].
      intros (v' & [= <-] & _ & Hd). apply Hiff in Hd. discriminate.
    + split; [| reflexivity]. intros _. eexists.
      split; [reflexivity |]. split; [discriminate | apply Hiff; reflexivity].
Qed.

(** A getter of one type on the text a setter of another type stored: after
    [SetUint64] of [n], [GetBool] is true exactly for [n = 1] (the text
    ["1"]); after [SetBool], [GetUint64] is zero. *)
Theorem typed_text_read_as_another_type m field :
  (forall n, 0 <= n <= Int.maxUint64 ->
     exists d, SetUint64 (MkData m) field n = Ok d /\ GetBool d field = (n =? 1))
  /\ (forall b, exists d, SetBool (MkData m) field b = Ok d /\ GetUint64 d field = 0).
Proof.
  split.
  - intros n Hn. eexists. split; [reflexivity |].
    unfold GetBool. rewrite field_value_assign.
    destruct (Z.eqb_spec n 1) as [-> | Hne]; [reflexivity |].
    destruct (fst (strconv.ParseBool (strconv.FormatUint n))) eqn:Eb; [| reflexivity].
    exfalso. apply ParseBool_true in Eb.
    pose proof (ParseUint_FormatUint n Hn) as Hp.
    unfold true_spellings in Eb. cbn [In] in Eb.
    destruct Eb as [E | [E | [E | [E | [E | [E | []]]]]]];
      rewrite <- E in Hp; vm_compute in Hp; congruence.
  - intros [|]; eexists; (split; [reflexivity |]);
      unfold GetUint64; rewrite field_value_assign; reflexivity.
Qed.

(** The theorem at [1] and at [10]. *)
Lemma typed_text_read_as_another_type_witness :
  (exists d, SetUint64 NewData "n" 1 = Ok d /\ GetBool d "n" = true)
  /\ (exists d, SetUint64 NewData "n" 10 = Ok d /\ GetBool d "n" = false).
Proof.
  split.
  - apply (proj1 (typed_text_read_as_another_type ∅ "n") 1).
    unfold Int.maxUint64. cbn. lia.
  - apply (proj1 (typed_text_read_as_another_type ∅ "n") 10).
    unfold Int.maxUint64. cbn. lia.
Defined.

(* ===================================================================== *)
(** * The error records *)
(* ===================================================================== *)

Lemma list_ascii_of_append a b :
  list_ascii_of_string (a +:+ b) = list_ascii_of_string a ++ list_ascii_of_string b.
Proof.
  induction a as [| c a IH]; [reflexivity |].
  change (String c a +:+ b) with (String c (a +:+ b)).
  cbn [list_ascii_of_string app]. f_equal. exact IH.
Qed.

Lemma append_inv_tail k k' s : k +:+ s = k' +:+ s -> k = k'.
Proof.
  intros E. apply (f_equal list_ascii_of_string) in E.
  rewrite !list_ascii_of_append in E. apply app_inv_tail in E.
  apply (f_equal string_of_list_ascii) in E.
  rewrite !string_of_list_ascii_of_string in E. exact E.
Qed.

Section Matching.
Variable Quote : string -> string.

(** The records compare by rendered message.  A [KeyError] matches a fresh
    [KeyError] exactly when the keys are equal, and likewise a [FieldError];
    a [KeyError] and a [FieldError] never match; a [ListError] matches a
    [ListError] of the same path whatever the two root paths.  A [KeyError]
    matches any target that renders the same text, so also a plain error
    with that text, while the plain error does not match the [KeyError].
    [errors.Is] looks through the wrappers of [fmt.Errorf]. *)
Theorem records_match_by_message :
  (forall k k', errors.Is Quote (NewKeyError k) (NewKeyError k') = true <-> k = k')
  /\ (forall f f', errors.Is Quote (NewFieldError f) (NewFieldError f') = true <-> f = f')
  /\ (forall k f, errors.Is Quote (NewKeyError k) (NewFieldError f) = false
                  /\ errors.Is Quote (NewFieldError f) (NewKeyError k) = false)
  /\ (forall root root' path,
        errors.Is Quote (NewListError root path) (NewListError root' path) = true)
  /\ (forall k target,
        errors.Is Quote (NewKeyError k) target = true
        <-> errors.Error Quote target = "vault: key " +:+ k +:+ " does not exist")
  /\ (forall k, errors.Is Quote (NewKeyError k) (errorString (errors.ErrKeyNotFound k)) = true
                /\ errors.Is Quote (errorString (errors.ErrKeyNotFound k)) (NewKeyError k)
                   = false)
  /\ (forall prefix err target,
        errors.Is Quote (wrapError prefix err) target = errors.Is Quote err target).
Proof.
  split; [| split; [| split; [| split; [| split; [| split]]]]].
  - intros k k'. cbn. rewrite String.eqb_eq. split; [| congruence].
    intros [= E]. apply (append_inv_tail k _ " does not exist"). exact E.
  - intros f f'. cbn. rewrite String.eqb_eq. split; [| congruence].
    intros [= E]. apply (append_inv_tail f _ " does not exist"). exact E.
  - intros k f. split; reflexivity.
  - intros root root' path. cbn. apply String.eqb_refl.
  - intros k target.
    change (errors.Is Quote (NewKeyError k) target)
      with (String.eqb (errors.ErrKeyNotFound k) (errors.Error Quote target)).
    rewrite String.eqb_eq. unfold errors.ErrKeyNotFound. split; intros E; symmetry; exact E.
  - intros k. split; [cbn; apply String.eqb_refl | reflexivity].
  - reflexivity.
Qed.

End Matching.

(** The theorem on two keys. *)
Lemma records_match_by_message_witness :
  errors.Is (fun s => s) (NewKeyError "a/b") (NewKeyError "a/b") = true
  /\ errors.Is (fun s => s) (NewKeyError "a/b") (NewKeyError "a/c") <> true.
Proof.
  destruct (records_match_by_message (fun s => s)) as (Hkey & _).
  split.
  - apply (Hkey "a/b" "a/b"). reflexivity.
  - intros E. apply (Hkey "a/b" "a/c") in E. discriminate E.
Defined.

(* ===================================================================== *)
(** * The operations of the facade, reply by reply *)
(* ===================================================================== *)

Section Operations.
Context {A : Type} `{Auth A}.

Ltac seal_check E :=
  unfold client.Read, client.Write, client.Delete, client.List;
  step; unfold client.IsSealed; step; unfold SealStatus at 1; rewrite E.

(** When the seal-status query fails, [IsSealed] reports sealed together
    with the error, and each of [Read], [Write], [Delete] and [List] returns
    that error as [IsSealed] wrapped it, without a prefix of its own; the
    provider is not called and nothing else is sent.  When the query returns
    neither a status nor an error, [IsSealed] and the four operations
    panic. *)
Theorem seal_check_failure (v : client.Client A) (path : string) (d : Data) e w :
  (forall x err, env_SealStatus e (trace w) = (x, Some err) ->
     let failed := wrapError "issealed: seal status: " err in
     let w1 := emit EvSealStatus w in
     client.IsSealed v e w = (Ok (true, Some failed), w1)
     /\ client.Read v path e w = (Ok ((NilData, Some failed), v), w1)
     /\ client.Write v path d e w = (Ok ((NilData, Some failed), v), w1)
     /\ client.Delete v path e w = (Ok ((NilData, Some failed), v), w1)
     /\ client.List v path e w = (Ok (([], Some failed), v), w1))
  /\ (env_SealStatus e (trace w) = (None, None) ->
      let w1 := emit EvSealStatus w in
      client.IsSealed v e w = (Panic nil_deref, w1)
      /\ client.Read v path e w = (Panic nil_deref, w1)
      /\ client.Write v path d e w = (Panic nil_deref, w1)
      /\ client.Delete v path e w = (Panic nil_deref, w1)
      /\ client.List v path e w = (Panic nil_deref, w1)).
Proof.
  split.
  - intros x err E failed w1. repeat split.
    + unfold client.IsSealed. step. unfold SealStatus at 1. rewrite E. reflexivity.
    + seal_check E. reflexivity.
    + seal_check E. reflexivity.
    + seal_check E. reflexivity.
    + seal_check E. reflexivity.
  - intros E w1. repeat split.
    + unfold client.IsSealed. step. unfold SealStatus at 1. rewrite E. reflexivity.
    + seal_check E. reflexivity.
    + seal_check E. reflexivity.
    + seal_check E. reflexivity.
    + seal_check E. reflexivity.
Qed.

(** The four operations up to the call of the provider, and up to the data
    request. *)
Ltac to_provider Eseal Etok :=
  unfold client.Read, client.Write, client.Delete, client.List;
  step; rewrite (IsSealed_reply _ _ _ _ Eseal); cbn [hvault.Sealed];
  step; cbn [called_GetToken]; step; rewrite Etok.

Ltac to_request Eseal Etok :=
  to_provider Eseal Etok;
  step; cbn [c_SetToken]; step; unfold Logical;
  cbn [client_token trace client.store client.set_auth].

(** With the service unsealed, when the provider's [GetToken] returns an
    error, each operation returns it wrapped under its prefix (["read: "],
    ["write: "], ["delete: "], and ["delete: "] for [List] as well) and sends
    no data request: the run ends where [GetToken] left the world, and the
    client keeps the provider as [GetToken] left it. *)
Theorem provider_failure (v : client.Client A) (path tok : string) (d : Data)
    (err : error) (a' : A) e w w1 :
  env_SealStatus e (trace w) = unsealed_reply ->
  Auth_GetToken (client.auth v) e (emit EvGetToken (emit EvSealStatus w))
    = (Ok ((tok, Some err), a'), w1) ->
  let v' := client.set_auth v a' in
  client.Read v path e w = (Ok ((NilData, Some (wrapError "read: " err)), v'), w1)
  /\ client.Write v path d e w = (Ok ((NilData, Some (wrapError "write: " err)), v'), w1)
  /\ client.Delete v path e w = (Ok ((NilData, Some (wrapError "delete: " err)), v'), w1)
  /\ client.List v path e w = (Ok (([], Some (wrapError "delete: " err)), v'), w1).
Proof.
  intros Eseal Etok v'. repeat split; to_provider Eseal Etok; reflexivity.
Qed.

Lemma Read_run (v : client.Client A) (path tok : string) (a' : A) e w w1 :
  env_SealStatus e (trace w) = unsealed_reply ->
  Auth_GetToken (client.auth v) e (emit EvGetToken (emit EvSealStatus w))
    = (Ok ((tok, None), a'), w1) ->
  let req := hvault.Read (client.store v +:+ "/" +:+ path) in
  let w2 := emit (EvLogical tok req) (set_token tok w1) in
  let v' := client.set_auth v a' in
  client.Read v path e w =
    match env_Logical e (trace w1) tok req with
    | (_, Some err) => (Ok ((NilData, Some (wrapError "read: " err)), v'), w2)
    | (None, None) => (Ok ((NilData, Some (wrapError "read: " (NewKeyError path))), v'), w2)
    | (Some s, None) => (Ok ((hvault.Data s, None), v'), w2)
    end.
Proof.
  intros Eseal Etok req w2 v'. to_request Eseal Etok. fold req.
  destruct (env_Logical e (trace w1) tok req) as [[s |] [err |]]; reflexivity.
Qed.

Lemma Write_run (v : client.Client A) (path tok : string) (d : Data) (a' : A) e w w1 :
  env_SealStatus e (trace w) = unsealed_reply ->
  Auth_GetToken (client.auth v) e (emit EvGetToken (emit EvSealStatus w))
    = (Ok ((tok, None), a'), w1) ->
  let req := hvault.Write (client.store v +:+ "/" +:+ path) d in
  let w2 := emit (EvLogical tok req) (set_token tok w1) in
  let v' := client.set_auth v a' in
  client.Write v path d e w =
    match env_Logical e (trace w1) tok req with
    | (_, Some err) => (Ok ((NilData, Some (wrapError "write: " err)), v'), w2)
    | (None, None) => (Ok ((NilData, None), v'), w2)
    | (Some s, None) => (Ok ((hvault.Data s, None), v'), w2)
    end.
Proof.
  intros Eseal Etok req w2 v'. to_request Eseal Etok. fold req.
  destruct (env_Logical e (trace w1) tok req) as [[s |] [err |]]; try reflexivity.
  destruct (hvault.Data s); reflexivity.
Qed.

Lemma Delete_run (v : client.Client A) (path tok : string) (a' : A) e w w1 :
  env_SealStatus e (trace w) = unsealed_reply ->
  Auth_GetToken (client.auth v) e (emit EvGetToken (emit EvSealStatus w))
    = (Ok ((tok, None), a'), w1) ->
  let req := hvault.Delete (client.store v +:+ "/" +:+ path) in
  let w2 := emit (EvLogical tok req) (set_token tok w1) in
  let v' := client.set_auth v a' in
  client.Delete v path e w =
    match env_Logical e (trace w1) tok req with
    | (_, Some err) => (Ok ((NilData, Some (wrapError "delete: " err)), v'), w2)
    | (None, None) => (Ok ((NilData, None), v'), w2)
    | (Some s, None) => (Ok ((hvault.Data s, None), v'), w2)
    end.
Proof.
  intros Eseal Etok req w2 v'. to_request Eseal Etok. fold req.
  destruct (env_Logical e (trace w1) tok req) as [[s |] [err |]]; reflexivity.
Qed.

(** With the service unsealed and a token at hand, [Write] and [Delete] send
    one request, at the path [store/path] and under the token the provider
    returned.  An error of the request comes back wrapped under ["write: "]
    or ["delete: "]; a reply without a secret gives nil data and no error
    (so [Delete] does not tell whether the path existed); a reply with a
    secret gives its data. *)
Theorem Write_and_Delete_replies (v : client.Client A) (path tok : string)
    (d : Data) (a' : A) e w w1 :
  env_SealStatus e (trace w) = unsealed_reply ->
  Auth_GetToken (client.auth v) e (emit EvGetToken (emit EvSealStatus w))
    = (Ok ((tok, None), a'), w1) ->
  let wr := hvault.Write (client.store v +:+ "/" +:+ path) d in
  let del := hvault.Delete (client.store v +:+ "/" +:+ path) in
  let after req := emit (EvLogical tok req) (set_token tok w1) in
  let v' := client.set_auth v a' in
  (forall x err, env_Logical e (trace w1) tok wr = (x, Some err) ->
     client.Write v path d e w
     = (Ok ((NilData, Some (wrapError "write: " err)), v'), after wr))
  /\ (env_Logical e (trace w1) tok wr = (None, None) ->
      client.Write v path d e w = (Ok ((NilData, None), v'), after wr))
  /\ (forall s, env_Logical e (trace w1) tok wr = (Some s, None) ->
      client.Write v path d e w = (Ok ((hvault.Data s, None), v'), after wr))
  /\ (forall x err, env_Logical e (trace w1) tok del = (x, Some err) ->
      client.Delete v path e w
      = (Ok ((NilData, Some (wrapError "delete: " err)), v'), after del))
  /\ (env_Logical e (trace w1) tok del = (None, None) ->
      client.Delete v path e w = (Ok ((NilData, None), v'), after del))
  /\ (forall s, env_Logical e (trace w1) tok del = (Some s, None) ->
      client.Delete v path e w = (Ok ((hvault.Data s, None), v'), after del)).
Proof.
  intros Eseal Etok wr del after v'.
  pose proof (Write_run v path tok d a' e w w1 Eseal Etok) as Hw.
  pose proof (Delete_run v path tok a' e w w1 Eseal Etok) as Hd.
  cbv zeta in Hw, Hd. fold wr in Hw. fold del in Hd.
  repeat split.
  - intros x err E. rewrite Hw, E. destruct x; reflexivity.
  - intros E. rewrite Hw, E. reflexivity.
  - intros s E. rewrite Hw, E. reflexivity.
  - intros x err E. rewrite Hd, E. destruct x; reflexivity.
  - intros E. rewrite Hd, E. reflexivity.
  - intros s E. rewrite Hd, E. reflexivity.
Qed.

Section Keys.
Variable Quote : string -> string.

(** With the service unsealed and a token at hand, [List] returns an error
    of the list request as it is, without a prefix, and answers a reply
    without a secret with the [ListError] of the path, not wrapped either;
    that error matches a fresh [NewListError] of the same path under any
    root, and its message quotes the path alone. *)
Theorem List_errors (v : client.Client A) (path tok : string) (a' : A) e w w1 :
  env_SealStatus e (trace w) = unsealed_reply ->
  Auth_GetToken (client.auth v) e (emit EvGetToken (emit EvSealStatus w))
    = (Ok ((tok, None), a'), w1) ->
  let req := hvault.List (client.store v +:+ "/" +:+ path) in
  let w2 := emit (EvLogical tok req) (set_token tok w1) in
  let v' := client.set_auth v a' in
  (forall x err, env_Logical e (trace w1) tok req = (x, Some err) ->
     client.List v path e w = (Ok (([], Some err), v'), w2))
  /\ (env_Logical e (trace w1) tok req = (None, None) ->
      client.List v path e w
      = (Ok (([], Some (NewListError (client.store v) path)), v'), w2))
  /\ (forall root, errors.Is Quote (NewListError (client.store v) path)
                     (NewListError root path) = true)
  /\ errors.Error Quote (NewListError (client.store v) path)
     = "list: no keys found for given path " +:+ Quote path.
Proof.
  intros Eseal Etok req w2 v'. split; [| split; [| split]].
  - intros x err E. to_request Eseal Etok. fold req. rewrite E.
    destruct x; reflexivity.
  - intros E. to_request Eseal Etok. fold req. rewrite E. reflexivity.
  - intros root. cbn. apply String.eqb_refl.
  - reflexivity.
Qed.

(** [ReadKey], with the service unsealed and a token at hand.  When the
    remote holds no secret at the path the error is the missing-key error
    under ["get: read: "], which [errors.Is] matches against a fresh
    [NewKeyError(path)].  When the secret's field is absent, is not a
    string, or is the empty string, the error is the [FieldError] of the
    field under ["get: "], which matches a fresh [NewFieldError(field)] and
    no [KeyError].  Otherwise the field's text is returned. *)
Theorem ReadKey_outcomes (v : client.Client A) (path field tok : string) (a' : A)
    e w w1 :
  env_SealStatus e (trace w) = unsealed_reply ->
  Auth_GetToken (client.auth v) e (emit EvGetToken (emit EvSealStatus w))
    = (Ok ((tok, None), a'), w1) ->
  let req := hvault.Read (client.store v +:+ "/" +:+ path) in
  let w2 := emit (EvLogical tok req) (set_token tok w1) in
  let v' := client.set_auth v a' in
  let no_key := wrapError "get: " (wrapError "read: " (NewKeyError path)) in
  let no_field := wrapError "get: " (NewFieldError field) in
  (env_Logical e (trace w1) tok req = (None, None) ->
     client.ReadKey v path field e w = (Ok (("", Some no_key), v'), w2))
  /\ (forall s, env_Logical e (trace w1) tok req = (Some s, None) ->
        GetString (hvault.Data s) field = "" ->
        client.ReadKey v path field e w = (Ok (("", Some no_field), v'), w2))
  /\ (forall s, env_Logical e (trace w1) tok req = (Some s, None) ->
        GetString (hvault.Data s) field <> "" ->
        client.ReadKey v path field e w
        = (Ok ((GetString (hvault.Data s) field, None), v'), w2))
  /\ errors.Is Quote no_key (NewKeyError path) = true
  /\ errors.Is Quote no_field (NewFieldError field) = true
  /\ errors.Is Quote no_field (NewKeyError path) = false
  /\ errors.Error Quote no_key = "get: read: vault: key " +:+ path +:+ " does not exist"
  /\ errors.Error Quote no_field = "get: vault: field " +:+ field +:+ " does not exist".
Proof.
  intros Eseal Etok req w2 v' no_key no_field.
  pose proof (Read_run v path tok a' e w w1 Eseal Etok) as Hr.
  cbv zeta in Hr. fold req in Hr.
  split; [| split; [| split]].
  - intros E. unfold client.ReadKey. step. rewrite Hr, E. reflexivity.
  - intros s E Hs. unfold client.ReadKey. step. rewrite Hr, E.
    cbv beta iota zeta. rewrite Hs. reflexivity.
  - intros s E Hs. unfold client.ReadKey. step. rewrite Hr, E.
    cbv beta iota zeta. rewrite (len0_false _ Hs). reflexivity.
  - repeat split; cbn; try apply String.eqb_refl.
Qed.

(** [WriteKey], with the service unsealed and a token at hand, is a read
    followed by a write: when the remote holds a secret at the path, what
    [WriteKey] does after the read is [Write] of the data just read with the
    one field set to the new string, so the other fields are written back as
    they were read.  When the remote holds no secret at the path, [WriteKey]
    fails with the missing-key error under ["writekey: read: "] and writes
    nothing, so it does not create a path.  When the secret carries no data
    map, the assignment panics. *)
Theorem WriteKey_read_modify_write (v : client.Client A) (path field value tok : string)
    (a' : A) e w w1 :
  env_SealStatus e (trace w) = unsealed_reply ->
  Auth_GetToken (client.auth v) e (emit EvGetToken (emit EvSealStatus w))
    = (Ok ((tok, None), a'), w1) ->
  let req := hvault.Read (client.store v +:+ "/" +:+ path) in
  let w2 := emit (EvLogical tok req) (set_token tok w1) in
  let v' := client.set_auth v a' in
  let no_key := wrapError "writekey: " (wrapError "read: " (NewKeyError path)) in
  (forall s m, env_Logical e (trace w1) tok req = (Some s, None) ->
     hvault.Data s = MkData m ->
     client.WriteKey v path field value e w
     = client.Write v' path (MkData (<[field := VString value]> m)) e w2)
  /\ (env_Logical e (trace w1) tok req = (None, None) ->
      client.WriteKey v path field value e w = (Ok ((NilData, Some no_key), v'), w2)
      /\ errors.Is Quote no_key (NewKeyError path) = true)
  /\ (forall s, env_Logical e (trace w1) tok req = (Some s, None) ->
      hvault.Data s = NilData ->
      client.WriteKey v path field value e w = (Panic nil_map, w2)).
Proof.
  intros Eseal Etok req w2 v' no_key.
  pose proof (Read_run v path tok a' e w w1 Eseal Etok) as Hr.
  cbv zeta in Hr. fold req in Hr.
  split; [| split].
  - intros s m E Hm. unfold client.WriteKey. step. rewrite Hr, E.
    cbv beta iota zeta. rewrite Hm. reflexivity.
  - intros E. split; [| cbn; apply String.eqb_refl].
    unfold client.WriteKey. step. rewrite Hr, E. reflexivity.
  - intros s E Hm. unfold client.WriteKey. step. rewrite Hr, E.
    cbv beta iota zeta. rewrite Hm. reflexivity.
Qed.

End Keys.
End Operations.

(** The theorem on a service whose status query is refused, and on one that
    returns no status. *)
Lemma seal_check_failure_witness :
  client.Read kv "test" unreachable start
  = (Ok ((NilData,
          Some (wrapError "issealed: seal status: " (errorString "connection refused"))),
         kv), emit EvSealStatus start)
  /\ client.List kv "test" silent_service start = (Panic nil_deref, emit EvSealStatus start).
Proof.
  split.
  - destruct (proj1 (seal_check_failure kv "test" NilData unreachable start)
                None (errorString "connection refused") eq_refl) as (_ & HR & _).
    exact HR.
  - destruct (proj2 (seal_check_failure kv "test" NilData silent_service start) eq_refl)
      as (_ & _ & _ & _ & HL).
    exact HL.
Defined.

(** The theorem on a client whose provider has no secret. *)
Lemma provider_failure_witness :
  client.Write kv_no_secret "test" NewData granting start
  = (Ok ((NilData, Some (wrapError "write: " missing_secret_id)), kv_no_secret),
     with_trace start [EvSealStatus; EvGetToken])
  /\ client.List kv_no_secret "test" granting start
     = (Ok (([], Some (wrapError "delete: " missing_secret_id)), kv_no_secret),
        with_trace start [EvSealStatus; EvGetToken]).
Proof.
  destruct (provider_failure kv_no_secret "test" "" NewData missing_secret_id
              (approle.NewAppRole approle.AppRolePath "app" "role") granting start
              (with_trace start [EvSealStatus; EvGetToken]) eq_refl eq_refl)
    as (_ & HW & _ & HL).
  split; [exact HW | exact HL].
Defined.

(** The theorem on a remote that answers a write with a secret without
    data. *)
Lemma Write_and_Delete_replies_witness :
  exists v' w', client.Write kv "test" NewData granting start = (Ok ((NilData, None), v'), w').
Proof.
  eexists _, _.
  refine (proj1 (proj2 (proj2 (Write_and_Delete_replies kv "test" _ NewData _
                                 granting start _ eq_refl eq_refl))) _ eq_refl).
Defined.

(** The theorem on a remote that has nothing to list. *)
Lemma List_errors_witness :
  exists v' w',
    client.List kv "dir" no_listing start
    = (Ok (([], Some (NewListError "kv" "dir")), v'), w').
Proof.
  eexists _, _.
  refine (proj1 (proj2 (List_errors (fun s => s) kv "dir" _ _ no_listing start _
                          eq_refl eq_refl)) eq_refl).
Defined.

(** The theorem on a secret whose ["note"] is the empty string and whose
    ["password"] is set. *)
Lemma ReadKey_outcomes_witness :
  (exists v' w',
     client.ReadKey kv "app" "note" holding start
     = (Ok (("", Some (wrapError "get: " (NewFieldError "note"))), v'), w'))
  /\ (exists v' w',
        client.ReadKey kv "app" "password" holding start = (Ok (("hunter2", None), v'), w')).
Proof.
  split.
  - eexists _, _.
    refine (proj1 (proj2 (ReadKey_outcomes (fun s => s) kv "app" "note" _ _ holding start _
                            eq_refl eq_refl)) _ eq_refl _).
    reflexivity.
  - eexists _, _.
    refine (proj1 (proj2 (proj2 (ReadKey_outcomes (fun s => s) kv "app" "password" _ _
                                   holding start _ eq_refl eq_refl))) _ eq_refl _).
    vm_compute. discriminate.
Defined.

(** The theorem on a store that holds nothing at ["missing"]: no write is
    sent. *)
Lemma WriteKey_read_modify_write_witness :
  exists v' w',
    client.WriteKey kv "missing" "user" "bob" empty_store start
    = (Ok ((NilData,
            Some (wrapError "writekey: " (wrapError "read: " (NewKeyError "missing")))),
           v'), w')
    /\ rpc_count (trace w') = 2%nat.
Proof.
  eexists _, _. split.
  - refine (proj1 (proj1 (proj2 (WriteKey_read_modify_write (fun s => s) kv "missing"
                                   "user" "bob" _ _ empty_store start _ eq_refl eq_refl))
                     eq_refl)).
  - reflexivity.
Defined.

(* ===================================================================== *)
(** * Construction: what [New] does before it returns *)
(* ===================================================================== *)

Lemma seal_queries_wait_rounds retry k : seal_queries (wait_rounds retry k) = k.
Proof.
  induction k as [| k IH]; [reflexivity |].
  cbn [wait_rounds]. rewrite seal_queries_app, IH. reflexivity.
Qed.

Lemma wait_rounds_snoc retry k :
  wait_rounds retry k ++ wait_round retry = wait_rounds retry (S k).
Proof.
  induction k as [| k IH]; [reflexivity |].
  cbn [wait_rounds] in *. rewrite <- app_assoc, IH. reflexivity.
Qed.

Section Construction.
Context {A : Type} `{Auth A}.

(** [New] refuses an empty store path, and a process environment without
    [VAULT_ADDR], before it contacts anything: no client is built and no
    seal-status query is sent. *)
Theorem New_rejects_before_contact (polls : nat) (auth : A) (store : string) e w :
  (store = "" ->
   client.New polls auth store e w
   = (Ok (None, Some (wrapError "new: " (errorString "missing vault path"))), w))
  /\ (store <> "" -> env_Getenv e hvault.EnvVaultAddress = "" ->
      client.New polls auth store e w
      = (Ok (None, Some (errorString "new: missing environment variable VAULT_ADDR")), w)).
Proof.
  split.
  - intros ->. reflexivity.
  - intros Hs Ha. unfold client.New, client.ok. cbn [client.store].
    rewrite (len0_false _ Hs). cbn [client.attempts client.retry Z.eqb].
    step. unfold Getenv at 1. rewrite Ha. reflexivity.
Qed.

(** [New] up to its first loop. *)
Ltac enter_New Hstore Haddr :=
  unfold client.New, client.ok; cbn [client.store client.attempts client.retry];
  rewrite (len0_false _ Hstore);
  cbn [Z.eqb client.store client.attempts client.retry client.auth];
  step; unfold Getenv at 1; rewrite (len0_false _ Haddr); step.

(** With a store and a [VAULT_ADDR]: an error of [hvault.NewClient] ends
    [New] at once, wrapped under ["new: "], before any seal-status query; an
    error of the seal-status query at attempt [k + 1 <= 12], after [k]
    attempts without a status, ends it wrapped under
    ["new: seal status (1): "], with no retry of that attempt. *)
Theorem New_connection_errors (polls : nat) (auth : A) (store : string) e w :
  store <> "" ->
  env_Getenv e hvault.EnvVaultAddress <> "" ->
  (forall err, env_NewClient e (trace w) = Some err ->
     client.New polls auth store e w
     = (Ok (None, Some (wrapError "new: " err)), emit EvNewClient w))
  /\ (forall (k : nat) x err,
        (k < 12)%nat ->
        (forall h, env_NewClient e h = None) ->
        (forall h, (seal_queries h < seal_queries (trace w) + k)%nat ->
                   env_SealStatus e h = (None, None)) ->
        (forall h, seal_queries h = (seal_queries (trace w) + k)%nat ->
                   env_SealStatus e h = (x, Some err)) ->
        client.New polls auth store e w
        = (Ok (None, Some (wrapError "new: seal status (1): " err)),
           connected e w (poll_rounds 5 12 1 k ++ [EvNewClient; EvSealStatus]))).
Proof.
  intros Hstore Haddr. split.
  - intros err Hnew. enter_New Hstore Haddr.
    change (Z.to_nat 12) with 12%nat. cbn [client.poll_status].
    step. unfold NewClient at 1. rewrite Hnew. reflexivity.
  - intros k x err Hk Hnew Hnil Herr. enter_New Hstore Haddr.
    match goal with
    | |- context [client.poll_status ?n] =>
        replace n with (k + S (11 - k))%nat by (cbn; lia)
    end.
    rewrite (poll_status_nil _ e k (S (11 - k)) 1 _ w Hnew Hnil).
    cbn [client.poll_status]. step. unfold NewClient at 1. rewrite Hnew.
    step. unfold SealStatus at 1. rewrite Herr.
    + unfold connected, with_trace, emit, set_token.
      destruct k; cbn [client_token trace client.retry client.attempts poll_rounds app];
        rewrite <- ?app_assoc; reflexivity.
    + cbn [client.retry client.attempts].
      destruct k; unfold with_trace, set_token, emit; cbn [trace];
        rewrite !seal_queries_app, ?seal_queries_poll_rounds; cbn; lia.
Qed.

(** [j] turns of the second loop whose query finds the service sealed. *)
Lemma wait_unsealed_sealed (v : client.Client A) e j : forall polls w,
  (forall h, (seal_queries (trace w) <= seal_queries h < seal_queries (trace w) + j)%nat ->
             env_SealStatus e h = sealed_reply) ->
  client.wait_unsealed (j + polls) v (Some sealed_status) e w
  = client.wait_unsealed polls v (Some sealed_status) e
      (with_trace w (wait_rounds (client.retry v) j)).
Proof.
  induction j as [| j IH]; intros polls w Hsealed.
  - cbn [Nat.add wait_rounds]. rewrite with_trace_nil. reflexivity.
  - cbn [Nat.add client.wait_unsealed].
    step. cbn [deref mret M_ret sealed_status hvault.Sealed].
    step. unfold Log at 1. step. unfold SealStatus at 1.
    rewrite Hsealed by (cbn [emit trace]; rewrite seal_queries_app; cbn; lia).
    unfold sealed_reply. step. unfold Sleep at 1.
    fold sealed_status.
    rewrite IH.
    + cbn [wait_rounds]. unfold emit, with_trace, wait_round, sealed_line.
      cbn [client_token trace]. rewrite <- !app_assoc. reflexivity.
    + intros h Hh. apply Hsealed. revert Hh. cbn [emit trace].
      rewrite !seal_queries_app. cbn. lia.
Qed.

(** One more turn, whatever its query finds. *)
Lemma wait_unsealed_turn (v : client.Client A) e polls w :
  client.wait_unsealed (S polls) v (Some sealed_status) e w
  = match env_SealStatus e (trace w ++ [sealed_line]) with
    | (_, Some err) =>
        (Ok (Some (wrapError "new: seal status (2): " err)),
         with_trace w [sealed_line; EvSealStatus])
    | (ss, None) =>
        client.wait_unsealed polls v ss e (with_trace w (wait_round (client.retry v)))
    end.
Proof.
  cbn [client.wait_unsealed].
  step. cbn [deref mret M_ret sealed_status hvault.Sealed].
  step. unfold Log at 1. step. unfold SealStatus at 1. cbn [emit trace].
  fold sealed_line.
  destruct (env_SealStatus e _) as [ss [err |]].
  - unfold emit, with_trace. cbn [client_token trace]. rewrite <- app_assoc. reflexivity.
  - step. unfold Sleep at 1. unfold emit, with_trace, wait_round. cbn [client_token trace].
    rewrite <- !app_assoc. reflexivity.
Qed.

(** [New] up to the second loop, when the first attempt finds the service
    sealed. *)
Lemma New_found_sealed (polls : nat) (auth : A) (store : string) e w :
  store <> "" ->
  env_Getenv e hvault.EnvVaultAddress <> "" ->
  env_NewClient e (trace w) = None ->
  env_SealStatus e (trace w ++ [EvNewClient]) = sealed_reply ->
  let v := {| client.store := store; client.attempts := 12; client.retry := 5;
              client.auth := auth |} in
  client.New polls auth store e w
  = match client.wait_unsealed polls v (Some sealed_status) e
            (connected e w [EvNewClient; EvSealStatus]) with
    | (Ok (Some err), w') => (Ok (None, Some err), w')
    | (Ok None, w') => (Ok (Some v, None), w')
    | (Panic why, w') => (Panic why, w')
    | (Pending, w') => (Pending, w')
    end.
Proof.
  intros Hstore Haddr Hnew Hsealed v. enter_New Hstore Haddr.
  change (Z.to_nat 12) with 12%nat.
  rewrite poll_status_found with (s := sealed_status) by assumption.
  step. fold v. unfold connected.
  destruct (client.wait_unsealed polls v (Some sealed_status) e _)
    as [[[err |] | why |] w']; reflexivity.
Qed.

(** [New], when the first attempt finds the service sealed and the next [j]
    queries find it sealed too.  If the query after those reports unsealed,
    [New] returns the client; its history is the first attempt and [j + 1]
    turns, each a log line, a query and a sleep of 5 seconds (the sleep
    follows the query that reports unsealed as well).  If that query fails,
    [New] returns the error under ["new: seal status (2): "], without the
    sleep.  If that query returns neither a status nor an error, [New]
    panics when the loop reads the status, after the sleep.  ([polls] bounds
    the turns of a run; [j + 1] are enough here.) *)
Theorem New_waits_while_sealed (polls j : nat) (auth : A) (store : string) e w :
  store <> "" ->
  env_Getenv e hvault.EnvVaultAddress <> "" ->
  env_NewClient e (trace w) = None ->
  let q0 := seal_queries (trace w) in
  let v := {| client.store := store; client.attempts := 12; client.retry := 5;
              client.auth := auth |} in
  let found := [EvNewClient; EvSealStatus] in
  (forall h, (q0 <= seal_queries h <= q0 + j)%nat -> env_SealStatus e h = sealed_reply) ->
  (S j <= polls)%nat ->
  ((forall h, seal_queries h = (q0 + S j)%nat -> env_SealStatus e h = unsealed_reply) ->
     client.New polls auth store e w
     = (Ok (Some v, None), connected e w (found ++ wait_rounds 5 (S j))))
  /\ (forall x err,
        (forall h, seal_queries h = (q0 + S j)%nat -> env_SealStatus e h = (x, Some err)) ->
        client.New polls auth store e w
        = (Ok (None, Some (wrapError "new: seal status (2): " err)),
           connected e w (found ++ wait_rounds 5 j ++ [sealed_line; EvSealStatus])))
  /\ ((forall h, seal_queries h = (q0 + S j)%nat -> env_SealStatus e h = (None, None)) ->
      client.New polls auth store e w
      = (Panic nil_deref, connected e w (found ++ wait_rounds 5 (S j)))).
Proof.
  intros Hstore Haddr Hnew q0 v found Hsealed Hpolls.
  assert (Hrun : client.New polls auth store e w
    = match env_SealStatus e
              (trace (connected e w (found ++ wait_rounds 5 j)) ++ [sealed_line]) with
      | (_, Some err) =>
          (Ok (None, Some (wrapError "new: seal status (2): " err)),
           connected e w (found ++ wait_rounds 5 j ++ [sealed_line; EvSealStatus]))
      | (Some s, None) =>
          if hvault.Sealed s then
            match client.wait_unsealed (polls - S j) v (Some s) e
                    (connected e w (found ++ wait_rounds 5 (S j))) with
            | (Ok (Some err), w') => (Ok (None, Some err), w')
            | (Ok None, w') => (Ok (Some v, None), w')
            | (Panic why, w') => (Panic why, w')
            | (Pending, w') => (Pending, w')
            end
          else (Ok (Some v, None), connected e w (found ++ wait_rounds 5 (S j)))
      | (None, None) =>
          (Panic nil_deref, connected e w (found ++ wait_rounds 5 (S j)))
      end).
  { rewrite New_found_sealed; try assumption.
    2: { apply Hsealed. rewrite seal_queries_app. cbn. fold q0. lia. }
    fold v. replace polls with (j + S (polls - S j))%nat at 1 by lia.
    rewrite wait_unsealed_sealed.
    2: { intros h Hh. apply Hsealed. revert Hh. unfold connected, set_token, with_trace.
         cbn [trace]. rewrite seal_queries_app. cbn. fold q0. lia. }
    rewrite wait_unsealed_turn. cbn [client.retry v].
    assert (Hw1 : with_trace (connected e w [EvNewClient; EvSealStatus]) (wait_rounds 5 j)
                  = connected e w (found ++ wait_rounds 5 j)).
    { unfold connected, set_token, with_trace. cbn [client_token trace].
      rewrite <- app_assoc. reflexivity. }
    rewrite Hw1.
    assert (Hw2 : with_trace (connected e w (found ++ wait_rounds 5 j)) (wait_round 5)
                  = connected e w (found ++ wait_rounds 5 (S j))).
    { unfold connected, set_token, with_trace. cbn [client_token trace].
      rewrite <- wait_rounds_snoc, <- !app_assoc. reflexivity. }
    assert (Hw3 : with_trace (connected e w (found ++ wait_rounds 5 j))
                    [sealed_line; EvSealStatus]
                  = connected e w (found ++ wait_rounds 5 j ++ [sealed_line; EvSealStatus])).
    { unfold connected, set_token, with_trace. cbn [client_token trace].
      rewrite <- !app_assoc. reflexivity. }
    rewrite Hw2, Hw3.
    destruct (env_SealStatus e _) as [[s |] [err |]]; try reflexivity.
    - destruct s as [[|]].
      + reflexivity.
      + destruct (polls - S j)%nat; reflexivity.
    - destruct (polls - S j)%nat; reflexivity. }
  assert (Hq : seal_queries
                 (trace (connected e w (found ++ wait_rounds 5 j)) ++ [sealed_line])
               = (q0 + S j)%nat).
  { unfold connected, set_token, with_trace. cbn [trace].
    rewrite !seal_queries_app, seal_queries_wait_rounds. cbn. fold q0. lia. }
  split; [| split].
  - intros Hun. rewrite Hrun, (Hun _ Hq). reflexivity.
  - intros x err Herr. rewrite Hrun, (Herr _ Hq). destruct x; reflexivity.
  - intros Hnil. rewrite Hrun, (Hnil _ Hq). reflexivity.
Qed.

(** While every query finds the service sealed, [New] does not return: its
    second loop has no bound, so a run that is given [polls] turns has made
    exactly [polls] of them, each a log line, a query and a sleep of 5
    seconds, and is still waiting. *)
Theorem New_blocks_while_sealed (polls : nat) (auth : A) (store : string) e w :
  store <> "" ->
  env_Getenv e hvault.EnvVaultAddress <> "" ->
  env_NewClient e (trace w) = None ->
  (forall h, (seal_queries (trace w) <= seal_queries h)%nat ->
             env_SealStatus e h = sealed_reply) ->
  client.New polls auth store e w
  = (Pending, connected e w ([EvNewClient; EvSealStatus] ++ wait_rounds 5 polls)).
Proof.
  intros Hstore Haddr Hnew Hsealed.
  rewrite New_found_sealed; try assumption.
  2: { apply Hsealed. rewrite seal_queries_app. lia. }
  replace polls with (polls + 0)%nat at 1 by lia.
  rewrite wait_unsealed_sealed.
  2: { intros h Hh. apply Hsealed. revert Hh. unfold connected, set_token, with_trace.
       cbn [trace]. rewrite seal_queries_app. lia. }
  cbn [client.retry]. unfold connected, set_token, with_trace. cbn [client_token trace].
  rewrite <- app_assoc. reflexivity.
Qed.

End Construction.

(** The theorem on an empty store path, and on a process without
    [VAULT_ADDR]. *)
Lemma New_rejects_before_contact_witness :
  client.New 0 configured "" granting start
  = (Ok (None, Some (wrapError "new: " (errorString "missing vault path"))), start)
  /\ client.New 0 configured "kv" no_address start
     = (Ok (None, Some (errorString "new: missing environment variable VAULT_ADDR")),
        start).
Proof.
  split.
  - apply (proj1 (New_rejects_before_contact 0 configured "" granting start) eq_refl).
  - apply (proj2 (New_rejects_before_contact 0 configured "kv" no_address start)).
    + discriminate.
    + reflexivity.
Defined.

(** The theorem on a process that cannot build a client. *)
Lemma New_connection_errors_witness :
  client.New 0 configured "kv" misconfigured start
  = (Ok (None, Some (wrapError "new: " (errorString "invalid address"))),
     emit EvNewClient start).
Proof.
  apply (proj1 (New_connection_errors 0 configured "kv" misconfigured start
                  ltac:(discriminate) ltac:(discriminate))
           (errorString "invalid address") eq_refl).
Defined.

(** The theorem on a service that is sealed at the first two queries: two
    turns of waiting, then the client. *)
Lemma New_waits_while_sealed_witness :
  client.New 2 configured "kv" unsealing start
  = (Ok (Some kv, None),
     with_trace start ([EvNewClient; EvSealStatus] ++ wait_rounds 5 2)).
Proof.
  refine (proj1 (New_waits_while_sealed 2 1 configured "kv" unsealing start
                   _ _ eq_refl _ _) _).
  - discriminate.
  - discriminate.
  - intros h Hh. cbn in Hh.
    change (env_SealStatus unsealing h)
      with (if (seal_queries h <? 2)%nat then sealed_reply else unsealed_reply).
    destruct (Nat.ltb_spec (seal_queries h) 2); [reflexivity | lia].
  - lia.
  - intros h Hh. cbn in Hh.
    change (env_SealStatus unsealing h)
      with (if (seal_queries h <? 2)%nat then sealed_reply else unsealed_reply).
    rewrite Hh. reflexivity.
Defined.

(** The theorem on a service that stays sealed, after three turns. *)
Lemma New_blocks_while_sealed_witness :
  client.New 3 configured "kv" sealed_service start
  = (Pending, with_trace start ([EvNewClient; EvSealStatus] ++ wait_rounds 5 3)).
Proof.
  apply (New_blocks_while_sealed 3 configured "kv" sealed_service start);
    [discriminate | discriminate | reflexivity | intros h _; reflexivity].
Defined.

(* ===================================================================== *)
(** * The Standing-Token provider: file, first call, setters *)
(* ===================================================================== *)

Section TokenMore.
Variable time_Parse : string -> string -> option time.Time.

(** A [Token] with a token file: every [GetToken] reads the file and returns
    its content as it is (a trailing line break included), whatever token
    and expiry the struct holds; it reads no clock, sends no request and
    leaves the struct as it was.  A read error is returned under
    ["gettoken: "], with the empty token. *)
Theorem Token_file_preferred t e w :
  token.token_file t <> "" ->
  let f := token.token_file t in
  let w1 := emit (EvReadFile f) w in
  (forall content, env_ReadFile e (trace w) f = (content, None) ->
     token.GetToken time_Parse t e w = (Ok ((content, None), t), w1))
  /\ (forall content err, env_ReadFile e (trace w) f = (content, Some err) ->
      token.GetToken time_Parse t e w
      = (Ok (("", Some (wrapError "gettoken: " err)), t), w1)).
Proof.
  intros Hf f w1. split.
  - intros content E. unfold token.GetToken. rewrite (len0_false _ Hf). cbn [negb].
    step. unfold ReadFile at 1. fold f. rewrite E. reflexivity.
  - intros content err E. unfold token.GetToken. rewrite (len0_false _ Hf). cbn [negb].
    step. unfold ReadFile at 1. fold f. rewrite E. reflexivity.
Qed.

(** The first call, by the reply of the self-introspection. *)
Lemma Token_lookup_run t e w :
  token.token_file t = "" -> token.expires t = 0 -> 0 <= env_Now e (trace w) ->
  let w1 := set_token (token.token t) (emit (EvNow (env_Now e (trace w))) w) in
  let w2 := emit (EvLogical (token.token t) lookup_request) w1 in
  token.GetToken time_Parse t e w =
    match env_Logical e (trace w1) (token.token t) lookup_request with
    | (_, Some err) => (Ok (("", Some (wrapError "gettoken: " err)), t), w2)
    | (None, None) => (Panic nil_deref, w2)
    | (Some s, None) =>
        match field_value (hvault.Data s) "creation_ttl" with
        | VNumber n =>
            match Int64 n with
            | (_, Some err) => (Ok (("", Some (wrapError "gettoken: " err)), t), w2)
            | (ttl, None) =>
                match field_value (hvault.Data s) "expire_time" with
                | VNil =>
                    (Ok ((token.token t, None),
                         token.set_expires t (time.AddDate (env_Now e (trace w2)) 1000 0 0)),
                     emit (EvNow (env_Now e (trace w2))) w2)
                | VString str =>
                    (Ok ((token.token t, None),
                         token.set_expires t
                           (time.Add (default 0 (time_Parse time.expire_layout str))
                              (time.seconds (lease_with_margin ttl)))), w2)
                | _ => (Panic not_string, w2)
                end
            end
        | _ => (Panic not_Number, w2)
        end
    end.
Proof.
  intros Hf Hz Hnow w1 w2.
  unfold token.GetToken. rewrite Hf. cbn [len0 String.eqb negb].
  step. cbn [Now]. unfold time.Before, time.IsZero. rewrite Hz.
  destruct (Z.ltb_spec (env_Now e (trace w)) 0); [lia |].
  cbn [Z.eqb]. unfold token.lookup_self.
  step. cbn [c_SetToken]. step. unfold Logical at 1. cbn [client_token trace].
  fold lookup_request.
  change (trace (emit (EvNow (env_Now e (trace w))) w)) with (trace w1).
  destruct (env_Logical e (trace w1) (token.token t) lookup_request) as [[s |] [err |]];
    try reflexivity.
  step. cbn [deref mret M_ret]. step.
  destruct (field_value (hvault.Data s) "creation_ttl") as [| | n | |]; try reflexivity.
  cbn [assert_Number mret M_ret].
  destruct (Int64 n) as [ttl [err |]]; [reflexivity |].
  destruct (field_value (hvault.Data s) "expire_time"); reflexivity.
Qed.

(** The first call of [GetToken] on a [Token] without a token file sends the
    self-introspection under the token.  An error of the request, and a
    [creation_ttl] that does not parse as an integer, are returned under
    ["gettoken: "] and leave the struct as it was, so the next call
    introspects again.  A reply without a secret, a [creation_ttl] that is
    absent or not a JSON number, and an [expire_time] that is neither absent
    nor a string, make [GetToken] panic. *)
Theorem Token_lookup_failures t e w :
  token.token_file t = "" -> token.expires t = 0 -> 0 <= env_Now e (trace w) ->
  let tok := token.token t in
  let w1 := set_token tok (emit (EvNow (env_Now e (trace w))) w) in
  let w2 := emit (EvLogical tok lookup_request) w1 in
  (forall x err, env_Logical e (trace w1) tok lookup_request = (x, Some err) ->
     token.GetToken time_Parse t e w
     = (Ok (("", Some (wrapError "gettoken: " err)), t), w2))
  /\ (env_Logical e (trace w1) tok lookup_request = (None, None) ->
      token.GetToken time_Parse t e w = (Panic nil_deref, w2))
  /\ (forall s, env_Logical e (trace w1) tok lookup_request = (Some s, None) ->
      is_VNumber (field_value (hvault.Data s) "creation_ttl") = false ->
      token.GetToken time_Parse t e w = (Panic not_Number, w2))
  /\ (forall s n i err, env_Logical e (trace w1) tok lookup_request = (Some s, None) ->
      field_value (hvault.Data s) "creation_ttl" = VNumber n ->
      Int64 n = (i, Some err) ->
      token.GetToken time_Parse t e w
      = (Ok (("", Some (wrapError "gettoken: " err)), t), w2))
  /\ (forall s n ttl, env_Logical e (trace w1) tok lookup_request = (Some s, None) ->
      field_value (hvault.Data s) "creation_ttl" = VNumber n ->
      Int64 n = (ttl, None) ->
      is_VNil (field_value (hvault.Data s) "expire_time") = false ->
      is_VString (field_value (hvault.Data s) "expire_time") = false ->
      token.GetToken time_Parse t e w = (Panic not_string, w2)).
Proof.
  intros Hf Hz Hnow tok w1 w2.
  pose proof (Token_lookup_run t e w Hf Hz Hnow) as Hrun. cbv zeta in Hrun.
  fold tok in Hrun. fold w1 in Hrun. fold w2 in Hrun.
  split; [| split; [| split; [| split]]].
  - intros x err E. rewrite Hrun, E. destruct x; reflexivity.
  - intros E. rewrite Hrun, E. reflexivity.
  - intros s E Hn. rewrite Hrun, E.
    destruct (field_value (hvault.Data s) "creation_ttl"); try reflexivity. discriminate.
  - intros s n i err E Hn Hi. rewrite Hrun, E, Hn, Hi. reflexivity.
  - intros s n ttl E Hn Hi Hnil Hstr. rewrite Hrun, E, Hn, Hi.
    destruct (field_value (hvault.Data s) "expire_time"); try reflexivity; discriminate.
Qed.

(** The first call, when the introspection carries an [expire_time]: the
    token is returned and the expiry the struct keeps is the parsed
    [expire_time] plus the margin-reduced [creation_ttl] in seconds (the
    zero time plus that, when [expire_time] does not parse); the clock is
    not read again.  The lifetime is taken to fit a [time.Duration]. *)
Theorem Token_expiry_from_expire_time t e w s n ttl str :
  token.token_file t = "" -> token.expires t = 0 -> 0 <= env_Now e (trace w) ->
  let tok := token.token t in
  let w1 := set_token tok (emit (EvNow (env_Now e (trace w))) w) in
  let w2 := emit (EvLogical tok lookup_request) w1 in
  env_Logical e (trace w1) tok lookup_request = (Some s, None) ->
  field_value (hvault.Data s) "creation_ttl" = VNumber n ->
  Int64 n = (ttl, None) ->
  field_value (hvault.Data s) "expire_time" = VString str ->
  fits_Duration (lease_with_margin ttl) ->
  let tm := default 0 (time_Parse time.expire_layout str) in
  exists t',
    token.GetToken time_Parse t e w = (Ok ((tok, None), t'), w2)
    /\ token.token t' = tok /\ token.token_file t' = ""
    /\ token.expires t' = tm + lease_with_margin ttl * time.Second.
Proof.
  intros Hf Hz Hnow tok w1 w2 E Hn Hi Hx Hfit tm.
  pose proof (Token_lookup_run t e w Hf Hz Hnow) as Hrun. cbv zeta in Hrun.
  fold tok in Hrun. fold w1 in Hrun. fold w2 in Hrun.
  rewrite E, Hn, Hi, Hx in Hrun. eexists. split; [exact Hrun |].
  cbn [token.set_expires token.token token.token_file token.expires].
  split; [reflexivity |]. split; [exact Hf |].
  unfold time.Add. rewrite seconds_small by exact Hfit. reflexivity.
Qed.

(** Callers that find a valid token only read the clock. *)
Lemma Token_serialized_cached e t : forall n w,
  token.token_file t = "" ->
  (forall h, env_Now e h < token.expires t) ->
  exists w',
    serialized (H := Token_Auth time_Parse) n t e w
    = (Ok (repeat (token.token t, None) n, t), w')
    /\ rpc_count (trace w') = rpc_count (trace w).
Proof.
  induction n as [| n IH]; intros w Hf Hnow.
  - exists w. split; reflexivity.
  - cbn [serialized]. step.
    change (Auth_GetToken t) with (token.GetToken time_Parse t).
    rewrite Token_cached by auto.
    destruct (IH (emit (EvNow (env_Now e (trace w))) w) Hf Hnow) as (w' & Hrun & Hcount).
    exists w'. unfold mbind, M_bind. rewrite Hrun. cbn [repeat mret M_ret].
    split; [reflexivity |]. rewrite Hcount. cbn [emit trace].
    rewrite rpc_count_app. cbn. lia.
Qed.

(** A [Token] that has not looked itself up yet, when the introspection
    carries no [expire_time]: of [n + 1] callers, which the mutex lets run
    one after the other, the first sends the introspection and sets the
    expiry, the others find it set; one request is sent in all, and every
    caller returns the token.  (The clock is taken never to reach a thousand
    years after one of its readings.) *)
Theorem Token_lookup_then_cached n t e w s num ttl :
  token.token_file t = "" -> token.expires t = 0 ->
  (forall h tok, env_Logical e h tok lookup_request = (Some s, None)) ->
  field_value (hvault.Data s) "creation_ttl" = VNumber num ->
  Int64 num = (ttl, None) ->
  field_value (hvault.Data s) "expire_time" = VNil ->
  (forall h h', 0 <= env_Now e h < time.AddDate (env_Now e h') 1000 0 0) ->
  exists t' w',
    serialized (H := Token_Auth time_Parse) (S n) t e w
    = (Ok (repeat (token.token t, None) (S n), t'), w')
    /\ rpc_count (trace w') = (rpc_count (trace w) + 1)%nat.
Proof.
  intros Hf Hz Hreply Hn Hi Hx Hclock.
  cbn [serialized]. step.
  change (Auth_GetToken t) with (token.GetToken time_Parse t).
  rewrite Token_lookup_run; [| exact Hf | exact Hz | apply Hclock; exact []].
  rewrite Hreply, Hn, Hi, Hx. cbv beta iota zeta. unfold mbind, M_bind.
  match goal with
  | |- context [serialized n ?t1 e ?w1] =>
      destruct (Token_serialized_cached e t1 n w1) as (w' & Hrun & Hcount)
  end.
  - exact Hf.
  - intros h. cbn [token.set_expires token.expires]. apply Hclock.
  - eexists _, w'. rewrite Hrun. cbn [repeat mret M_ret token.set_expires token.token].
    split; [reflexivity |]. rewrite Hcount. cbn [emit trace set_token].
    rewrite !rpc_count_app. cbn. lia.
Qed.

(** [SetToken] replaces the token and keeps the expiry the struct has
    learned: before that expiry [GetToken] hands out the new token without a
    request, and at or after it the new token is renewed, not looked up. *)
Theorem SetToken_keeps_expiry t tok' e w :
  token.token_file t = "" ->
  let t' := token.SetToken t tok' in
  let now := env_Now e (trace w) in
  (now < token.expires t ->
   token.GetToken time_Parse t' e w = (Ok ((tok', None), t'), emit (EvNow now) w))
  /\ (forall x, token.expires t <> 0 -> token.expires t <= now ->
      let w1 := set_token tok' (emit (EvNow now) w) in
      env_Logical e (trace w1) tok' token_renew_request = (x, None) ->
      token.GetToken time_Parse t' e w
      = (Ok ((tok', None), t'), emit (EvLogical tok' token_renew_request) w1)).
Proof.
  intros Hf t' now. split.
  - intros Hnow. apply (Token_cached time_Parse t' e w); assumption.
  - intros x Hz Hnow w1 E.
    rewrite (Token_renew time_Parse t' e w) by assumption.
    cbn [token.token t' token.SetToken]. fold now. fold w1. rewrite E. reflexivity.
Qed.

End TokenMore.

(** The theorem on a token file that ends in a line feed. *)
Lemma Token_file_preferred_witness :
  let t := token.SetTokenFile (token.NewToken "unused") "/run/secrets/token" in
  token.GetToken (fun _ _ => None) t token_on_disk start
  = (Ok (("s.Zm9v" +:+ String "010" "", None), t),
     emit (EvReadFile "/run/secrets/token") start).
Proof.
  intros t.
  apply (proj1 (Token_file_preferred (fun _ _ => None) t token_on_disk start
                  ltac:(discriminate))).
  reflexivity.
Defined.

(** The theorem on a remote that answers the introspection with nothing. *)
Lemma Token_lookup_failures_witness :
  token.GetToken (fun _ _ => None) (token.NewToken "root") mute start
  = (Panic nil_deref,
     {| client_token := "root"; trace := [EvNow 200; EvLogical "root" lookup_request] |}).
Proof.
  refine (proj1 (proj2 (Token_lookup_failures (fun _ _ => None) (token.NewToken "root")
                          mute start eq_refl eq_refl _)) eq_refl).
  discriminate.
Defined.

(** The theorem on a lifetime of one hour and an [expire_time] that parses
    to [5000]. *)
Lemma Token_expiry_from_expire_time_witness :
  exists t' w',
    token.GetToken (fun _ _ => Some 5000) (token.NewToken "root") introspecting_leased start
    = (Ok (("root", None), t'), w')
    /\ token.expires t' = 5000 + 3590 * time.Second.
Proof.
  destruct (Token_expiry_from_expire_time (fun _ _ => Some 5000) (token.NewToken "root")
              introspecting_leased start
              {| hvault.Data := leased_lookup; hvault.Auth := None |} "3600" 3600
              "2026-01-01T12:00:00.000000000Z" eq_refl eq_refl)
    as (t' & Hrun & _ & _ & Hexp).
  - discriminate.
  - reflexivity.
  - reflexivity.
  - reflexivity.
  - reflexivity.
  - unfold fits_Duration. cbn. lia.
  - exists t'. eexists. split; [exact Hrun | exact Hexp].
Defined.

(** The theorem on three callers of a token that has no [expire_time]. *)
Lemma Token_lookup_then_cached_witness :
  exists t' w',
    serialized (H := Token_Auth (fun _ _ => None)) 3 (token.NewToken "root")
      introspecting start
    = (Ok ([("root", None); ("root", None); ("root", None)], t'), w')
    /\ rpc_count (trace w') = 1%nat.
Proof.
  refine (Token_lookup_then_cached (fun _ _ => None) 2 (token.NewToken "root")
            introspecting start {| hvault.Data := root_lookup; hvault.Auth := None |}
            "100" 100 eq_refl eq_refl _ _ eq_refl _ _).
  - intros h tok. reflexivity.
  - reflexivity.
  - reflexivity.
  - intros h h'.
    change (0 <= 63902865600000000000 < 95459774400000000000). lia.
Defined.

(** The theorem on a token that is replaced while its expiry, [1000], lies
    ahead of the clock. *)
Lemma SetToken_keeps_expiry_witness :
  token.GetToken (fun _ _ => None) (token.SetToken fresh "t9") granting start
  = (Ok (("t9", None), token.SetToken fresh "t9"), emit (EvNow 200) start).
Proof.
  apply (proj1 (SetToken_keeps_expiry (fun _ _ => None) fresh "t9" granting start eq_refl)).
  reflexivity.
Defined.

(* ===================================================================== *)
(** * The Secret-Exchange provider: fallback, first login, replies *)
(* ===================================================================== *)

(** [GetToken] with a cached token that has expired, when the renewal
    fails: what is left is the minting half, after the renewal request. *)
Lemma AppRole_renew_failed ar a e w x err :
  approle.auth ar = Some a -> hvault.ClientToken a <> "" ->
  approle.expires ar <= env_Now e (trace w) ->
  let tok := hvault.ClientToken a in
  let w0 := emit (EvNow (env_Now e (trace w))) w in
  let w1 := emit (EvLogical tok renew_request) (set_token tok w0) in
  env_Logical e (trace w0) tok renew_request = (x, Some err) ->
  approle.GetToken ar e w = approle.mint ar e w1.
Proof.
  intros Ea Htok Hnow tok w0 w1 Hreply. unfold approle.GetToken.
  rewrite Ea, (len0_false _ Htok).
  cbn [negb]. step. step. cbn [Now mret M_ret]. unfold time.Before.
  destruct (Z.ltb_spec (env_Now e (trace w)) (approle.expires ar)); [lia |].
  step. fold w0.
  rewrite (renew_run ar a) by assumption. fold tok. rewrite Hreply.
  destruct x; reflexivity.
Qed.

(** [GetToken] with a cached token that is empty: [renew] refuses without a
    request, and what is left is the minting half. *)
Lemma AppRole_empty_token ar a e w :
  approle.auth ar = Some a -> hvault.ClientToken a = "" ->
  approle.GetToken ar e w = approle.mint ar e w.
Proof.
  intros Ea Htok. unfold approle.GetToken. rewrite Ea, Htok.
  cbn [len0 String.eqb negb]. step. cbn [mret M_ret].
  step. unfold approle.renew. rewrite Ea. step. cbn [deref mret M_ret].
  rewrite Htok. reflexivity.
Qed.

(** [mint] with a secret and no unwrap token, by the reply of the login. *)
Lemma mint_login_run ar e w :
  approle.unwrap_token ar = "" -> approle.secret_id ar <> "" ->
  let tok := client_token w in
  let w1 := emit (EvLogical tok (login_request ar)) w in
  approle.mint ar e w =
    match env_Logical e (trace w) tok (login_request ar) with
    | (_, Some err) =>
        (Ok (("", Some (wrapError "gettoken: " (wrapError "new: " err))), ar), w1)
    | (None, None) => (Panic nil_deref, w1)
    | (Some s, None) =>
        match hvault.Auth s with
        | None => (Panic nil_deref, w1)
        | Some a1 =>
            (Ok ((hvault.ClientToken a1, None),
                 expiry_set (approle.set_auth ar (Some a1)) a1 (env_Now e (trace w1))),
             emit (EvNow (env_Now e (trace w1))) w1)
        end
    end.
Proof.
  intros Hu Hs tok w1. rewrite mint_login by assumption.
  rewrite new_run by assumption. fold tok. fold w1.
  destruct (env_Logical e (trace w) tok (login_request ar)) as [[s |] [err |]];
    try reflexivity.
  destruct (hvault.Auth s); reflexivity.
Qed.

(** An [AppRole] whose cached token has expired, without an unwrap token,
    when the renew-self request fails: the error of the renewal is dropped
    and [GetToken] falls back to a login.  Without a secret it returns the
    missing-[secret_id] error; with a secret it posts the login, still under
    the expired token, and returns the token of the reply with the expiry
    set anew, or the error of the login under ["gettoken: new: "]. *)
Theorem AppRole_renew_fallback ar a e w x err :
  approle.auth ar = Some a -> hvault.ClientToken a <> "" ->
  approle.expires ar <= env_Now e (trace w) ->
  approle.unwrap_token ar = "" ->
  let tok := hvault.ClientToken a in
  let w0 := emit (EvNow (env_Now e (trace w))) w in
  let w1 := emit (EvLogical tok renew_request) (set_token tok w0) in
  let w2 := emit (EvLogical tok (login_request ar)) w1 in
  env_Logical e (trace w0) tok renew_request = (x, Some err) ->
  (approle.secret_id ar = "" ->
   approle.GetToken ar e w = (Ok (("", Some missing_secret_id), ar), w1))
  /\ (forall s a1, approle.secret_id ar <> "" ->
        env_Logical e (trace w1) tok (login_request ar) = (Some s, None) ->
        hvault.Auth s = Some a1 ->
        approle.GetToken ar e w
        = (Ok ((hvault.ClientToken a1, None),
               expiry_set (approle.set_auth ar (Some a1)) a1 (env_Now e (trace w2))),
           emit (EvNow (env_Now e (trace w2))) w2))
  /\ (forall y err', approle.secret_id ar <> "" ->
        env_Logical e (trace w1) tok (login_request ar) = (y, Some err') ->
        approle.GetToken ar e w
        = (Ok (("", Some (wrapError "gettoken: " (wrapError "new: " err'))), ar), w2)).
Proof.
  intros Ea Htok Hnow Hu tok w0 w1 w2 Hreply.
  rewrite (AppRole_renew_failed ar a e w x err) by assumption. fold tok w0 w1.
  split; [| split].
  - intros Hs. apply mint_no_secret; assumption.
  - intros s a1 Hs Hlogin Ha. rewrite mint_login_run by assumption.
    change (client_token w1) with tok. rewrite Hlogin, Ha. reflexivity.
  - intros y err' Hs Hlogin. rewrite mint_login_run by assumption.
    change (client_token w1) with tok. rewrite Hlogin. destruct y; reflexivity.
Qed.

(** An [AppRole] that holds an authentication record with an empty token
    (as after an unwrap, or a login whose reply carried none), without an
    unwrap token: [GetToken] reads no clock and sends no renew-self request;
    without a secret it returns the missing-[secret_id] error at once, with
    a secret it posts the login first and returns the token of the reply. *)
Theorem AppRole_empty_cached_token ar a e w :
  approle.auth ar = Some a -> hvault.ClientToken a = "" ->
  approle.unwrap_token ar = "" ->
  let tok := client_token w in
  let w1 := emit (EvLogical tok (login_request ar)) w in
  (approle.secret_id ar = "" ->
   approle.GetToken ar e w = (Ok (("", Some missing_secret_id), ar), w))
  /\ (forall s a1, approle.secret_id ar <> "" ->
        env_Logical e (trace w) tok (login_request ar) = (Some s, None) ->
        hvault.Auth s = Some a1 ->
        approle.GetToken ar e w
        = (Ok ((hvault.ClientToken a1, None),
               expiry_set (approle.set_auth ar (Some a1)) a1 (env_Now e (trace w1))),
           emit (EvNow (env_Now e (trace w1))) w1)).
Proof.
  intros Ea Htok Hu tok w1. rewrite (AppRole_empty_token ar a) by assumption.
  split.
  - intros Hs. apply mint_no_secret; assumption.
  - intros s a1 Hs Hlogin Ha. rewrite mint_login_run by assumption.
    fold tok. rewrite Hlogin, Ha. reflexivity.
Qed.

(** Callers that find a valid token only read the clock. *)
Lemma AppRole_serialized_clock e ar a : forall n w,
  approle.auth ar = Some a -> hvault.ClientToken a <> "" ->
  (forall h, env_Now e h < approle.expires ar) ->
  exists evs,
    serialized n ar e w
    = (Ok (repeat (hvault.ClientToken a, None) n, ar), with_trace w evs)
    /\ rpc_count evs = 0%nat.
Proof.
  induction n as [| n IH]; intros w Ea Htok Hnow.
  - exists []. rewrite with_trace_nil. split; reflexivity.
  - cbn [serialized]. step.
    change (Auth_GetToken ar) with (approle.GetToken ar).
    rewrite (AppRole_cached ar a) by auto.
    destruct (IH (emit (EvNow (env_Now e (trace w))) w) Ea Htok Hnow)
      as (evs & Hrun & Hcount).
    exists (EvNow (env_Now e (trace w)) :: evs).
    unfold mbind, M_bind. rewrite Hrun. cbn [repeat mret M_ret].
    split; [| exact Hcount].
    f_equal. unfold with_trace, emit. cbn [client_token trace].
    rewrite <- app_assoc. reflexivity.
Qed.

(** An [AppRole] built by [NewAppRole(path, name, role_id)] and given a
    secret by [SetSecretID], when the remote grants the login with a
    non-empty token: of [n + 1] callers that arrive while the clock stays
    within the lease, the first posts the login, at [auth/<path>/login],
    with the body [role_id], [secret_id], under the token the client happens
    to carry; it is the first event of the run and no other request follows;
    every caller returns the token of the reply. *)
Theorem AppRole_login_then_cached n path name rid sid e w s a1 t0 :
  sid <> "" ->
  let ar := approle.SetSecretID (approle.NewAppRole path name rid) sid in
  let login := hvault.Write ("auth/" +:+ path +:+ "/login") (login_data rid sid) in
  (forall h tok, env_Logical e h tok login = (Some s, None)) ->
  hvault.Auth s = Some a1 -> hvault.ClientToken a1 <> "" ->
  (forall h, t0 <= env_Now e h
             < t0 + time.seconds (approle.margin (hvault.LeaseDuration a1))) ->
  exists ar' rest,
    serialized (S n) ar e w
    = (Ok (repeat (hvault.ClientToken a1, None) (S n), ar'),
       with_trace w (EvLogical (client_token w) login :: rest))
    /\ rpc_count rest = 0%nat.
Proof.
  intros Hsid ar login Hreply Ha1 Htok1 Hclock.
  cbn [serialized]. step.
  change (Auth_GetToken ar) with (approle.GetToken ar).
  unfold approle.GetToken. cbn [ar approle.auth approle.SetSecretID approle.NewAppRole].
  fold ar. rewrite mint_login_run; [| reflexivity | exact Hsid].
  change (login_request ar) with login. rewrite Hreply, Ha1.
  cbv beta iota zeta. unfold mbind, M_bind.
  match goal with
  | |- context [serialized n ?ar1 e ?w1] =>
      destruct (AppRole_serialized_clock e ar1
                  {| hvault.ClientToken := hvault.ClientToken a1;
                     hvault.LeaseDuration := approle.margin (hvault.LeaseDuration a1) |}
                  n w1) as (evs & Hrun & Hcount)
  end.
  - reflexivity.
  - exact Htok1.
  - intros h. cbn [expiry_set approle.expires approle.set_expires]. unfold time.Add.
    match goal with |- _ < env_Now e ?h1 + _ => pose proof (Hclock h1) end.
    specialize (Hclock h). lia.
  - rewrite Hrun. cbn [repeat mret M_ret hvault.ClientToken].
    eexists _, (EvNow _ :: evs). split; [| exact Hcount].
    f_equal. unfold with_trace, emit. cbn [client_token trace].
    rewrite <- !app_assoc. reflexivity.
Qed.

(** [unwrap], when the request itself succeeds. *)
Lemma unwrap_run ar e w s :
  let ut := approle.unwrap_token ar in
  let w1 := emit (EvLogical ut unwrap_request) (set_token ut w) in
  env_Logical e (trace w) ut unwrap_request = (Some s, None) ->
  approle.unwrap ar e w =
    match field_value (hvault.Data s) "secret_id_ttl" with
    | VNumber n =>
        match Int64 n with
        | (_, Some err) =>
            (Ok (Some (wrapError "unwrap: " err), approle.set_auth ar (Some empty_auth)), w1)
        | (ttl, None) =>
            match field_value (hvault.Data s) "secret_id" with
            | VString sid =>
                (Ok (None, unwrapped ar sid ttl (env_Now e (trace w1))),
                 emit (EvNow (env_Now e (trace w1))) w1)
            | _ => (Panic not_string, w1)
            end
        end
    | _ => (Panic not_Number, w1)
    end.
Proof.
  intros ut w1 E. subst ut w1. unwrap_rpc E.
  step. cbn [deref mret M_ret]. step.
  destruct (field_value (hvault.Data s) "secret_id_ttl") as [| | n | |]; try reflexivity.
  cbn [assert_Number mret M_ret].
  destruct (Int64 n) as [ttl [err |]]; [reflexivity |].
  step.
  destruct (field_value (hvault.Data s) "secret_id") as [| sid | | |]; reflexivity.
Qed.

(** Replies the provider does not check make [GetToken] panic, after the
    request was sent and with no error returned: a login or a renew-self
    that is answered without a secret, or with a secret that carries no
    authentication record; an unwrap that is answered without a secret,
    whose [secret_id_ttl] is absent or not a JSON number, or whose
    [secret_id] is absent or not a string. *)
Theorem AppRole_unchecked_replies ar e w :
  (approle.auth ar = None -> approle.unwrap_token ar = "" -> approle.secret_id ar <> "" ->
   let tok := client_token w in
   let w1 := emit (EvLogical tok (login_request ar)) w in
   (env_Logical e (trace w) tok (login_request ar) = (None, None) ->
    approle.GetToken ar e w = (Panic nil_deref, w1))
   /\ (forall s, env_Logical e (trace w) tok (login_request ar) = (Some s, None) ->
       hvault.Auth s = None ->
       approle.GetToken ar e w = (Panic nil_deref, w1)))
  /\
  (forall a, approle.auth ar = Some a -> hvault.ClientToken a <> "" ->
   approle.expires ar <= env_Now e (trace w) ->
   let tok := hvault.ClientToken a in
   let w0 := emit (EvNow (env_Now e (trace w))) w in
   let w1 := emit (EvLogical tok renew_request) (set_token tok w0) in
   (env_Logical e (trace w0) tok renew_request = (None, None) ->
    approle.GetToken ar e w = (Panic nil_deref, w1))
   /\ (forall s, env_Logical e (trace w0) tok renew_request = (Some s, None) ->
       hvault.Auth s = None ->
       approle.GetToken ar e w = (Panic nil_deref, w1)))
  /\
  (approle.auth ar = None -> approle.unwrap_token ar <> "" ->
   let ut := approle.unwrap_token ar in
   let w1 := emit (EvLogical ut unwrap_request) (set_token ut w) in
   (env_Logical e (trace w) ut unwrap_request = (None, None) ->
    approle.GetToken ar e w = (Panic nil_deref, w1))
   /\ (forall s, env_Logical e (trace w) ut unwrap_request = (Some s, None) ->
       is_VNumber (field_value (hvault.Data s) "secret_id_ttl") = false ->
       approle.GetToken ar e w = (Panic not_Number, w1))
   /\ (forall s n ttl, env_Logical e (trace w) ut unwrap_request = (Some s, None) ->
       field_value (hvault.Data s) "secret_id_ttl" = VNumber n ->
       Int64 n = (ttl, None) ->
       is_VString (field_value (hvault.Data s) "secret_id") = false ->
       approle.GetToken ar e w = (Panic not_string, w1))).
Proof.
  split; [| split].
  - intros Ea Hu Hs tok w1.
    assert (Hrun : approle.GetToken ar e w = approle.mint ar e w)
      by (unfold approle.GetToken; rewrite Ea; reflexivity).
    rewrite Hrun, mint_login_run by assumption. fold tok. split.
    + intros E. rewrite E. reflexivity.
    + intros s E Ha. rewrite E, Ha. reflexivity.
  - intros a Ea Htok Hnow tok w0 w1.
    assert (Hrun : approle.GetToken ar e w =
      match approle.renew ar e w0 with
      | (Ok (None, ar1), w') =>
          match approle.auth ar1 with
          | Some a1 => (Ok ((hvault.ClientToken a1, None), ar1), w')
          | None => (Panic nil_deref, w')
          end
      | (Ok (Some _, ar1), w') => approle.mint ar1 e w'
      | (Panic why, w') => (Panic why, w')
      | (Pending, w') => (Pending, w')
      end).
    { unfold approle.GetToken. rewrite Ea, (len0_false _ Htok).
      cbn [negb]. step. step. cbn [Now mret M_ret]. unfold time.Before.
      destruct (Z.ltb_spec (env_Now e (trace w)) (approle.expires ar)); [lia |].
      step. fold w0.
      destruct (approle.renew ar e w0) as [[[[err |] ar1] | why |] w']; try reflexivity.
      unfold mbind, M_bind. destruct (approle.auth ar1); reflexivity. }
    rewrite Hrun, (renew_run ar a) by assumption. fold tok. split.
    + intros E. rewrite E. reflexivity.
    + intros s E Ha. rewrite E, Ha. reflexivity.
  - intros Ea Hu ut w1.
    assert (Hrun : approle.GetToken ar e w =
      match approle.unwrap ar e w with
      | (Ok (Some err, ar1), w') =>
          (Ok (("", Some (wrapError "gettoken: " err)), ar1), w')
      | (Ok (None, ar1), w') => approle.mint (approle.SetUnwrapToken ar1 "") e w'
      | (Panic why, w') => (Panic why, w')
      | (Pending, w') => (Pending, w')
      end)
      by (unfold approle.GetToken; rewrite Ea; apply mint_unwrap; exact Hu).
    split; [| split].
    + intros E. rewrite Hrun. subst ut w1. unwrap_rpc E. reflexivity.
    + intros s E Hn. rewrite Hrun, (unwrap_run ar e w s E).
      destruct (field_value (hvault.Data s) "secret_id_ttl"); try reflexivity.
      discriminate.
    + intros s n ttl E Hn Hi Hsid. rewrite Hrun, (unwrap_run ar e w s E), Hn, Hi.
      destruct (field_value (hvault.Data s) "secret_id"); try reflexivity.
      discriminate.
Qed.

(* ===================================================================== *)
(** * The facade on top of a provider *)
(* ===================================================================== *)

(** The first [Read] of a client whose [AppRole] has a secret and has not
    authenticated yet, on an unsealed service that grants the login: the run
    is the seal-status query, the call of [GetToken], the login, the clock
    reading that sets the expiry, and then the read, at [store/key] and
    under the token the login returned; the data of the reply is returned,
    and the client leaves with the provider holding that token and its
    expiry. *)
Theorem Read_logs_in_first (path name rid sid store key : string) e w s a1 :
  sid <> "" ->
  let ar := approle.SetSecretID (approle.NewAppRole path name rid) sid in
  let v := {| client.store := store; client.attempts := 12; client.retry := 5;
              client.auth := ar |} in
  let login := hvault.Write ("auth/" +:+ path +:+ "/login") (login_data rid sid) in
  let read := hvault.Read (store +:+ "/" +:+ key) in
  let tok := hvault.ClientToken a1 in
  env_SealStatus e (trace w) = unsealed_reply ->
  env_Logical e (trace w ++ [EvSealStatus; EvGetToken]) (client_token w) login
    = (Some s, None) ->
  hvault.Auth s = Some a1 ->
  let now := env_Now e (trace w ++ [EvSealStatus; EvGetToken;
                                     EvLogical (client_token w) login]) in
  let h := trace w ++ [EvSealStatus; EvGetToken; EvLogical (client_token w) login;
                       EvNow now] in
  let ar' := expiry_set (approle.set_auth ar (Some a1)) a1 now in
  forall secret, env_Logical e h tok read = (Some secret, None) ->
  client.Read v key e w
  = (Ok ((hvault.Data secret, None), client.set_auth v ar'),
     {| client_token := tok; trace := h ++ [EvLogical tok read] |}).
Proof.
  intros Hsid ar v login read tok Eseal Elogin Ha now h ar' secret Eread.
  assert (Etok : Auth_GetToken (client.auth v) e (emit EvGetToken (emit EvSealStatus w))
                 = (Ok ((tok, None), ar'),
                    {| client_token := client_token w; trace := h |})).
  { change (Auth_GetToken (client.auth v)) with (approle.GetToken ar).
    unfold approle.GetToken.
    cbn [ar approle.auth approle.SetSecretID approle.NewAppRole]. fold ar.
    rewrite mint_login_run; [| reflexivity | exact Hsid].
    change (login_request ar) with login.
    cbn [emit trace client_token]. rewrite <- !app_assoc. cbn [app].
    rewrite Elogin, Ha. unfold emit. cbn [trace client_token].
    rewrite <- !app_assoc. cbn [app]. reflexivity. }
  rewrite (Read_run v key tok ar' e w _ Eseal Etok).
  cbn [client.store v trace]. fold read. rewrite Eread. reflexivity.
Qed.

(** The theorem on an [AppRole] whose token expired at [100], at a remote
    that refuses the renewal and grants the login. *)
Lemma AppRole_renew_fallback_witness :
  exists ar',
    approle.GetToken expired_role refusing_renewal start
    = (Ok (("t1", None), ar'),
       {| client_token := "t0";
          trace := [EvNow 200; EvLogical "t0" renew_request;
                    EvLogical "t0" (login_request expired_role); EvNow 200] |}).
Proof.
  eexists.
  refine (proj1 (proj2 (AppRole_renew_fallback expired_role _ refusing_renewal start
                          None (errorString "permission denied")
                          eq_refl _ _ eq_refl eq_refl)) _ _ _ eq_refl eq_refl).
  - discriminate.
  - change (100 <= 200). lia.
  - discriminate.
Defined.

(** The theorem on an [AppRole] that holds an empty authentication record
    and a secret. *)
Lemma AppRole_empty_cached_token_witness :
  exists ar',
    approle.GetToken (approle.set_auth configured (Some empty_auth)) granting start
    = (Ok (("t1", None), ar'),
       {| client_token := "";
          trace := [EvLogical "" (login_request configured); EvNow 200] |}).
Proof.
  eexists.
  refine (proj2 (AppRole_empty_cached_token
                   (approle.set_auth configured (Some empty_auth)) empty_auth
                   granting start eq_refl eq_refl eq_refl) _ _ _ eq_refl eq_refl).
  discriminate.
Defined.

(** The theorem on three callers of a fresh [AppRole], at a clock of
    [200]. *)
Lemma AppRole_login_then_cached_witness :
  exists ar' rest,
    serialized 3 configured granting start
    = (Ok ([("t1", None); ("t1", None); ("t1", None)], ar'),
       with_trace start
         (EvLogical "" (hvault.Write "auth/approle/login" (login_data "role" "s3cr3t"))
            :: rest))
    /\ rpc_count rest = 0%nat.
Proof.
  refine (AppRole_login_then_cached 2 approle.AppRolePath "app" "role" "s3cr3t"
            granting start
            {| hvault.Data := NilData;
               hvault.Auth := Some {| hvault.ClientToken := "t1";
                                      hvault.LeaseDuration := 3600 |} |}
            _ 200 _ _ eq_refl _ _).
  - discriminate.
  - intros h tok. reflexivity.
  - discriminate.
  - intros h. change (200 <= 200 < 200 + 3590000000000). lia.
Defined.

(** The theorem on a login that is answered with nothing. *)
Lemma AppRole_unchecked_replies_witness :
  approle.GetToken configured mute start
  = (Panic nil_deref, emit (EvLogical "" (login_request configured)) start).
Proof.
  refine (proj1 (proj1 (AppRole_unchecked_replies configured mute start)
                   eq_refl eq_refl _) eq_refl).
  discriminate.
Defined.

(** The theorem on the client [kv] and a remote that holds [credentials]. *)
Lemma Read_logs_in_first_witness :
  exists v',
    client.Read kv "app" holding start
    = (Ok ((credentials, None), v'),
       {| client_token := "t1";
          trace := [EvSealStatus; EvGetToken;
                    EvLogical "" (hvault.Write "auth/approle/login"
                                    (login_data "role" "s3cr3t"));
                    EvNow 200; EvLogical "t1" (hvault.Read "kv/app")] |}).
Proof.
  eexists.
  refine (Read_logs_in_first approle.AppRolePath "app" "role" "s3cr3t" "kv" "app"
            holding start
            {| hvault.Data := NilData;
               hvault.Auth := Some {| hvault.ClientToken := "t1";
                                      hvault.LeaseDuration := 3600 |} |}
            _ _ eq_refl eq_refl eq_refl
            {| hvault.Data := credentials; hvault.Auth := None |} eq_refl).
  discriminate.
Defined.
